(** * AudioExtractor: the chunked transcription pipeline

    A shallow embedding of the parts of [main.py], [whisper_transcriber.py]
    and [vosk_transcriber.py] that split audio into segments, retry the
    recognition of each segment, assemble the transcript and re-flow it
    into a document.

    Conventions.
    - A Python [str] is a list of Unicode code points ([N]); [len] is
      [length].
    - Durations: [len(audio)] is an integer number of milliseconds ([Z]);
      the float quantities derived from it ([len(audio) / 1000],
      [duration * 1000]) are modelled by the exact rationals ([Q]) they
      stand for.
    - External calls (pydub, speech_recognition, the file system) are
      answered by a record of oracles; the calls that matter (chunk and
      segment files, recognizer calls, sleeps, the text file) are logged
      in a trace of events. *)

From Stdlib Require Import String Ascii.
From Stdlib Require Import ZArith NArith QArith Qround List Bool Lia.
From Stdlib Require Import DecimalN.
Import ListNotations.

Close Scope Q_scope.
Set Implicit Arguments.

(** ** Python strings *)

Module PyStr.

Abbreviation char := N (only parsing).
Abbreviation str := (list N) (only parsing).

(** [utf8 s] decodes the UTF-8 bytes of a Rocq string literal into code
    points (one to three byte sequences, which covers the Cyrillic
    literals of the source). *)
Fixpoint utf8_bytes (bs : list N) : str :=
  match bs with
  | [] => []
  | b :: r =>
      if (b <? 128)%N then b :: utf8_bytes r
      else if (b <? 224)%N then
        match r with
        | b2 :: r2 => ((b - 192) * 64 + (b2 - 128))%N :: utf8_bytes r2
        | [] => []
        end
      else
        match r with
        | b2 :: b3 :: r3 =>
            ((b - 224) * 4096 + (b2 - 128) * 64 + (b3 - 128))%N :: utf8_bytes r3
        | _ => []
        end
  end.

Definition utf8 (s : string) : str :=
  utf8_bytes (map N_of_ascii (list_ascii_of_string s)).

Definition space : char := 32%N.
Definition newline : char := 10%N.

(** [str.isspace] for one code point: the characters [str.split()]
    treats as separators. *)
Definition isspace (c : char) : bool :=
  ((9 <=? c) && (c <=? 13) || (28 <=? c) && (c <=? 32)
   || (c =? 133) || (c =? 160) || (c =? 5760)
   || (8192 <=? c) && (c <=? 8202)
   || (c =? 8232) || (c =? 8233) || (c =? 8239) || (c =? 8287)
   || (c =? 12288))%N.

(** [text.split()]: the maximal runs of non-whitespace characters. *)
Fixpoint split (s : str) : list str :=
  match s with
  | [] => []
  | c :: s' =>
      if isspace c then split s'
      else
        match s' with
        | [] => [[c]]
        | d :: _ =>
            if isspace d then [c] :: split s'
            else
              match split s' with
              | w :: ws => (c :: w) :: ws
              | [] => [[c]]
              end
        end
  end.

(** [sep.join(parts)] *)
Fixpoint join (sep : str) (parts : list str) : str :=
  match parts with
  | [] => []
  | [x] => x
  | x :: xs => x ++ sep ++ join sep xs
  end.

(** [s.split(c)] for a one-character separator. *)
Fixpoint split_on (sep : char) (s : str) : list str :=
  match s with
  | [] => [[]]
  | c :: s' =>
      if (c =? sep)%N then [] :: split_on sep s'
      else
        match split_on sep s' with
        | w :: ws => (c :: w) :: ws
        | [] => [[c]]
        end
  end.

(** [str(n)] for an integer. *)
Fixpoint digits (u : Decimal.uint) : str :=
  match u with
  | Decimal.Nil => []
  | Decimal.D0 u => 48%N :: digits u
  | Decimal.D1 u => 49%N :: digits u
  | Decimal.D2 u => 50%N :: digits u
  | Decimal.D3 u => 51%N :: digits u
  | Decimal.D4 u => 52%N :: digits u
  | Decimal.D5 u => 53%N :: digits u
  | Decimal.D6 u => 54%N :: digits u
  | Decimal.D7 u => 55%N :: digits u
  | Decimal.D8 u => 56%N :: digits u
  | Decimal.D9 u => 57%N :: digits u
  end.

Definition str_of_N (n : N) : str := digits (N.to_uint n).
Definition str_of_nat (n : nat) : str := str_of_N (N.of_nat n).
Definition str_of_Z (z : Z) : str :=
  if (z <? 0)%Z then 45%N :: str_of_N (Z.abs_N z) else str_of_N (Z.to_N z).

(** [needle in s] *)
Fixpoint startswith (s prefix : str) : bool :=
  match prefix, s with
  | [], _ => true
  | p :: prefix', c :: s' => (p =? c)%N && startswith s' prefix'
  | _ :: _, [] => false
  end.

Fixpoint contains (s needle : str) : bool :=
  startswith s needle
  || match s with
     | [] => false
     | _ :: s' => contains s' needle
     end.

Definition endswith (s suffix : str) : bool :=
  startswith (rev s) (rev suffix).

(** A word: non-empty and free of whitespace. *)
Definition word_ok (w : str) : Prop :=
  w <> [] /\ Forall (fun c => isspace c = false) w.

(** A string that is empty or starts with a whitespace character. *)
Definition at_boundary (s : str) : Prop :=
  match s with
  | [] => True
  | c :: _ => isspace c = true
  end.

End PyStr.

Import PyStr.

(** ** The formatter ([format_text], [format_whisper_result],
       [format_vosk_result]) *)

Module Formatter.

(** The local variables of the packing loop. *)
Record state := mkState {
  current_line : list str;
  current_length : nat;
  paragraphs : list str;
  current_paragraph : list str
}.

Definition initial : state := mkState [] 0 [] [].

(** Python truthiness of a list. *)
Definition truthy {A} (l : list A) : bool :=
  match l with [] => false | _ :: _ => true end.

Section Packing.

Variable max_line_length : nat.
Variable paragraph_lines : nat.

(** One iteration of [for word in words]. *)
Definition step (st : state) (word : str) : state :=
  let word_length := length word in
  if current_length st + word_length + 1 <=? max_line_length then
    mkState (current_line st ++ [word])
            (current_length st + word_length + 1)
            (paragraphs st)
            (current_paragraph st)
  else
    let current_paragraph' :=
      if truthy (current_line st)
      then current_paragraph st ++ [join [space] (current_line st)]
      else current_paragraph st in
    if paragraph_lines <=? length current_paragraph' then
      mkState [word] word_length
              (paragraphs st ++ [join [newline] current_paragraph'])
              []
    else
      mkState [word] word_length (paragraphs st) current_paragraph'.

(** The two statements after the loop: flush the last line and the
    last paragraph. *)
Definition finish (st : state) : list str :=
  let current_paragraph' :=
    if truthy (current_line st)
    then current_paragraph st ++ [join [space] (current_line st)]
    else current_paragraph st in
  if truthy current_paragraph'
  then paragraphs st ++ [join [newline] current_paragraph']
  else paragraphs st.

(** The value of [paragraphs] when the function reaches the
    "final text" part. *)
Definition pack (words : list str) : list str :=
  finish (fold_left step words initial).

End Packing.

(** [' '.join(text.split())] *)
Definition collapse (text : str) : str := join [space] (split text).

(** [sum(len(p.split('\n')) for p in paragraphs)] *)
Definition count_lines (paragraphs : list str) : nat :=
  fold_right (fun p acc => length (split_on newline p) + acc) 0 paragraphs.

Definition blank_line : str := [newline; newline].

(** *** main.py *)

Definition text_paragraphs (text : str) : list str :=
  pack 120 5 (split (collapse text)).

Definition format_text (text : str) : str :=
  let text := collapse text in
  let formatted_text := utf8 "ТРАНСКРИПЦИЯ АУДИО" ++ [newline] in
  let words := split text in
  let paragraphs := pack 120 5 words in
  let formatted_text := formatted_text ++ join blank_line paragraphs in
  let formatted_text :=
    formatted_text ++ utf8 "Количество строк: "
      ++ str_of_nat (count_lines paragraphs) ++ [newline] in
  let formatted_text :=
    formatted_text ++ utf8 "Количество слов: "
      ++ str_of_nat (length words) ++ [newline] in
  let formatted_text :=
    formatted_text ++ utf8 "Количество символов: "
      ++ str_of_nat (length text) ++ [newline] in
  let formatted_text :=
    formatted_text ++ utf8 "Количество параграфов: "
      ++ str_of_nat (length paragraphs) ++ [newline] in
  formatted_text.

(** *** whisper_transcriber.py and vosk_transcriber.py

    The two functions differ in the header only. *)

Definition local_paragraphs (text : str) : list str :=
  pack 80 4 (split (collapse text)).

Definition format_local (header : str) (text : str) : str :=
  let text := collapse text in
  let formatted_text := header ++ blank_line in
  let words := split text in
  let paragraphs := pack 80 4 words in
  let formatted_text := formatted_text ++ join blank_line paragraphs in
  let formatted_text :=
    formatted_text ++ blank_line ++ utf8 "Статистика:" ++ [newline] in
  let formatted_text :=
    formatted_text ++ utf8 "Количество слов: "
      ++ str_of_nat (length words) ++ [newline] in
  let formatted_text :=
    formatted_text ++ utf8 "Количество символов: "
      ++ str_of_nat (length text) ++ [newline] in
  formatted_text.

Definition format_whisper_result : str -> str :=
  format_local (utf8 "ТРАНСКРИПЦИЯ АУДИО (WHISPER)").

Definition format_vosk_result : str -> str :=
  format_local (utf8 "ТРАНСКРИПЦИЯ АУДИО (VOSK)").

(** The lines of the body as they stand in the output: every paragraph
    cut at its line breaks. *)
Definition body_lines (paragraphs : list str) : list str :=
  concat (map (split_on newline) paragraphs).

(** *** The same loop with the structure kept

    [Layout] runs the packing loop with every line kept as its list of
    words and every paragraph as its list of lines; [erase] renders such
    a state into the strings the source holds.  It is a device of the
    proofs: [pack_layout] shows that the source computes its rendering. *)

Record layout_state := mkLayout {
  l_line : list str;
  l_length : nat;
  l_paragraphs : list (list (list str));
  l_paragraph : list (list str)
}.

Definition render_line (line : list str) : str := join [space] line.

Definition render_paragraph (lines : list (list str)) : str :=
  join [newline] (map render_line lines).

Definition erase (g : layout_state) : state :=
  mkState (l_line g) (l_length g)
          (map render_paragraph (l_paragraphs g))
          (map render_line (l_paragraph g)).

Definition flush_line (g : layout_state) : list (list str) :=
  if truthy (l_line g) then l_paragraph g ++ [l_line g] else l_paragraph g.

Definition layout_step (max_line_length paragraph_lines : nat)
    (g : layout_state) (word : str) : layout_state :=
  if l_length g + length word + 1 <=? max_line_length then
    mkLayout (l_line g ++ [word]) (l_length g + length word + 1)
             (l_paragraphs g) (l_paragraph g)
  else if paragraph_lines <=? length (flush_line g) then
    mkLayout [word] (length word) (l_paragraphs g ++ [flush_line g]) []
  else
    mkLayout [word] (length word) (l_paragraphs g) (flush_line g).

Definition layout_finish (g : layout_state) : list (list (list str)) :=
  if truthy (flush_line g) then l_paragraphs g ++ [flush_line g]
  else l_paragraphs g.

Definition layout (max_line_length paragraph_lines : nat)
    (words : list str) : list (list (list str)) :=
  layout_finish
    (fold_left (layout_step max_line_length paragraph_lines) words
               (mkLayout [] 0 [] [])).

(** A line of the layout is in order: it holds a word, and it fits the
    width unless it is one word that is itself wider. *)
Definition line_ok (max_line_length : nat) (line : list str) : Prop :=
  line <> [] /\
  (length (render_line line) <= max_line_length \/
   exists w, line = [w] /\ max_line_length < length w).

Section LayoutInvariant.

Variable max_line_length : nat.
Variable paragraph_lines : nat.

(** What the loop keeps true; [done] is the list of words consumed. *)
Definition current_ok (g : layout_state) : Prop :=
  (l_line g = [] /\ l_length g = 0) \/
  (l_line g <> [] /\
   length (render_line (l_line g)) <= l_length g /\
   (l_length g <= max_line_length \/
    exists w, l_line g = [w] /\ l_length g = length w)).

Record invariant (g : layout_state) (done : list str) : Prop := {
  inv_words :
    concat (concat (l_paragraphs g)) ++ concat (l_paragraph g) ++ l_line g
    = done;
  inv_closed : Forall (Forall (line_ok max_line_length)) (l_paragraphs g);
  inv_open : Forall (line_ok max_line_length) (l_paragraph g);
  inv_current : current_ok g;
  inv_full : Forall (fun p => length p = paragraph_lines) (l_paragraphs g);
  inv_room : length (l_paragraph g) < paragraph_lines
}.

(** The properties of the finished layout. *)
Record layout_spec (words : list str) (pars : list (list (list str)))
  : Prop := {
  spec_words : concat (concat pars) = words;
  spec_lines : Forall (Forall (line_ok max_line_length)) pars;
  spec_full : Forall (fun p => length p = paragraph_lines) (removelast pars);
  spec_last : Forall (fun p => 1 <= length p <= paragraph_lines) pars
}.

End LayoutInvariant.

(** What the body of a document owes to its words: cut at the line
    breaks and then at whitespace it gives back the words in order; a
    line is wider than the maximum only if it is one word that is wider;
    every paragraph but the last holds exactly [paragraph_lines] lines and
    the last one between one and [paragraph_lines]. *)
Definition well_packed (max_line_length paragraph_lines : nat)
    (words : list str) (paragraphs : list str) : Prop :=
  concat (map split (body_lines paragraphs)) = words /\
  Forall (fun line => length line <= max_line_length \/
                      (In line words /\ max_line_length < length line))
         (body_lines paragraphs) /\
  Forall (fun p => length (split_on newline p) = paragraph_lines)
         (removelast paragraphs) /\
  Forall (fun p => 1 <= length (split_on newline p) <= paragraph_lines)
         paragraphs.

(** No line of the body is wider than the maximum. *)
Definition within_width (max_line_length : nat) (paragraphs : list str)
    : Prop :=
  Forall (fun line => length line <= max_line_length) (body_lines paragraphs).

(** A document reports a count when it shows the label of that count. *)
Definition reports (label : string) (document : str) : bool :=
  contains document (utf8 label).

Definition reports_four_counts (document : str) : bool :=
  reports "Количество строк: " document
  && reports "Количество слов: " document
  && reports "Количество символов: " document
  && reports "Количество параграфов: " document.

End Formatter.

Import Formatter.

(** ** Files

    File names are kept symbolic: the names the source derives with
    [os.path] from the name of its input are constructors over it. *)

Module Files.

Inductive backend := Whisper | Vosk.

Inductive path :=
| Given (name : str)
    (* a path handed in by the caller *)
| TempWav (src : path)
    (* output/<stem>_temp.wav *)
| ChunkWav (src : path) (chunk_number : Z)
    (* output/chunks/<stem>_chunk_<chunk_number>.wav *)
| SegmentWav (b : backend) (src : path) (ordinal : Z)
    (* output/<backend>_segments/<stem>_segment_<ordinal>.wav *)
| OutputTxt (src : path).
    (* output/<stem>.txt *)

(** ASCII lowering; enough to compare a suffix with an ASCII literal. *)
Definition lower (s : str) : str :=
  map (fun c => if ((65 <=? c) && (c <=? 90))%N then (c + 32)%N else c) s.

(** [audio_path.lower().endswith('.wav')] *)
Definition is_wav (p : path) : bool :=
  match p with
  | Given name => endswith (lower name) (utf8 ".wav")
  | TempWav _ | ChunkWav _ _ | SegmentWav _ _ _ => true
  | OutputTxt _ => false
  end.

(** [audio_path.endswith('_temp.wav')] *)
Definition is_temp_wav (p : path) : bool :=
  match p with
  | Given name => endswith name (utf8 "_temp.wav")
  | TempWav _ => true
  | _ => false
  end.

(** A call either returns a value or raises an exception. *)
Inductive result (A : Type) :=
| Returned (a : A)
| Raised.
Arguments Raised {A}.

(** [int(x)] for a number: truncation towards zero. *)
Definition py_int (q : Q) : Z := Z.quot (Qnum q) (Zpos (Qden q)).

Definition Qlt_bool (x y : Q) : bool := negb (Qle_bool y x).

End Files.

Import Files.

(** ** The segmenter of the local backends
       ([split_audio_for_whisper], [split_audio_for_vosk]) *)

Module Segmenter.

(** What pydub and the file system answer. *)
Record io := mkIO {
  (* AudioSegment.from_file(audio_path): len(audio) in ms; None when
     it raises *)
  from_file : path -> option Z;
  (* os.makedirs(segments_dir, exist_ok=True) returns *)
  makedirs : backend -> bool;
  (* audio[start_ms:end_ms].export(segment_path, ...) returns *)
  export : path -> Z -> Z -> bool
}.

(** A segment file that has been written. *)
Inductive event :=
| Exported (segment_path : path) (start_ms end_ms : Z).

(** [for i in range(total_segments)], with [segments] threaded. *)
Fixpoint export_loop (b : backend) (w : io) (audio_path : path)
    (segment_length_sec len_audio : Z) (range : list nat)
    (segments : list path) : result (list path) * list event :=
  match range with
  | [] => (Returned segments, [])
  | i :: range' =>
      let i := Z.of_nat i in
      let start_ms := (i * segment_length_sec * 1000)%Z in
      let end_ms := Z.min ((i + 1) * segment_length_sec * 1000) len_audio in
      let segment_path := SegmentWav b audio_path (i + 1) in
      if export w segment_path start_ms end_ms then
        let (r, tr) :=
          export_loop b w audio_path segment_length_sec len_audio range'
                      (segments ++ [segment_path]) in
        (r, Exported segment_path start_ms end_ms :: tr)
      else (Raised, [])
  end.

(** The body of the [try]. *)
Definition split_body (b : backend) (w : io) (audio_path : path)
    (segment_length_sec : Z) : result (list path) * list event :=
  match from_file w audio_path with
  | None => (Raised, [])
  | Some len_audio =>
      let total_duration_sec := (inject_Z len_audio / 1000)%Q in
      if Qle_bool total_duration_sec (inject_Z segment_length_sec) then
        (Returned [audio_path], [])
      else if negb (makedirs w b) then (Raised, [])
      else if (segment_length_sec =? 0)%Z then (Raised, [])
      else
        let total_segments :=
          (py_int (total_duration_sec / inject_Z segment_length_sec) + 1)%Z in
        export_loop b w audio_path segment_length_sec len_audio
                    (seq 0 (Z.to_nat total_segments)) []
  end.

(** [try: ... except Exception: return [audio_path]] *)
Definition split_audio (b : backend) (w : io) (audio_path : path)
    (segment_length_sec : Z) : list path * list event :=
  match split_body b w audio_path segment_length_sec with
  | (Returned segments, tr) => (segments, tr)
  | (Raised, tr) => ([audio_path], tr)
  end.

Definition split_audio_for_whisper := split_audio Whisper.
Definition split_audio_for_vosk := split_audio Vosk.

(** The default values of [segment_length_sec]. *)
Definition whisper_segment_length_sec : Z := 600.
Definition vosk_segment_length_sec : Z := 300.

(** The time windows of the segment files written. *)
Definition windows (tr : list event) : list (Z * Z) :=
  map (fun e => match e with Exported _ a b => (a, b) end) tr.

(** The file and the time window of pass [i] of the loop. *)
Definition segment_file (b : backend) (audio_path : path) (i : nat) : path :=
  SegmentWav b audio_path (Z.of_nat i + 1).

Definition window (segment_length_sec len_audio : Z) (i : nat) : Z * Z :=
  ((Z.of_nat i * segment_length_sec * 1000)%Z,
   Z.min ((Z.of_nat i + 1) * segment_length_sec * 1000) len_audio).

Definition exported (b : backend) (audio_path : path)
    (segment_length_sec len_audio : Z) (i : nat) : event :=
  Exported (segment_file b audio_path i)
           (fst (window segment_length_sec len_audio i))
           (snd (window segment_length_sec len_audio i)).

(** An [io] in which every call succeeds on an audio of the given length. *)
Definition healthy (len_audio : Z) : io :=
  mkIO (fun _ => Some len_audio) (fun _ => true) (fun _ _ _ => true).

(** An [io] in which the audio cannot be loaded. *)
Definition unreadable : io :=
  mkIO (fun _ => None) (fun _ => true) (fun _ _ _ => true).

End Segmenter.

(** ** The online pipeline ([audio_to_text] of main.py) *)

Module Pipeline.

(** What one call of [recognizer.recognize_google] does. *)
Inductive outcome :=
| Recognized (chunk_text : str)
| UnknownValueError
| RequestError (detail : str)
| OtherError.

Record world := mkWorld {
  (* the body of convert_audio_to_wav (load, normalize, export) succeeds;
     otherwise the function returns None *)
  convert_ok : path -> bool;
  (* AudioSegment.from_wav(audio_path): len(full_audio) in ms *)
  from_wav : path -> option Z;
  (* sr.AudioFile(audio_path).DURATION in seconds *)
  DURATION : path -> option Q;
  (* the export inside save_audio_chunk succeeds; otherwise the function
     returns None *)
  save_ok : path -> bool;
  (* sr.AudioFile(chunk_path) opens and recognizer.record returns *)
  record_ok : path -> bool;
  (* recognize_google on a chunk, by chunk number and attempt *)
  recognize_google : Z -> nat -> outcome;
  (* open(output_text_path, 'w') and f.write return *)
  write_ok : path -> bool;
  (* os.remove returns *)
  remove_ok : path -> bool
}.

Inductive event :=
| Converted (src : path)
| SavedChunk (chunk_path : path) (start_ms end_ms : Z)
| Recognize (chunk_number : Z) (attempt : nat)
| Sleep (ms : Z)
| WroteText (file : path) (content : str)
| Removed (file : path).

Definition max_retries : nat := 5.
Definition chunk_duration : Z := 30 * 1000.

Definition convert_audio_to_wav (w : world) (audio_path : path)
    : option path * list event :=
  let wav_path := TempWav audio_path in
  if convert_ok w audio_path then (Some wav_path, [Converted audio_path])
  else (None, []).

(** The slice [full_audio[a:b]] of pydub is cut at the end of the audio. *)
Definition save_audio_chunk (w : world) (len_audio start_ms end_ms : Z)
    (chunk_number : Z) (original : path) : option path * list event :=
  let chunk_path := ChunkWav original chunk_number in
  if save_ok w chunk_path then
    (Some chunk_path,
     [SavedChunk chunk_path (Z.min start_ms len_audio) (Z.min end_ms len_audio)])
  else (None, []).

(** f"[Не удалось распознать часть {current_chunk}]" *)
Definition placeholder (current_chunk : Z) : str :=
  utf8 "[Не удалось распознать часть " ++ str_of_Z current_chunk ++ utf8 "]".

(** How the [for attempt in range(max_retries)] loop is left. *)
Inductive retried :=
| Success (chunk_text : str)
| Exhausted
| Propagated.

Definition backoff (attempt : nat) : list event :=
  if attempt <? max_retries - 1 then [Sleep 5000] else [].

Fixpoint retry_loop (w : world) (current_chunk : Z) (range : list nat)
    : retried * list event :=
  match range with
  | [] => (Exhausted, [])
  | attempt :: range' =>
      match recognize_google w current_chunk attempt with
      | Recognized chunk_text =>
          (Success chunk_text, [Recognize current_chunk attempt])
      | UnknownValueError =>
          let (r, tr) := retry_loop w current_chunk range' in
          (r, Recognize current_chunk attempt :: backoff attempt ++ tr)
      | RequestError _ =>
          let (r, tr) := retry_loop w current_chunk range' in
          (r, Recognize current_chunk attempt :: backoff attempt ++ tr)
      | OtherError => (Propagated, [Recognize current_chunk attempt])
      end
  end.

(** One iteration of the [while] loop, up to [offset += chunk_duration]. *)
Definition process_chunk (w : world) (audio_path : path) (len_audio : Z)
    (offset : Z) (full_text : list str) : result (list str) * list event :=
  let current_chunk := (offset / chunk_duration + 1)%Z in
  match save_audio_chunk w len_audio offset (offset + chunk_duration)
                         current_chunk audio_path with
  | (None, tr) => (Raised, tr)
  | (Some chunk_path, tr) =>
      if record_ok w chunk_path then
        match retry_loop w current_chunk (seq 0 max_retries) with
        | (Success chunk_text, tr') =>
            (Returned (full_text ++ [chunk_text]), tr ++ tr')
        | (Exhausted, tr') =>
            (Returned (full_text ++ [placeholder current_chunk]), tr ++ tr')
        | (Propagated, tr') => (Raised, tr ++ tr')
        end
      else (Raised, tr)
  end.

(** [while offset < duration * 1000]; [fuel] bounds the number of
    iterations, [None] means that it did not suffice. *)
Fixpoint chunk_loop (fuel : nat) (w : world) (audio_path : path)
    (len_audio : Z) (limit : Q) (offset : Z) (full_text : list str)
    : option (result (list str) * list event) :=
  if Qlt_bool (inject_Z offset) limit then
    match fuel with
    | O => None
    | S fuel' =>
        match process_chunk w audio_path len_audio offset full_text with
        | (Raised, tr) => Some (Raised, tr)
        | (Returned full_text', tr) =>
            match chunk_loop fuel' w audio_path len_audio limit
                             (offset + chunk_duration) full_text' with
            | None => None
            | Some (r, tr') => Some (r, tr ++ Sleep 100 :: tr')
            end
        end
    end
  else Some (Returned full_text, []).

(** Everything after the [while] loop. *)
Definition save_transcript (w : world) (audio_path : path)
    (full_text : list str) : bool * list event :=
  let text := join [space] full_text in
  let formatted_text := format_text text in
  let output_text_path := OutputTxt audio_path in
  if write_ok w output_text_path then
    if is_temp_wav audio_path then
      if remove_ok w audio_path
      then (true, [WroteText output_text_path formatted_text; Removed audio_path])
      else (false, [WroteText output_text_path formatted_text])
    else (true, [WroteText output_text_path formatted_text])
  else (false, []).

Definition audio_to_text (fuel : nat) (w : world) (audio_path : path)
    : option (bool * list event) :=
  let (converted, tr0) :=
    if negb (is_wav audio_path) then convert_audio_to_wav w audio_path
    else (Some audio_path, []) in
  match converted with
  | None => Some (false, tr0)
  | Some audio_path =>
      match from_wav w audio_path with
      | None => Some (false, tr0)
      | Some len_audio =>
          match DURATION w audio_path with
          | None => Some (false, tr0)
          | Some duration =>
              match chunk_loop fuel w audio_path len_audio
                               (duration * 1000)%Q 0 [] with
              | None => None
              | Some (Raised, tr) => Some (false, tr0 ++ tr)
              | Some (Returned full_text, tr) =>
                  let (ok, tr') := save_transcript w audio_path full_text in
                  Some (ok, tr0 ++ tr ++ tr')
              end
          end
      end
  end.

(** [int(duration // 30) + 1], the total shown by the progress bar. *)
Definition total_chunks (duration : Q) : Z := (Qfloor (duration / 30) + 1)%Z.

(** *** Reading a trace *)

Definition written (tr : list event) : list (path * str) :=
  flat_map (fun e => match e with WroteText f c => [(f, c)] | _ => [] end) tr.

Definition saved_chunks (tr : list event) : list path :=
  flat_map (fun e => match e with SavedChunk p _ _ => [p] | _ => [] end) tr.

Definition recognize_calls (tr : list event) : list (Z * nat) :=
  flat_map (fun e => match e with Recognize c a => [(c, a)] | _ => [] end) tr.

Definition sleeps (tr : list event) : list Z :=
  flat_map (fun e => match e with Sleep ms => [ms] | _ => [] end) tr.

(** The two kinds of failure the retry loop catches. *)
Definition transient (o : outcome) : bool :=
  match o with
  | UnknownValueError | RequestError _ => true
  | Recognized _ | OtherError => false
  end.

(** The ordinal of pass [j] of the [while] loop. *)
Definition ordinal (j : nat) : Z := (Z.of_nat j + 1)%Z.

(** [segment_text w c t]: [t] is what the outcomes of chunk [c], and of
    no other chunk, make of it: the text of the first attempt that is
    recognized, the attempts before it having failed transiently, or the
    placeholder of [c] when all [max_retries] attempts failed
    transiently. *)
Definition segment_text (w : world) (c : Z) (t : str) : Prop :=
  (exists a, a < max_retries /\
             recognize_google w c a = Recognized t /\
             forall a', a' < a -> transient (recognize_google w c a') = true)
  \/
  (t = placeholder c /\
   forall a, a < max_retries -> transient (recognize_google w c a) = true).

(** The input cannot be decoded: the conversion fails, or the WAV file
    cannot be loaded or opened. *)
Definition undecodable (w : world) (audio_path : path) : Prop :=
  if is_wav audio_path
  then from_wav w audio_path = None \/ DURATION w audio_path = None
  else convert_ok w audio_path = false \/
       from_wav w (TempWav audio_path) = None \/
       DURATION w (TempWav audio_path) = None.

(** The [while] loop has passed [n] times and stops. *)
Definition all_chunks (limit : Q) (n : nat) : Prop :=
  (forall j, j < n ->
     Qlt_bool (inject_Z (Z.of_nat j * chunk_duration)) limit = true) /\
  Qlt_bool (inject_Z (Z.of_nat n * chunk_duration)) limit = false.

Definition trace_of (run : option (bool * list event)) : list event :=
  match run with
  | Some (_, tr) => tr
  | None => []
  end.

(** *** Worlds to run the pipeline in *)

(** 75 s of audio; the first chunk is heard as "a", the second is never
    understood, the third is heard as "c" at the third attempt. *)
Definition talk : world :=
  mkWorld (fun _ => true) (fun _ => Some 75000%Z) (fun _ => Some 75%Q)
          (fun _ => true) (fun _ => true)
          (fun c a =>
             if (c =? 1)%Z then Recognized (utf8 "a")
             else if (c =? 2)%Z then
               if Nat.even a then UnknownValueError
               else RequestError (utf8 "timeout")
             else if a <? 2 then UnknownValueError
             else Recognized (utf8 "c"))
          (fun _ => true) (fun _ => true).

(** 10 s of audio, heard as "hi". *)
Definition greeting : world :=
  mkWorld (fun _ => true) (fun _ => Some 10000%Z) (fun _ => Some 10%Q)
          (fun _ => true) (fun _ => true)
          (fun _ _ => Recognized (utf8 "hi"))
          (fun _ => true) (fun _ => true).

(** A file that cannot be read as WAV. *)
Definition noise : world :=
  mkWorld (fun _ => true) (fun _ => None) (fun _ => None)
          (fun _ => true) (fun _ => true)
          (fun _ _ => Recognized (utf8 "hi"))
          (fun _ => true) (fun _ => true).

End Pipeline.

(** ** Further readings of the formatter's layout *)

Module Greedy.

(** [breaks_ok max slack lines]: wherever a line is followed by another,
    the first word of the second would not have fitted on the first:
    with that word and a space the first line would be wider than [max].
    [slack] is the number of characters the first line of [lines] gives
    away; the lines after it give none away. *)
Fixpoint breaks_ok (max_line_length slack : nat) (lines : list (list str))
    : Prop :=
  match lines with
  | line :: (next :: _) as rest =>
      match next with
      | word :: _ =>
          max_line_length < length (render_line line) + 1 + length word + slack
      | [] => True
      end
      /\ breaks_ok max_line_length 0 rest
  | _ => True
  end.

(** The lines the loop has made so far, the open one included. *)
Definition lines_so_far (g : layout_state) : list (list str) :=
  concat (l_paragraphs g) ++ flush_line g.

(** The lines closed so far. *)
Definition closed_lines (g : layout_state) : list (list str) :=
  concat (l_paragraphs g) ++ l_paragraph g.

Section Breaks.

Variable max_line_length : nat.

(** The link between a line and the one after it. *)
Definition link (slack : nat) (line next : list str) : Prop :=
  match next with
  | word :: _ =>
      max_line_length < length (render_line line) + 1 + length word + slack
  | [] => True
  end.

(** What the loop keeps true of the breaks. *)
Definition greedy_invariant (g : layout_state) : Prop :=
  breaks_ok max_line_length 1 (lines_so_far g) /\
  ((l_line g = [] /\ l_length g = 0 /\ closed_lines g = []) \/
   (l_line g <> [] /\
    length (render_line (l_line g)) <= l_length g
      <= length (render_line (l_line g)) + 1 /\
    (closed_lines g <> [] ->
     l_length g = length (render_line (l_line g))))).

End Breaks.

End Greedy.

(** ** Worlds for the segmenter *)

Module SegmenterWorlds.

(** An [io] whose export fails at the segment of the given ordinal. *)
Definition failing_at (len_audio ordinal : Z) : Segmenter.io :=
  Segmenter.mkIO (fun _ => Some len_audio) (fun _ => true)
    (fun q _ _ =>
       match q with
       | SegmentWav _ _ k => negb (k =? ordinal)%Z
       | _ => true
       end).

(** The files named in a trace of the segmenter. *)
Definition exported_files (tr : list Segmenter.event) : list path :=
  map (fun e => match e with Segmenter.Exported q _ _ => q end) tr.

End SegmenterWorlds.

(** ** Further readings of a trace of [audio_to_text] *)

Module PipelineMore.

Import Pipeline.

Definition removed (tr : list event) : list path :=
  flat_map (fun e => match e with Removed f => [f] | _ => [] end) tr.

Definition converted (tr : list event) : list path :=
  flat_map (fun e => match e with Converted f => [f] | _ => [] end) tr.

(** The time slept, in milliseconds. *)
Definition total_sleep (tr : list event) : Z :=
  fold_right Z.add 0%Z (sleeps tr).

(** The events of the loop over the chunks. *)
Definition loop_event (e : event) : bool :=
  match e with
  | SavedChunk _ _ _ | Recognize _ _ | Sleep _ => true
  | Converted _ | WroteText _ _ | Removed _ => false
  end.

(** The WAV file the run works on: the input, or its conversion. *)
Definition source_of (audio_path : path) : path :=
  if is_wav audio_path then audio_path else TempWav audio_path.

(** 40 s of audio; the recognizer breaks down with an unexpected error
    at the second attempt on the second chunk. *)
Definition breakdown : world :=
  mkWorld (fun _ => true) (fun _ => Some 40000%Z) (fun _ => Some 40%Q)
          (fun _ => true) (fun _ => true)
          (fun c a =>
             if (c =? 1)%Z then Recognized (utf8 "a")
             else if a =? 0 then UnknownValueError else OtherError)
          (fun _ => true) (fun _ => true).

(** [greeting], but the temporary file cannot be removed. *)
Definition sticky : world :=
  mkWorld (fun _ => true) (fun _ => Some 10000%Z) (fun _ => Some 10%Q)
          (fun _ => true) (fun _ => true)
          (fun _ _ => Recognized (utf8 "hi"))
          (fun _ => true) (fun _ => false).

End PipelineMore.

(** ** The local backends ([transcribe_with_whisper],
       [transcribe_with_vosk]) and their callers in transcribe_manager.py *)

Module Local.

(** A call returns, or raises an exception [e]; [message] is [str(e)]. *)
Inductive attempt (A : Type) :=
| Done (a : A)
| Failed (message : str).
Arguments Failed {A}.

(** The text files of a run, named after the audio file handed in. *)
Inductive text_file :=
| RawText (b : backend) (audio_path : path)
    (* output/<stem>_whisper.txt, output/<stem>_vosk.txt *)
| FormattedText (b : backend) (audio_path : path).
    (* output/<stem>_whisper_formatted.txt, output/<stem>_vosk_formatted.txt *)

(** A WAV file as the loop of Vosk reads it. *)
Record wave := mkWave {
  (* one channel, two bytes a sample, no compression *)
  format_ok : bool;
  (* one entry for each non-empty block [readframes] returns: the text
     of [rec.Result()] when [AcceptWaveform] says that an utterance has
     ended, [None] when it does not *)
  blocks : list (option str);
  (* the text of [rec.FinalResult()] *)
  final : str
}.

Record world := mkWorld {
  (* check_whisper_dependencies() / check_vosk_dependencies() *)
  dependencies_ok : bool;
  (* os.path.exists(VOSK_MODEL_PATH) *)
  model_exists : bool;
  (* download_vosk_model() *)
  download_ok : bool;
  (* prepare_audio_for_whisper / prepare_audio_for_vosk: the path of the
     prepared audio, or None *)
  prepare : path -> option path;
  (* whisper.load_model(...) / Model(VOSK_MODEL_PATH) *)
  load_model : attempt unit;
  (* what pydub and the file system answer to the segmenter *)
  audio : Segmenter.io;
  (* model.transcribe(path, ...)["text"] *)
  transcribe : path -> attempt str;
  (* wave.open(path, "rb") and what is read from the file *)
  open_wave : path -> attempt wave;
  (* os.remove(path) *)
  remove : path -> attempt unit;
  (* open(file, 'w') and f.write *)
  write : text_file -> attempt unit;
  (* the import of the module of a backend succeeds (transcribe_manager) *)
  module_found : backend -> bool
}.

Inductive event :=
| Split (e : Segmenter.event)
| Transcribed (p : path)
| Removed (p : path)
| Wrote (f : text_file) (content : str).

Definition wrote (tr : list event) : list (text_file * str) :=
  flat_map (fun e => match e with Wrote f c => [(f, c)] | _ => [] end) tr.

Definition removed (tr : list event) : list path :=
  flat_map (fun e => match e with Removed p => [p] | _ => [] end) tr.

Definition transcribed (tr : list event) : list path :=
  flat_map (fun e => match e with Transcribed p => [p] | _ => [] end) tr.

Definition eqb_str (s t : str) : bool :=
  if list_eq_dec N.eq_dec s t then true else false.

Definition eqb_backend (a b : backend) : bool :=
  match a, b with
  | Whisper, Whisper | Vosk, Vosk => true
  | _, _ => false
  end.

(** [p == q] for two paths. *)
Fixpoint eqb_path (p q : path) : bool :=
  match p, q with
  | Given m, Given n => eqb_str m n
  | TempWav p', TempWav q' => eqb_path p' q'
  | ChunkWav p' c, ChunkWav q' d => eqb_path p' q' && (c =? d)%Z
  | SegmentWav a p' c, SegmentWav b q' d =>
      eqb_backend a b && eqb_path p' q' && (c =? d)%Z
  | OutputTxt p', OutputTxt q' => eqb_path p' q'
  | _, _ => false
  end.

(** How a part of the function body is left: on to the next statement, by
    an exception, or by a [return]. *)
Inductive flow :=
| Next (full_text : str)
| Raise (message : str)
| Return (value : str).

(** f"Ошибка распознавания: {str(e)}" *)
Definition recognition_error (message : str) : str :=
  utf8 "Ошибка распознавания: " ++ message.

(** The end of both functions: remove the prepared audio, write the text,
    return it. *)
Definition save_result (b : backend) (w : world) (audio_path prepared_audio : path)
    (full_text : str) : attempt str * list event :=
  let removal :=
    if negb (eqb_path prepared_audio audio_path) then
      match remove w prepared_audio with
      | Done _ => (Done tt, [Removed prepared_audio])
      | Failed m => (Failed m, [])
      end
    else (Done tt, []) in
  match removal with
  | (Failed m, tr) => (Failed m, tr)
  | (Done _, tr) =>
      let output_text_path := RawText b audio_path in
      match write w output_text_path with
      | Done _ => (Done full_text, tr ++ [Wrote output_text_path full_text])
      | Failed m => (Failed m, tr)
      end
  end.

End Local.

Module Whisper.

Import Local.

(** [for i, segment_path in enumerate(segments)] *)
Fixpoint transcribe_segments (w : world) (segments : list path)
    (full_text : str) : flow * list event :=
  match segments with
  | [] => (Next full_text, [])
  | segment_path :: segments' =>
      match transcribe w segment_path with
      | Failed m => (Raise m, [])
      | Done segment_text =>
          let (r, tr) :=
            transcribe_segments w segments'
                                (full_text ++ segment_text ++ [space]) in
          (r, Transcribed segment_path :: tr)
      end
  end.

Definition transcribe_whole (w : world) (prepared_audio : path)
    : flow * list event :=
  match transcribe w prepared_audio with
  | Failed m => (Raise m, [])
  | Done text => (Next text, [Transcribed prepared_audio])
  end.

(** From [full_text = ""] to the end of the [if use_segments]. *)
Definition recognize (w : world) (prepared_audio : path) (use_segments : bool)
    : flow * list event :=
  if use_segments then
    let (segments, split_tr) :=
      Segmenter.split_audio_for_whisper
        (audio w) prepared_audio Segmenter.whisper_segment_length_sec in
    let (r, tr) :=
      if 1 <? length segments then transcribe_segments w segments []
      else transcribe_whole w prepared_audio in
    (r, map Split split_tr ++ tr)
  else transcribe_whole w prepared_audio.

Definition transcribe_with_whisper (w : world) (audio_path : path)
    (use_segments : bool) : str * list event :=
  if negb (dependencies_ok w) then (utf8 "Ошибка: Whisper не установлен", [])
  else
    match prepare w audio_path with
    | None => (utf8 "Ошибка при подготовке аудио", [])
    | Some prepared_audio =>
        match load_model w with
        | Failed m => (recognition_error m, [])
        | Done _ =>
            match recognize w prepared_audio use_segments with
            | (Raise m, tr) => (recognition_error m, tr)
            | (Return value, tr) => (value, tr)
            | (Next full_text, tr) =>
                match save_result Whisper w audio_path prepared_audio
                                  full_text with
                | (Failed m, tr') => (recognition_error m, tr ++ tr')
                | (Done text, tr') => (text, tr ++ tr')
                end
            end
        end
    end.

End Whisper.

Module Vosk.

Import Local.

(** The [while True] loop over the blocks of a file, and the final result
    after it, appended to [text]. *)
Definition read_wave (wv : wave) (text : str) : str :=
  fold_left
    (fun text block =>
       match block with
       | Some part => text ++ part ++ [space]
       | None => text
       end)
    (blocks wv) text
  ++ final wv.

(** [for i, segment_path in enumerate(segments)]; a segment of the wrong
    format is left by [continue]. *)
Fixpoint transcribe_segments (w : world) (segments : list path)
    (full_text : str) : flow * list event :=
  match segments with
  | [] => (Next full_text, [])
  | segment_path :: segments' =>
      match open_wave w segment_path with
      | Failed m => (Raise m, [])
      | Done wf =>
          if negb (format_ok wf) then transcribe_segments w segments' full_text
          else
            let segment_text := read_wave wf [] in
            let (r, tr) :=
              transcribe_segments w segments'
                                  (full_text ++ segment_text ++ [space]) in
            (r, Transcribed segment_path :: tr)
      end
  end.

Definition transcribe_whole (w : world) (prepared_audio : path)
    : flow * list event :=
  match open_wave w prepared_audio with
  | Failed m => (Raise m, [])
  | Done wf =>
      if negb (format_ok wf)
      then (Return (utf8 "Ошибка: Некорректный формат аудио"), [])
      else (Next (read_wave wf []), [Transcribed prepared_audio])
  end.

Definition recognize (w : world) (prepared_audio : path) (use_segments : bool)
    : flow * list event :=
  if use_segments then
    let (segments, split_tr) :=
      Segmenter.split_audio_for_vosk
        (audio w) prepared_audio Segmenter.vosk_segment_length_sec in
    let (r, tr) :=
      if 1 <? length segments then transcribe_segments w segments []
      else transcribe_whole w prepared_audio in
    (r, map Split split_tr ++ tr)
  else transcribe_whole w prepared_audio.

Definition transcribe_with_vosk (w : world) (audio_path : path)
    (use_segments : bool) : str * list event :=
  if negb (dependencies_ok w)
  then (utf8 "Ошибка: Vosk не установлен или модель не найдена", [])
  else if negb (model_exists w) && negb (download_ok w)
  then (utf8 "Ошибка: Не удалось найти или скачать модель Vosk", [])
  else
    match prepare w audio_path with
    | None => (utf8 "Ошибка при подготовке аудио", [])
    | Some prepared_audio =>
        match load_model w with
        | Failed m => (recognition_error m, [])
        | Done _ =>
            match recognize w prepared_audio use_segments with
            | (Raise m, tr) => (recognition_error m, tr)
            | (Return value, tr) => (value, tr)
            | (Next full_text, tr) =>
                match save_result Vosk w audio_path prepared_audio
                                  full_text with
                | (Failed m, tr') => (recognition_error m, tr ++ tr')
                | (Done text, tr') => (text, tr ++ tr')
                end
            end
        end
    end.

End Vosk.

Module Manager.

Import Local.

(** [check_whisper_dependencies] and [check_vosk_dependencies] are called
    by the backends before their [try], and catch [ImportError] only: an
    exception of another class raised while the library is imported
    leaves the backend and is caught by the wrapper.  [import_error] is
    the message of that exception, [None] when the check returns; the
    functions of [Whisper] and [Vosk] describe the calls in which it
    returns. *)
Definition call_backend (import_error : option str)
    (backend_result : str * list event) : attempt str * list event :=
  match import_error with
  | Some message => (Failed message, [])
  | None => (Done (fst backend_result), snd backend_result)
  end.

(** The wrappers of transcribe_manager.py call the backends with their
    default arguments, format what they return and write it; every
    exception after the module has been loaded gives [False]. *)
Definition wrap (b : backend) (w : world) (import_error : option str)
    (audio_path : path) (missing failure : str)
    (backend_result : str * list event)
    (format : str -> str) : (bool * str) * list event :=
  if negb (module_found w b) then ((false, missing), [])
  else
    match call_backend import_error backend_result with
    | (Failed m, tr) => ((false, failure ++ m), tr)
    | (Done result_text, tr) =>
        let formatted_text := format result_text in
        let output_path := FormattedText b audio_path in
        match write w output_path with
        | Failed m => ((false, failure ++ m), tr)
        | Done _ =>
            ((true, result_text), tr ++ [Wrote output_path formatted_text])
        end
    end.

Definition transcribe_with_whisper (w : world) (import_error : option str)
    (audio_path : path) : (bool * str) * list event :=
  wrap Whisper w import_error audio_path
       (utf8 "Ошибка: Модуль Whisper не найден") (utf8 "Ошибка Whisper: ")
       (Whisper.transcribe_with_whisper w audio_path true)
       format_whisper_result.

Definition transcribe_with_vosk (w : world) (import_error : option str)
    (audio_path : path) : (bool * str) * list event :=
  wrap Vosk w import_error audio_path
       (utf8 "Ошибка: Модуль Vosk не найден") (utf8 "Ошибка Vosk: ")
       (Vosk.transcribe_with_vosk w audio_path true)
       format_vosk_result.

(** Why a wrapper answers [True]: the module of the backend was loaded,
    the dependency check of the backend returned, and the formatted file
    was written. *)
Definition went_through (b : backend) (w : world)
    (import_error : option str) (audio_path : path) : Prop :=
  module_found w b = true /\ import_error = None /\
  write w (FormattedText b audio_path) = Done tt.

End Manager.

(** ** Worlds for the local backends *)

Module LocalWorlds.

Import Local.

(** 25 minutes of audio, prepared under another name; every segment is
    heard as its own ordinal's letter. *)
Definition lecture : world :=
  mkWorld true true true
    (fun p => Some (TempWav p))
    (Done tt)
    (Segmenter.healthy 1500000)
    (fun p =>
       match p with
       | SegmentWav _ _ 1 => Done (utf8 "a")
       | SegmentWav _ _ 2 => Done (utf8 "b")
       | _ => Done (utf8 "c")
       end)
    (fun p =>
       match p with
       | SegmentWav _ _ 2 => Done (mkWave false [] (utf8 "lost"))
       | SegmentWav _ _ _ =>
           Done (mkWave true [Some (utf8 "a"); None; Some (utf8 "b")]
                        (utf8 "c"))
       | _ => Done (mkWave false [] [])
       end)
    (fun _ => Done tt)
    (fun _ => Done tt)
    (fun _ => true).

(** The same, with the backend not installed. *)
Definition bare : world :=
  mkWorld false true true
    (fun p => Some (TempWav p)) (Done tt) (Segmenter.healthy 1500000)
    (fun _ => Done (utf8 "c"))
    (fun _ => Done (mkWave true [] []))
    (fun _ => Done tt) (fun _ => Done tt) (fun _ => true).

(** [lecture], but the second segment cannot be transcribed, and its WAV
    file cannot be opened. *)
Definition stutter : world :=
  mkWorld true true true
    (fun p => Some (TempWav p)) (Done tt) (Segmenter.healthy 1500000)
    (fun p =>
       match p with
       | SegmentWav _ _ 2 => Failed (utf8 "out of memory")
       | _ => Done (utf8 "a")
       end)
    (fun p =>
       match p with
       | SegmentWav _ _ 2 => Failed (utf8 "not a WAV file")
       | _ => Done (mkWave true [] (utf8 "a"))
       end)
    (fun _ => Done tt) (fun _ => Done tt) (fun _ => true).

(** A short audio whose prepared file has the wrong format. *)
Definition stereo : world :=
  mkWorld true true true
    (fun p => Some (TempWav p)) (Done tt) (Segmenter.healthy 60000)
    (fun _ => Done (utf8 "a"))
    (fun _ => Done (mkWave false [] (utf8 "a")))
    (fun _ => Done tt) (fun _ => Done tt) (fun _ => true).

End LocalWorlds.

(** ** What a local backend may do to the files *)

Module LocalSpec.

Import Local.

(** The text file is written at most once, and holds what is returned;
    the one file that may be removed is the prepared audio, and it has
    been removed when the text file is written. *)
Definition files_ok (b : backend) (w : world) (audio_path : path)
    (text : str) (tr : list event) : Prop :=
  (wrote tr = [] \/ wrote tr = [(RawText b audio_path, text)]) /\
  (removed tr = [] \/
   exists prepared_audio,
     prepare w audio_path = Some prepared_audio /\
     eqb_path prepared_audio audio_path = false /\
     removed tr = [prepared_audio]) /\
  (wrote tr <> [] ->
   forall prepared_audio,
     prepare w audio_path = Some prepared_audio ->
     eqb_path prepared_audio audio_path = false ->
     removed tr = [prepared_audio]).

(** The text a block of a WAV file adds. *)
Definition block_text (block : option str) : str :=
  match block with
  | Some part => part ++ [space]
  | None => []
  end.

(** The text a segment adds to the text of Vosk: nothing when its format
    is refused. *)
Definition heard (wv : path -> wave) (s : path) : str :=
  if format_ok (wv s) then Vosk.read_wave (wv s) [] ++ [space] else [].

End LocalSpec.

(** ** youtube_downloader.py: [sanitize_filename] *)

Module Youtube.

(** [invalid_chars]: < > : the double quote / \ | ? and the asterisk. *)
Definition invalid_chars : str :=
  utf8 "<>:" ++ [34%N] ++ utf8 "/\|?*".

Definition underscore : N := 95%N.

(** [s.replace(old, new)] for two strings of one character. *)
Definition replace (old new : N) (s : str) : str :=
  map (fun c => if N.eqb c old then new else c) s.

Definition sanitize_filename (filename : str) : str :=
  fold_left (fun filename char => replace char underscore filename)
            invalid_chars filename.

Definition invalid (c : N) : bool := existsb (N.eqb c) invalid_chars.

End Youtube.

Import Formatter.

(** * Facts about Python strings *)

Section StrFacts.

Lemma split_cons (c : char) (s : str) :
  split (c :: s) =
  if isspace c then split s
  else match s with
       | [] => [[c]]
       | d :: _ =>
           if isspace d then [c] :: split s
           else match split s with
                | w :: ws => (c :: w) :: ws
                | [] => [[c]]
                end
       end.
Proof. reflexivity. Qed.

Lemma split_words_ok (s : str) : Forall word_ok (split s).
Proof.
  induction s as [|c s IH]; [constructor|].
  rewrite split_cons.
  destruct (isspace c) eqn:Hc; [exact IH|].
  assert (Hone : word_ok [c]) by (split; [discriminate | auto]).
  destruct s as [|d s]; [auto|].
  destruct (isspace d) eqn:Hd; [auto|].
  destruct (split (d :: s)) as [|w ws]; [auto|].
  inversion IH as [|? ? [_ Hw] Hws]; subst.
  constructor; [split; [discriminate | auto] | assumption].
Qed.

Lemma split_word_app (w rest : str) :
  word_ok w -> at_boundary rest -> split (w ++ rest) = w :: split rest.
Proof.
  intros [Hne Hw]. revert Hne.
  induction Hw as [|c w Hc Hw IH]; intros Hne Hrest; [now elim Hne|].
  change ((c :: w) ++ rest) with (c :: (w ++ rest)).
  rewrite split_cons, Hc.
  destruct w as [|d w].
  - cbn [app]. destruct rest as [|r rest]; [reflexivity|].
    cbn in Hrest. rewrite Hrest. reflexivity.
  - change ((d :: w) ++ rest) with (d :: (w ++ rest)) in *.
    inversion Hw as [|? ? Hd _]; subst.
    rewrite Hd, IH; [reflexivity | discriminate | assumption].
Qed.

Lemma isspace_space : isspace space = true.
Proof. reflexivity. Qed.

Lemma isspace_newline : isspace newline = true.
Proof. reflexivity. Qed.

Lemma join_cons2 (sep x y : str) (l : list str) :
  join sep (x :: y :: l) = x ++ sep ++ join sep (y :: l).
Proof. reflexivity. Qed.

(** [split] undoes [' '.join] on words. *)
Lemma split_join (ws : list str) :
  Forall word_ok ws -> split (join [space] ws) = ws.
Proof.
  induction 1 as [|w ws Hw Hws IH]; [reflexivity|].
  destruct ws as [|w' ws].
  - cbn [join]. rewrite <- (app_nil_r w) at 1.
    rewrite split_word_app; [reflexivity | assumption | exact I].
  - rewrite join_cons2, split_word_app; [|assumption|exact isspace_space].
    cbn [app]. rewrite split_cons, isspace_space, IH. reflexivity.
Qed.

Lemma split_collapse (text : str) : split (collapse text) = split text.
Proof. apply split_join, split_words_ok. Qed.

Lemma collapse_idempotent (text : str) :
  collapse (collapse text) = collapse text.
Proof. unfold collapse at 1. rewrite split_collapse. reflexivity. Qed.

Lemma join_snoc (sep : str) (l : list str) (x : str) :
  l <> [] -> join sep (l ++ [x]) = join sep l ++ sep ++ x.
Proof.
  induction l as [|a l IH]; [intros H; now elim H|]. intros _.
  destruct l as [|b l]; [reflexivity|].
  change ((a :: b :: l) ++ [x]) with (a :: b :: (l ++ [x])).
  rewrite !join_cons2.
  change (b :: l ++ [x]) with ((b :: l) ++ [x]).
  rewrite IH by discriminate. now rewrite <- !app_assoc.
Qed.

Lemma split_on_cons (sep c : char) (s : str) :
  split_on sep (c :: s) =
  if (c =? sep)%N then [] :: split_on sep s
  else match split_on sep s with
       | w :: ws => (c :: w) :: ws
       | [] => [[c]]
       end.
Proof. reflexivity. Qed.

Lemma split_on_app (sep : char) (l rest : str) :
  ~ In sep l ->
  split_on sep (l ++ sep :: rest) = l :: split_on sep rest.
Proof.
  induction l as [|c l IH]; intros Hl.
  - cbn [app]. rewrite split_on_cons, N.eqb_refl. reflexivity.
  - change ((c :: l) ++ sep :: rest) with (c :: (l ++ sep :: rest)).
    rewrite split_on_cons, IH by (intros H; apply Hl; now right).
    destruct (N.eqb_spec c sep) as [->|_]; [|reflexivity].
    exfalso. apply Hl. now left.
Qed.

Lemma split_on_single (sep : char) (l : str) :
  ~ In sep l -> split_on sep l = [l].
Proof.
  induction l as [|c l IH]; intros Hl; [reflexivity|].
  rewrite split_on_cons, IH by (intros H; apply Hl; now right).
  destruct (N.eqb_spec c sep) as [->|_]; [|reflexivity].
  exfalso. apply Hl. now left.
Qed.

(** [split_on] undoes [join] when no part holds the separator. *)
Lemma split_on_join (sep : char) (parts : list str) :
  parts <> [] -> Forall (fun l => ~ In sep l) parts ->
  split_on sep (join [sep] parts) = parts.
Proof.
  intros Hne H. induction H as [|l parts Hl Hparts IH]; [now elim Hne|].
  destruct parts as [|l' parts].
  - now apply split_on_single.
  - rewrite join_cons2. cbn [app].
    rewrite split_on_app, IH by (assumption || discriminate). reflexivity.
Qed.

Lemma length_join_snoc (l : list str) (x : str) :
  l <> [] ->
  length (join [space] (l ++ [x])) = length (join [space] l) + 1 + length x.
Proof.
  intros H. rewrite join_snoc by assumption.
  rewrite !length_app. cbn [length]. lia.
Qed.

End StrFacts.

(** * The packing loop *)

Section PackingFacts.

Variable max_line_length : nat.
Variable paragraph_lines : nat.
Hypothesis cap_pos : 1 <= paragraph_lines.

Local Abbreviation lstep := (layout_step max_line_length paragraph_lines).
Local Abbreviation current_ok := (Formatter.current_ok max_line_length).
Local Abbreviation invariant :=
  (Formatter.invariant max_line_length paragraph_lines).
Local Abbreviation layout_spec :=
  (Formatter.layout_spec max_line_length paragraph_lines).

Lemma Forall_removelast {A} (P : A -> Prop) (l : list A) :
  Forall P l -> Forall P (removelast l).
Proof.
  induction 1 as [|x l Hx Hl IH]; [constructor|].
  destruct l; [constructor|].
  change (removelast (x :: a :: l)) with (x :: removelast (a :: l)).
  now constructor.
Qed.

Lemma truthy_map {A B} (f : A -> B) (l : list A) :
  truthy (map f l) = truthy l.
Proof. now destruct l. Qed.

Lemma truthy_true {A} (l : list A) : truthy l = true <-> l <> [].
Proof. destruct l; cbn; split; congruence. Qed.

Lemma flush_erase (g : layout_state) :
  (if truthy (current_line (erase g))
   then current_paragraph (erase g) ++ [join [space] (current_line (erase g))]
   else current_paragraph (erase g))
  = map render_line (flush_line g).
Proof.
  unfold flush_line. cbn [erase current_line current_paragraph].
  destruct (truthy (l_line g)); [|reflexivity].
  now rewrite map_app.
Qed.

Lemma step_erase (g : layout_state) (word : str) :
  step max_line_length paragraph_lines (erase g) word = erase (lstep g word).
Proof.
  unfold step, layout_step. rewrite flush_erase.
  cbn [erase current_length current_line paragraphs current_paragraph].
  destruct (_ <=? max_line_length); [reflexivity|].
  rewrite length_map.
  destruct (paragraph_lines <=? _); unfold erase; cbn; [|reflexivity].
  now rewrite map_app.
Qed.

Lemma fold_erase (words : list str) (g : layout_state) :
  fold_left (step max_line_length paragraph_lines) words (erase g)
  = erase (fold_left lstep words g).
Proof.
  revert g. induction words as [|w words IH]; intros g; [reflexivity|].
  cbn [fold_left]. now rewrite step_erase, IH.
Qed.

(** The source computes the rendering of the layout. *)
Lemma pack_layout (words : list str) :
  pack max_line_length paragraph_lines words
  = map render_paragraph (layout max_line_length paragraph_lines words).
Proof.
  unfold pack, layout.
  change initial with (erase (mkLayout [] 0 [] [])).
  rewrite fold_erase.
  set (g := fold_left _ _ _).
  unfold finish, layout_finish. rewrite flush_erase, truthy_map.
  cbn [erase paragraphs].
  destruct (truthy (flush_line g)); [|reflexivity].
  now rewrite map_app.
Qed.

Lemma invariant_initial : invariant (mkLayout [] 0 [] []) [].
Proof.
  constructor; cbn; auto.
  left. cbn. auto.
Qed.

Lemma current_line_ok (g : layout_state) :
  current_ok g -> l_line g <> [] -> line_ok max_line_length (l_line g).
Proof.
  intros [[H _]|(Hne & Hlen & Hfit)] Hne'; [contradiction|].
  split; [assumption|].
  destruct Hfit as [Hfit|(w & Hw & Hl)]; [left; lia|].
  rewrite Hw in *. cbn [render_line join] in *.
  destruct (le_lt_dec (length w) max_line_length); [now left|].
  right. now exists w.
Qed.

Lemma flush_words (g : layout_state) :
  concat (flush_line g) = concat (l_paragraph g) ++ l_line g.
Proof.
  unfold flush_line. destruct (l_line g) as [|w l] eqn:E; cbn [truthy].
  - now rewrite app_nil_r.
  - rewrite concat_app. cbn [concat]. now rewrite app_nil_r.
Qed.

Lemma flush_ok (g : layout_state) (done : list str) :
  invariant g done -> Forall (line_ok max_line_length) (flush_line g).
Proof.
  intros I. unfold flush_line.
  destruct (truthy (l_line g)) eqn:E; [|apply I].
  apply Forall_app. split; [apply I|].
  constructor; [|constructor].
  apply current_line_ok; [apply I | now apply truthy_true].
Qed.

Lemma flush_length (g : layout_state) (done : list str) :
  invariant g done -> length (flush_line g) <= paragraph_lines.
Proof.
  intros I. pose proof (inv_room I). unfold flush_line.
  destruct (truthy (l_line g)); [|lia].
  rewrite length_app. cbn [length]. lia.
Qed.

Lemma invariant_step (g : layout_state) (done : list str) (word : str) :
  invariant g done -> invariant (lstep g word) (done ++ [word]).
Proof.
  intros I. unfold layout_step.
  destruct (Nat.leb_spec (l_length g + length word + 1) max_line_length)
    as [Hfit|Hwide].
  - (* the word joins the current line *)
    constructor; cbn [l_line l_length l_paragraphs l_paragraph];
      try apply I.
    + rewrite !app_assoc. f_equal. rewrite <- app_assoc. apply I.
    + unfold current_ok. cbn [l_line l_length].
      right. split; [now destruct (l_line g)|]. split; [|now left].
      destruct (inv_current I) as [[Hl Hz]|(Hne & Hlen & _)].
      * rewrite Hl. cbn. lia.
      * unfold render_line in *. rewrite length_join_snoc by assumption. lia.
  - (* the word opens a new line *)
    assert (Hcur : current_ok (mkLayout [word] (length word) [] [])).
    { right. cbn. split; [discriminate|]. split; [lia|].
      right. now exists word. }
    destruct (Nat.leb_spec paragraph_lines (length (flush_line g)))
      as [Hcap|Hroom].
    + constructor; cbn [l_line l_length l_paragraphs l_paragraph].
      * rewrite !concat_app. cbn [concat]. rewrite !app_nil_r.
        rewrite flush_words, <- !app_assoc.
        rewrite <- (inv_words I). now rewrite <- !app_assoc.
      * apply Forall_app. split; [apply I|].
        constructor; [now apply flush_ok with done | constructor].
      * constructor.
      * exact Hcur.
      * apply Forall_app. split; [apply I|].
        constructor; [|constructor].
        pose proof (flush_length I). lia.
      * cbn. lia.
    + constructor; cbn [l_line l_length l_paragraphs l_paragraph];
        try apply I.
      * rewrite flush_words, <- (inv_words I). now rewrite <- !app_assoc.
      * now apply flush_ok with done.
      * exact Hcur.
      * exact Hroom.
Qed.

Lemma invariant_fold (words : list str) (g : layout_state) (done : list str) :
  invariant g done ->
  invariant (fold_left lstep words g) (done ++ words).
Proof.
  revert g done. induction words as [|w words IH]; intros g done I.
  - now rewrite app_nil_r.
  - cbn [fold_left]. change (w :: words) with ([w] ++ words).
    rewrite app_assoc. apply IH. now apply invariant_step.
Qed.

Lemma layout_correct (words : list str) :
  layout_spec words (layout max_line_length paragraph_lines words).
Proof.
  unfold layout.
  pose proof (invariant_fold words invariant_initial) as I.
  cbn [app] in I. set (g := fold_left _ _ _) in *.
  assert (Hall : Forall (fun p => 1 <= length p <= paragraph_lines)
                        (l_paragraphs g)).
  { eapply Forall_impl; [|apply (inv_full I)]. cbn. intros; lia. }
  unfold layout_finish.
  destruct (truthy (flush_line g)) eqn:E.
  - constructor.
    + rewrite !concat_app. cbn [concat]. rewrite !app_nil_r.
      rewrite flush_words. apply I.
    + apply Forall_app. split; [apply I|].
      constructor; [now apply flush_ok with words | constructor].
    + rewrite removelast_last. apply I.
    + apply Forall_app. split; [exact Hall|].
      constructor; [|constructor].
      pose proof (flush_length I).
      destruct (flush_line g); [discriminate|]. cbn [length] in *. lia.
  - constructor.
    + pose proof (flush_words g) as Hw.
      destruct (flush_line g); [|discriminate]. cbn [concat] in Hw.
      rewrite <- (inv_words I), <- Hw. now rewrite app_nil_r.
    + apply I.
    + apply Forall_removelast, I.
    + exact Hall.
Qed.

End PackingFacts.

(** * From the layout to the text of the body *)

Section BodyFacts.

Lemma word_no_newline (w : str) : word_ok w -> ~ In newline w.
Proof.
  intros [_ Hw] Hin.
  rewrite Forall_forall in Hw. apply Hw in Hin.
  rewrite isspace_newline in Hin. discriminate.
Qed.

Lemma line_no_newline (line : list str) :
  Forall word_ok line -> ~ In newline (render_line line).
Proof.
  unfold render_line.
  induction 1 as [|w line Hw Hline IH]; [intros []|].
  destruct line as [|w' line].
  - now apply word_no_newline.
  - rewrite join_cons2. intros Hin.
    apply in_app_or in Hin. destruct Hin as [Hin|Hin].
    + now apply (word_no_newline Hw).
    + cbn [app] in Hin. destruct Hin as [Hin|Hin]; [discriminate|].
      now apply IH.
Qed.

Lemma split_render_line (line : list str) :
  Forall word_ok line -> split (render_line line) = line.
Proof. apply split_join. Qed.

Lemma lines_of_paragraph (p : list (list str)) :
  p <> [] -> Forall (Forall word_ok) p ->
  split_on newline (render_paragraph p) = map render_line p.
Proof.
  intros Hne Hp. unfold render_paragraph.
  apply split_on_join.
  - now destruct p.
  - apply Forall_map. eapply Forall_impl; [|exact Hp].
    intros line. apply line_no_newline.
Qed.

Lemma body_lines_layout (pars : list (list (list str))) :
  Forall (fun p => p <> []) pars ->
  Forall (Forall (Forall word_ok)) pars ->
  body_lines (map render_paragraph pars) = map render_line (concat pars).
Proof.
  unfold body_lines.
  induction 1 as [|p pars Hp Hpars IH]; intros Hw; [reflexivity|].
  inversion Hw as [|? ? Hwp Hwpars]; subst.
  cbn [map concat]. rewrite map_app, IH by assumption.
  now rewrite lines_of_paragraph.
Qed.

Lemma removelast_map {A B} (f : A -> B) (l : list A) :
  removelast (map f l) = map f (removelast l).
Proof.
  induction l as [|a l IH]; [reflexivity|].
  destruct l as [|b l]; [reflexivity|].
  change (removelast (map f (a :: b :: l)))
    with (f a :: removelast (map f (b :: l))).
  now rewrite IH.
Qed.

Lemma map_id_on {A} (f : A -> A) (l : list A) :
  Forall (fun x => f x = x) l -> map f l = l.
Proof. induction 1 as [|x l Hx Hl IH]; cbn; congruence. Qed.

(** The source's paragraphs are well packed. *)
Lemma pack_well_packed (max_line_length paragraph_lines : nat)
    (words : list str) :
  1 <= paragraph_lines -> Forall word_ok words ->
  well_packed max_line_length paragraph_lines words
              (pack max_line_length paragraph_lines words).
Proof.
  intros Hcap Hwords. rewrite pack_layout.
  destruct (layout_correct max_line_length Hcap words)
    as [Hw Hlines Hfull Hlast].
  set (pars := layout max_line_length paragraph_lines words) in *.
  assert (Hne : Forall (fun p : list (list str) => p <> []) pars).
  { eapply Forall_impl; [|exact Hlast]. intros [|l p] H; cbn in H; [lia|].
    discriminate. }
  assert (Hok : Forall (Forall (Forall word_ok)) pars).
  { rewrite <- Hw in Hwords. now rewrite !Forall_concat in Hwords. }
  assert (Hcount : Forall (fun p => length (split_on newline
                                (render_paragraph p)) = length p) pars).
  { rewrite Forall_forall in Hne, Hok. apply Forall_forall. intros p Hp.
    rewrite lines_of_paragraph by auto. apply length_map. }
  unfold well_packed. rewrite body_lines_layout by assumption.
  repeat split.
  - rewrite map_map, map_id_on; [exact Hw|].
    apply Forall_concat. eapply Forall_impl; [|exact Hok].
    intros p. apply Forall_impl. intros line. apply split_render_line.
  - apply Forall_map, Forall_concat.
    rewrite Forall_forall in Hlines |- *. intros p Hp.
    specialize (Hlines p Hp). rewrite Forall_forall in Hlines |- *.
    intros line Hline. destruct (Hlines line Hline) as [_ [Hfit|(w & -> & Hwide)]].
    + now left.
    + right. cbn [render_line join]. split; [|assumption].
      rewrite <- Hw. apply in_concat. exists [w]. split; [|now left].
      apply in_concat. now exists p.
  - rewrite removelast_map. apply Forall_map.
    pose proof (Forall_removelast Hcount) as Hc.
    rewrite Forall_forall in Hfull, Hc |- *. intros p Hp.
    rewrite (Hc p Hp). now apply Hfull.
  - apply Forall_map.
    rewrite Forall_forall in Hlast, Hcount |- *. intros p Hp.
    rewrite (Hcount p Hp). now apply Hlast.
Qed.

End BodyFacts.

(** * The formatter *)

Section FormatterTheorems.

Lemma count_lines_body (ps : list str) :
  count_lines ps = length (body_lines ps).
Proof.
  unfold count_lines, body_lines.
  induction ps as [|p ps IH]; [reflexivity|].
  cbn [fold_right map concat]. now rewrite length_app, IH.
Qed.

Lemma text_paragraphs_eq (text : str) :
  text_paragraphs text = pack 120 5 (split text).
Proof. unfold text_paragraphs. now rewrite split_collapse. Qed.

Lemma local_paragraphs_eq (text : str) :
  local_paragraphs text = pack 80 4 (split text).
Proof. unfold local_paragraphs. now rewrite split_collapse. Qed.

(** C4 (as amended).  In the three formatters the body, cut at its line
    breaks and then at whitespace, gives back the words of the input in
    order, so that no word is split, dropped or moved; a body line is
    wider than the maximum (120 in main.py, 80 in the local backends) only
    if it is a single word that is itself wider; every paragraph but the
    last has exactly the cap of lines (5, respectively 4), and the last
    one has at least one line and at most the cap.  The body stands in
    the document between the header and the statistics. *)
Theorem formatter_packing (text : str) :
  well_packed 120 5 (split text) (text_paragraphs text) /\
  well_packed 80 4 (split text) (local_paragraphs text) /\
  (exists statistics,
     format_text text =
     (utf8 "ТРАНСКРИПЦИЯ АУДИО" ++ [newline])
       ++ join blank_line (text_paragraphs text) ++ statistics) /\
  (exists statistics,
     format_whisper_result text =
     (utf8 "ТРАНСКРИПЦИЯ АУДИО (WHISPER)" ++ blank_line)
       ++ join blank_line (local_paragraphs text) ++ statistics) /\
  (exists statistics,
     format_vosk_result text =
     (utf8 "ТРАНСКРИПЦИЯ АУДИО (VOSK)" ++ blank_line)
       ++ join blank_line (local_paragraphs text) ++ statistics).
Proof.
  rewrite text_paragraphs_eq, local_paragraphs_eq.
  split; [|split; [|split; [|split]]].
  - apply pack_well_packed; [lia | apply split_words_ok].
  - apply pack_well_packed; [lia | apply split_words_ok].
  - eexists. unfold format_text. rewrite split_collapse.
    rewrite <- !app_assoc. reflexivity.
  - eexists. unfold format_whisper_result, format_local.
    rewrite split_collapse. rewrite <- !app_assoc. reflexivity.
  - eexists. unfold format_vosk_result, format_local.
    rewrite split_collapse. rewrite <- !app_assoc. reflexivity.
Qed.

(** C4, as stated, fails: a word of 81 characters makes a body line of
    81 characters in the formatter of the local backends, whose maximum
    is 80. *)
Lemma long_word_exceeds_width :
  ~ (forall text, within_width 80 (local_paragraphs text)).
Proof.
  intros H. specialize (H (repeat 97%N 81)).
  unfold within_width in H.
  replace (body_lines (local_paragraphs (repeat 97%N 81)))
    with [repeat 97%N 81] in H by (vm_compute; reflexivity).
  inversion H as [|? ? Hlen _]; subst.
  cbn in Hlen. lia.
Qed.

(** C7 (as amended).  [format_text] ends with four counts: the number of
    lines and of paragraphs of the re-flowed body, and the number of words
    and of characters of the whitespace-collapsed text (the words being
    those of the input).  The formatters of the local backends end with a
    block of two counts, words and characters of the collapsed text. *)
Theorem statistics_blocks (text : str) :
  format_text text =
    utf8 "ТРАНСКРИПЦИЯ АУДИО" ++ [newline]
    ++ join blank_line (text_paragraphs text)
    ++ utf8 "Количество строк: "
    ++ str_of_nat (length (body_lines (text_paragraphs text))) ++ [newline]
    ++ utf8 "Количество слов: "
    ++ str_of_nat (length (split text)) ++ [newline]
    ++ utf8 "Количество символов: "
    ++ str_of_nat (length (collapse text)) ++ [newline]
    ++ utf8 "Количество параграфов: "
    ++ str_of_nat (length (text_paragraphs text)) ++ [newline]
  /\
  forall header,
    format_local header text =
      header ++ blank_line
      ++ join blank_line (local_paragraphs text)
      ++ blank_line ++ utf8 "Статистика:" ++ [newline]
      ++ utf8 "Количество слов: "
      ++ str_of_nat (length (split text)) ++ [newline]
      ++ utf8 "Количество символов: "
      ++ str_of_nat (length (collapse text)) ++ [newline].
Proof.
  split; [|intros header].
  - unfold format_text. fold (text_paragraphs text).
    rewrite count_lines_body, split_collapse.
    rewrite <- !app_assoc. reflexivity.
  - unfold format_local. fold (local_paragraphs text).
    rewrite split_collapse. rewrite <- !app_assoc. reflexivity.
Qed.

(** C7, as stated, fails: the document of the Whisper formatter does not
    report the four counts (it has neither a line count nor a paragraph
    count). *)
Lemma whisper_reports_two_counts :
  ~ (forall text, reports_four_counts (format_whisper_result text) = true).
Proof.
  intros H. specialize (H (utf8 "a b")).
  vm_compute in H. discriminate.
Qed.

(** The line count of [format_text] is taken from the re-flowed body: two
    words of 100 characters are one line before the re-flow and two
    after it, and the document says two. *)
Example line_count_of_reflow :
  let text := repeat 97%N 100 ++ [space] ++ repeat 97%N 100 in
  collapse text = text /\
  length (split_on newline (collapse text)) = 1 /\
  contains (format_text text) (utf8 "Количество строк: 2") = true.
Proof. vm_compute. repeat split. Qed.

(** C8.  Formatting the whitespace-collapsed text gives the same document
    each time it is done, and that document is the one the formatter
    gives for the text itself: the output depends on the collapsed text
    only. *)
Theorem format_collapsed_same (text : str) :
  let source := collapse text in
  format_text source = format_text source /\
  format_whisper_result source = format_whisper_result source /\
  format_vosk_result source = format_vosk_result source /\
  format_text source = format_text text /\
  format_whisper_result source = format_whisper_result text /\
  format_vosk_result source = format_vosk_result text.
Proof.
  cbv zeta. repeat split.
  - unfold format_text. now rewrite collapse_idempotent.
  - unfold format_whisper_result, format_local.
    now rewrite collapse_idempotent.
  - unfold format_vosk_result, format_local.
    now rewrite collapse_idempotent.
Qed.

End FormatterTheorems.

(** * The segmenter of the local backends *)

Section SegmenterFacts.

Import Segmenter.
Open Scope Z_scope.

Variable b : backend.
Variable w : io.
Variable audio_path : path.
Variable segment_length_sec : Z.

Lemma short_audio (len_audio : Z) :
  Qle_bool (inject_Z len_audio / 1000)%Q (inject_Z segment_length_sec)
  = (len_audio <=? segment_length_sec * 1000).
Proof.
  unfold Qle_bool, Qdiv, Qmult, Qinv, inject_Z. cbn.
  apply eq_true_iff_eq. rewrite !Z.leb_le. lia.
Qed.

Lemma py_int_div (len_audio : Z) :
  0 <= len_audio -> 0 < segment_length_sec ->
  py_int (inject_Z len_audio / 1000 / inject_Z segment_length_sec)%Q
  = len_audio / (segment_length_sec * 1000).
Proof.
  intros Hlen HL.
  destruct segment_length_sec as [|L|L]; try lia.
  change (py_int (inject_Z len_audio / 1000 / inject_Z (Z.pos L)))
    with ((len_audio * 1 * 1) ÷ Z.pos (1 * 1000 * L)).
  rewrite Z.quot_div_nonneg by lia.
  f_equal; lia.
Qed.

(** When every export succeeds the loop writes one file per pass. *)
Lemma export_loop_ok (len_audio : Z) (range : list nat) (segments : list path) :
  (forall i, In i range ->
     export w (segment_file b audio_path i)
            (fst (window segment_length_sec len_audio i))
            (snd (window segment_length_sec len_audio i)) = true) ->
  export_loop b w audio_path segment_length_sec len_audio range segments
  = (Returned (segments ++ map (segment_file b audio_path) range),
     map (exported b audio_path segment_length_sec len_audio) range).
Proof.
  revert segments. induction range as [|i range IH]; intros segments Hok.
  - cbn. now rewrite app_nil_r.
  - cbn [export_loop].
    pose proof (Hok i (or_introl eq_refl)) as Hi.
    unfold segment_file, window in Hi. cbn [fst snd] in Hi. rewrite Hi.
    rewrite IH by (intros j Hj; apply Hok; now right).
    cbn [map]. now rewrite <- app_assoc.
Qed.

(** When an export fails the loop raises. *)
Lemma export_loop_fail (len_audio : Z) (range : list nat) (segments : list path)
    (i : nat) :
  In i range ->
  export w (segment_file b audio_path i)
         (fst (window segment_length_sec len_audio i))
         (snd (window segment_length_sec len_audio i)) = false ->
  fst (export_loop b w audio_path segment_length_sec len_audio range segments)
  = Raised.
Proof.
  revert segments. induction range as [|j range IH]; intros segments Hin Hi.
  - destruct Hin.
  - cbn [export_loop].
    destruct (export w (SegmentWav b audio_path (Z.of_nat j + 1)) _ _)
      eqn:Hj; [|reflexivity].
    destruct Hin as [->|Hin].
    + unfold segment_file, window in Hi. cbn [fst snd] in Hi. congruence.
    + specialize (IH (segments ++ [SegmentWav b audio_path (Z.of_nat j + 1)])
                     Hin Hi).
      destruct (export_loop _ _ _ _ _ _ _). exact IH.
Qed.

(** The body of the [try] on an audio longer than a segment. *)
Lemma split_body_long (len_audio : Z) :
  from_file w audio_path = Some len_audio ->
  0 < segment_length_sec -> segment_length_sec * 1000 < len_audio ->
  makedirs w b = true ->
  split_body b w audio_path segment_length_sec
  = export_loop b w audio_path segment_length_sec len_audio
      (seq 0 (Z.to_nat (len_audio / (segment_length_sec * 1000) + 1))) [].
Proof.
  intros Hload HL Hlong Hdir. unfold split_body.
  rewrite Hload, short_audio, Hdir.
  destruct (Z.leb_spec len_audio (segment_length_sec * 1000)); [lia|].
  destruct (Z.eqb_spec segment_length_sec 0); [lia|].
  cbn [negb]. now rewrite py_int_div by lia.
Qed.

(** What the splitter does when nothing fails: one window per pass,
    [floor(len / (L * 1000)) + 1] passes. *)
Lemma split_audio_long (len_audio : Z) :
  from_file w audio_path = Some len_audio ->
  0 < segment_length_sec -> segment_length_sec * 1000 < len_audio ->
  makedirs w b = true ->
  (forall q a c, export w q a c = true) ->
  let n := Z.to_nat (len_audio / (segment_length_sec * 1000) + 1) in
  split_audio b w audio_path segment_length_sec
  = (map (segment_file b audio_path) (seq 0 n),
     map (exported b audio_path segment_length_sec len_audio) (seq 0 n)).
Proof.
  intros Hload HL Hlong Hdir Hexp n. unfold split_audio.
  rewrite (split_body_long Hload HL Hlong Hdir).
  now rewrite export_loop_ok by (intros; apply Hexp).
Qed.

End SegmenterFacts.

Section SegmenterTheorems.

Import Segmenter.
Open Scope Z_scope.

(** The windows tile the audio: each pass but the last cuts a full
    segment, a window starts where the one before it ends, the first
    starts at 0 and the last ends at the end of the audio, with
    [len mod (L * 1000)] milliseconds in it. *)
Lemma windows_tile (segment_length_sec len_audio : Z) (i : nat) :
  0 < segment_length_sec -> 0 <= len_audio ->
  let size := segment_length_sec * 1000 in
  let last := Z.to_nat (len_audio / size) in
  (i < last)%nat ->
  window segment_length_sec len_audio i
  = (Z.of_nat i * size, (Z.of_nat i + 1) * size)
  /\ window segment_length_sec len_audio last
     = (len_audio - len_audio mod size, len_audio).
Proof.
  intros HL Hlen size last Hi. unfold window.
  pose proof (Z.div_mod len_audio size ltac:(lia)) as Hdm.
  pose proof (Z.mod_pos_bound len_audio size ltac:(lia)) as Hmod.
  assert (Hq : 0 <= len_audio / size) by (apply Z.div_pos; lia).
  assert (Hlast : Z.of_nat last = len_audio / size) by (unfold last; lia).
  split.
  - f_equal; [unfold size; lia|].
    assert (Z.of_nat i + 1 <= len_audio / size) by lia.
    assert ((Z.of_nat i + 1) * size <= len_audio) by nia.
    unfold size in *. lia.
  - rewrite Hlast. f_equal; [unfold size in *; lia|].
    assert (len_audio < (len_audio / size + 1) * size) by nia.
    unfold size in *. lia.
Qed.

(** C3 at a length that is a whole number of segments: the splitter
    writes one segment more than the [k] segments of the division, and
    the last one is the empty window at the end of the audio. *)
Theorem split_exact_multiple (b : backend) (w : io) (audio_path : path)
    (segment_length_sec k : Z) :
  0 < segment_length_sec -> 2 <= k ->
  from_file w audio_path = Some (k * (segment_length_sec * 1000)) ->
  makedirs w b = true ->
  (forall q a c, export w q a c = true) ->
  exists segments tr,
    split_audio b w audio_path segment_length_sec = (segments, tr) /\
    length segments = S (Z.to_nat k) /\
    length (windows tr) = S (Z.to_nat k) /\
    last (windows tr) (0, 0)
    = (k * (segment_length_sec * 1000), k * (segment_length_sec * 1000)).
Proof.
  intros HL Hk Hload Hdir Hexp.
  rewrite (@split_audio_long b w audio_path segment_length_sec _
             Hload HL ltac:(nia) Hdir Hexp).
  rewrite Z.div_mul by lia.
  replace (Z.to_nat (k + 1)) with (S (Z.to_nat k)) by lia.
  do 2 eexists. split; [reflexivity|].
  unfold windows. rewrite !length_map, length_seq.
  repeat split.
  rewrite seq_S, !map_app. cbn [map Nat.add].
  rewrite last_last. unfold exported, window. cbn [fst snd].
  f_equal; lia.
Qed.

(** The failing input of C3: 1200 s of audio and segments of 600 s. *)
Lemma split_exact_multiple_witness :
  exists segments tr,
    split_audio_for_whisper (healthy 1200000) (Given (utf8 "talk.wav")) 600
    = (segments, tr) /\
    length segments = 3%nat /\
    length (windows tr) = 3%nat /\
    last (windows tr) (0, 0) = (1200000, 1200000).
Proof.
  apply (split_exact_multiple Whisper (healthy 1200000)
           (Given (utf8 "talk.wav")) (segment_length_sec:=600) (k:=2));
    (lia || reflexivity).
Defined.


(** C9.  [split_audio_for_whisper] and [split_audio_for_vosk] do not let
    an error out: whenever the body of the [try] raises, the result is the
    list that holds the path given and nothing else.  That is the case
    when the audio cannot be loaded, when the directory of the segments
    cannot be made, and when slicing or exporting a segment fails. *)
Theorem split_audio_absorbs_errors (b : backend) (w : io) (audio_path : path)
    (segment_length_sec : Z) :
  (forall tr,
     split_body b w audio_path segment_length_sec = (Raised, tr) ->
     split_audio b w audio_path segment_length_sec = ([audio_path], tr)) /\
  (from_file w audio_path = None ->
   split_audio b w audio_path segment_length_sec = ([audio_path], [])) /\
  (forall len_audio,
     from_file w audio_path = Some len_audio ->
     segment_length_sec * 1000 < len_audio ->
     makedirs w b = false ->
     split_audio b w audio_path segment_length_sec = ([audio_path], [])) /\
  (forall len_audio i,
     from_file w audio_path = Some len_audio ->
     0 < segment_length_sec ->
     segment_length_sec * 1000 < len_audio ->
     makedirs w b = true ->
     (i < Z.to_nat (len_audio / (segment_length_sec * 1000) + 1))%nat ->
     export w (segment_file b audio_path i)
            (fst (window segment_length_sec len_audio i))
            (snd (window segment_length_sec len_audio i)) = false ->
     fst (split_audio b w audio_path segment_length_sec) = [audio_path]).
Proof.
  split; [|split; [|split]].
  - intros tr H. unfold split_audio. now rewrite H.
  - intros H. unfold split_audio, split_body. now rewrite H.
  - intros len_audio Hload Hlong Hdir. unfold split_audio, split_body.
    rewrite Hload, short_audio, Hdir.
    now destruct (Z.leb_spec len_audio (segment_length_sec * 1000)); [lia|].
  - intros len_audio i Hload HL Hlong Hdir Hi Hfail. unfold split_audio.
    rewrite (@split_body_long b w audio_path segment_length_sec _
               Hload HL Hlong Hdir).
    assert (Hin : In i (seq 0 (Z.to_nat
              (len_audio / (segment_length_sec * 1000) + 1)))).
    { apply in_seq. lia. }
    pose proof (@export_loop_fail b w audio_path segment_length_sec len_audio
                  _ [] i Hin Hfail) as Hr.
    destruct (export_loop _ _ _ _ _ _ _) as [r tr]. cbn [fst] in Hr.
    now subst r.
Qed.

Lemma split_audio_absorbs_errors_witness :
  split_audio_for_vosk unreadable (Given (utf8 "talk.wav")) 300
  = ([Given (utf8 "talk.wav")], []).
Proof.
  apply (proj1 (proj2 (split_audio_absorbs_errors Vosk unreadable
                         (Given (utf8 "talk.wav")) 300))).
  reflexivity.
Defined.

End SegmenterTheorems.

(** * The retry loop *)

Section RetryFacts.

Import Pipeline.

Variable w : world.
Variable current_chunk : Z.

Lemma transient_cases (o : outcome) :
  transient o = true -> o = UnknownValueError \/ exists d, o = RequestError d.
Proof. destruct o; cbn; try discriminate; eauto. Qed.

(** The trace of a segment that is never understood. *)
Lemma retry_all_transient :
  (forall a, a < max_retries ->
     transient (recognize_google w current_chunk a) = true) ->
  retry_loop w current_chunk (seq 0 max_retries)
  = (Exhausted,
     [Recognize current_chunk 0; Sleep 5000;
      Recognize current_chunk 1; Sleep 5000;
      Recognize current_chunk 2; Sleep 5000;
      Recognize current_chunk 3; Sleep 5000;
      Recognize current_chunk 4]).
Proof.
  intros H. unfold max_retries in *.
  pose proof (H 0 ltac:(lia)) as H0. pose proof (H 1 ltac:(lia)) as H1.
  pose proof (H 2 ltac:(lia)) as H2. pose proof (H 3 ltac:(lia)) as H3.
  pose proof (H 4 ltac:(lia)) as H4.
  cbn [seq retry_loop].
  destruct (recognize_google w current_chunk 0); try discriminate H0;
  destruct (recognize_google w current_chunk 1); try discriminate H1;
  destruct (recognize_google w current_chunk 2); try discriminate H2;
  destruct (recognize_google w current_chunk 3); try discriminate H3;
  destruct (recognize_google w current_chunk 4); try discriminate H4;
  reflexivity.
Qed.

(** What the loop does on any run of attempts [s, s+1, ..., s+n-1]. *)
Lemma retry_loop_outcome (n s : nat) (r : retried) (tr : list event) :
  retry_loop w current_chunk (seq s n) = (r, tr) ->
  match r with
  | Success t =>
      exists a, s <= a < s + n /\
        recognize_google w current_chunk a = Recognized t /\
        forall a', s <= a' < a ->
          transient (recognize_google w current_chunk a') = true
  | Exhausted =>
      forall a, s <= a < s + n ->
        transient (recognize_google w current_chunk a) = true
  | Propagated =>
      exists a, s <= a < s + n /\
        recognize_google w current_chunk a = OtherError
  end.
Proof.
  revert s r tr. induction n as [|n IH]; intros s r tr.
  - cbn. intros [= <- <-]. intros a Ha. lia.
  - cbn [seq retry_loop].
    destruct (recognize_google w current_chunk s) eqn:Hs.
    + intros [= <- <-]. exists s. split; [lia|]. split; [assumption|].
      intros a' Ha'. lia.
    + destruct (retry_loop w current_chunk (seq (S s) n)) as [r' tr'] eqn:E.
      intros [= <- <-]. specialize (IH _ _ _ E).
      destruct r' as [t| |].
      * destruct IH as (a & Ha & Hrec & Hbefore). exists a.
        repeat split; try lia; [assumption|].
        intros a' Ha'. destruct (Nat.eq_dec a' s) as [->|Hne].
        -- now rewrite Hs.
        -- apply Hbefore. lia.
      * intros a Ha. destruct (Nat.eq_dec a s) as [->|Hne].
        -- now rewrite Hs.
        -- apply IH. lia.
      * destruct IH as (a & Ha & Hrec). exists a. split; [lia | assumption].
    + destruct (retry_loop w current_chunk (seq (S s) n)) as [r' tr'] eqn:E.
      intros [= <- <-]. specialize (IH _ _ _ E).
      destruct r' as [t| |].
      * destruct IH as (a & Ha & Hrec & Hbefore). exists a.
        repeat split; try lia; [assumption|].
        intros a' Ha'. destruct (Nat.eq_dec a' s) as [->|Hne].
        -- now rewrite Hs.
        -- apply Hbefore. lia.
      * intros a Ha. destruct (Nat.eq_dec a s) as [->|Hne].
        -- now rewrite Hs.
        -- apply IH. lia.
      * destruct IH as (a & Ha & Hrec). exists a. split; [lia | assumption].
    + intros [= <- <-]. exists s. split; [lia | assumption].
Qed.

(** What the loop leaves in the trace: calls for this chunk only, not
    more than one per attempt, backoffs of five seconds, and no file. *)
Lemma retry_loop_trace (range : list nat) (r : retried) (tr : list event) :
  retry_loop w current_chunk range = (r, tr) ->
  length (recognize_calls tr) <= length range /\
  Forall (fun call => fst call = current_chunk) (recognize_calls tr) /\
  Forall (fun ms => ms = 5000%Z) (sleeps tr) /\
  saved_chunks tr = [] /\ written tr = [].
Proof.
  revert r tr. induction range as [|a range IH]; intros r tr.
  - cbn. intros [= <- <-]. cbn. auto.
  - cbn [retry_loop].
    assert (Hstep : forall r' tr',
      retry_loop w current_chunk range = (r', tr') ->
      let tr := Recognize current_chunk a :: backoff a ++ tr' in
      length (recognize_calls tr) <= length (a :: range) /\
      Forall (fun call => fst call = current_chunk) (recognize_calls tr) /\
      Forall (fun ms => ms = 5000%Z) (sleeps tr) /\
      saved_chunks tr = [] /\ written tr = []).
    { intros r' tr' E. destruct (IH _ _ E) as (Hc & Hf & Hs & Hsv & Hw).
      unfold backoff. destruct (a <? max_retries - 1); cbn; auto 10 with arith. }
    destruct (recognize_google w current_chunk a).
    + intros [= <- <-]. cbn. repeat split; auto with arith.
    + destruct (retry_loop w current_chunk range) as [r' tr'] eqn:E.
      intros [= <- <-]. now apply Hstep with r'.
    + destruct (retry_loop w current_chunk range) as [r' tr'] eqn:E.
      intros [= <- <-]. now apply Hstep with r'.
    + intros [= <- <-]. cbn. repeat split; auto with arith.
Qed.

End RetryFacts.

Section RetryTheorems.

Import Pipeline.

(** C2.  For one segment the retry loop calls the recognizer at most
    [max_retries = 5] times, and every backoff is a sleep of five
    seconds.  When every attempt fails with [UnknownValueError] or
    [RequestError] it calls it five times, with one sleep of five seconds
    before each retry, whichever of the two the failure is.  When the
    first attempt is recognized it calls it once and leaves with that
    text. *)
Theorem retry_attempts (w : world) (current_chunk : Z) :
  (forall r tr,
     retry_loop w current_chunk (seq 0 max_retries) = (r, tr) ->
     length (recognize_calls tr) <= 5 /\
     Forall (fun ms => ms = 5000%Z) (sleeps tr)) /\
  ((forall a, a < max_retries ->
      transient (recognize_google w current_chunk a) = true) ->
   exists tr,
     retry_loop w current_chunk (seq 0 max_retries) = (Exhausted, tr) /\
     length (recognize_calls tr) = 5 /\
     tr = [Recognize current_chunk 0; Sleep 5000;
           Recognize current_chunk 1; Sleep 5000;
           Recognize current_chunk 2; Sleep 5000;
           Recognize current_chunk 3; Sleep 5000;
           Recognize current_chunk 4]) /\
  (forall chunk_text,
     recognize_google w current_chunk 0 = Recognized chunk_text ->
     retry_loop w current_chunk (seq 0 max_retries)
     = (Success chunk_text, [Recognize current_chunk 0])).
Proof.
  split; [|split].
  - intros r tr E.
    destruct (retry_loop_trace _ _ _ E) as (Hc & _ & Hs & _).
    split; [exact Hc | exact Hs].
  - intros H. eexists. split; [now apply retry_all_transient|].
    split; reflexivity.
  - intros chunk_text H. cbn [max_retries seq retry_loop]. now rewrite H.
Qed.

Lemma retry_attempts_witness :
  exists tr,
    retry_loop talk 2 (seq 0 max_retries) = (Exhausted, tr) /\
    length (recognize_calls tr) = 5 /\
    tr = [Recognize 2 0; Sleep 5000; Recognize 2 1; Sleep 5000;
          Recognize 2 2; Sleep 5000; Recognize 2 3; Sleep 5000;
          Recognize 2 4].
Proof.
  apply (proj1 (proj2 (retry_attempts talk 2))).
  intros a Ha. unfold max_retries in Ha.
  do 5 (destruct a as [|a]; [reflexivity|]). lia.
Defined.

(** C10.  When every attempt of a segment fails transiently the retry
    loop sleeps [max_retries - 1 = 4] times; its last event is the fifth
    call of the recognizer, and every sleep stands between the call of an
    attempt and the call of the next one. *)
Theorem no_backoff_after_last_attempt (w : world) (current_chunk : Z)
    (r : retried) (tr : list event) :
  (forall a, a < max_retries ->
     transient (recognize_google w current_chunk a) = true) ->
  retry_loop w current_chunk (seq 0 max_retries) = (r, tr) ->
  length (sleeps tr) = max_retries - 1 /\
  length (sleeps tr) = 4 /\
  last tr (Sleep 0) = Recognize current_chunk 4 /\
  forall before ms after,
    tr = before ++ Sleep ms :: after ->
    exists a,
      last before (Sleep 0) = Recognize current_chunk a /\
      hd (Sleep 0) after = Recognize current_chunk (S a).
Proof.
  intros H E. rewrite (retry_all_transient _ _ H) in E.
  injection E as <- <-.
  repeat split.
  intros before ms after Heq.
  do 9 (destruct before as [|e before];
        [first [discriminate Heq
               |injection Heq as <- <-; eexists; split; reflexivity]
        |injection Heq as <- Heq]).
  destruct before; discriminate.
Qed.

Lemma no_backoff_after_last_attempt_witness :
  length (sleeps (snd (retry_loop talk 2 (seq 0 max_retries)))) = 4.
Proof.
  refine (proj1 (proj2 (no_backoff_after_last_attempt talk 2
            (r := fst (retry_loop talk 2 (seq 0 max_retries)))
            (tr := snd (retry_loop talk 2 (seq 0 max_retries))) _ _))).
  - intros a Ha. unfold max_retries in Ha.
    do 5 (destruct a as [|a]; [reflexivity|]). lia.
  - reflexivity.
Defined.

End RetryTheorems.

(** * The loop over the chunks *)

Section ChunkFacts.

Import Pipeline.
Open Scope Z_scope.

Variable w : world.
Variable audio_path : path.
Variable len_audio : Z.

Lemma written_app (a b : list event) : written (a ++ b) = written a ++ written b.
Proof. apply flat_map_app. Qed.

Lemma saved_chunks_app (a b : list event) :
  saved_chunks (a ++ b) = saved_chunks a ++ saved_chunks b.
Proof. apply flat_map_app. Qed.

Lemma recognize_calls_app (a b : list event) :
  recognize_calls (a ++ b) = recognize_calls a ++ recognize_calls b.
Proof. apply flat_map_app. Qed.

(** One pass: nothing is written, and when the pass returns it has saved
    the chunk of its ordinal and appended the one text of that chunk. *)
Lemma process_chunk_spec (offset : Z) (full_text : list str)
    (r : result (list str)) (tr : list event) :
  process_chunk w audio_path len_audio offset full_text = (r, tr) ->
  let c := offset / chunk_duration + 1 in
  written tr = [] /\
  match r with
  | Raised => True
  | Returned full_text' =>
      exists t,
        full_text' = full_text ++ [t] /\
        segment_text w c t /\
        saved_chunks tr = [ChunkWav audio_path c]
  end.
Proof.
  intros E c. unfold process_chunk, save_audio_chunk in E.
  change (offset / chunk_duration + 1) with c in E.
  destruct (save_ok w (ChunkWav audio_path c)).
  2:{ injection E as <- <-. now split. }
  destruct (record_ok w (ChunkWav audio_path c)).
  2:{ injection E as <- <-. now split. }
  destruct (retry_loop w c (seq 0 max_retries)) as [rr tr'] eqn:Er.
  pose proof (retry_loop_outcome _ _ _ _ Er) as Hout.
  destruct (retry_loop_trace _ _ _ Er) as (_ & _ & _ & Hsaved & Hwritten).
  destruct rr as [t| |]; injection E as <- <-;
    (split; [exact Hwritten|]); [| |exact I].
  - exists t. split; [reflexivity|]. split.
    + left. destruct Hout as (a & Ha & Hrec & Hbefore).
      exists a. split; [cbn in Ha; lia|]. split; [assumption|].
      intros a' Ha'. apply Hbefore. lia.
    + change (ChunkWav audio_path c :: saved_chunks tr' = [ChunkWav audio_path c]).
      now rewrite Hsaved.
  - exists (placeholder c). split; [reflexivity|]. split.
    + right. split; [reflexivity|]. intros a Ha. apply Hout. cbn. lia.
    + change (ChunkWav audio_path c :: saved_chunks tr' = [ChunkWav audio_path c]).
      now rewrite Hsaved.
Qed.

Lemma offset_ordinal (k : nat) :
  Z.of_nat k * chunk_duration / chunk_duration + 1 = ordinal k.
Proof. unfold ordinal, chunk_duration. now rewrite Z.div_mul. Qed.

(** The loop from pass [k] on. *)
Lemma chunk_loop_spec (limit : Q) (fuel k : nat) (full_text : list str)
    (r : result (list str)) (tr : list event) :
  chunk_loop fuel w audio_path len_audio limit
             (Z.of_nat k * chunk_duration) full_text = Some (r, tr) ->
  written tr = [] /\
  match r with
  | Raised => True
  | Returned full_text' =>
      exists (m : nat) (texts : list str),
        full_text' = full_text ++ texts /\
        Forall2 (segment_text w) (map ordinal (seq k m)) texts /\
        saved_chunks tr
        = map (fun j => ChunkWav audio_path (ordinal j)) (seq k m) /\
        (forall j, (k <= j < k + m)%nat ->
           Qlt_bool (inject_Z (Z.of_nat j * chunk_duration)) limit = true) /\
        Qlt_bool (inject_Z (Z.of_nat (k + m) * chunk_duration)) limit = false
  end.
Proof.
  revert k full_text r tr.
  induction fuel as [|fuel IH]; intros k full_text r tr; cbn [chunk_loop];
    destruct (Qlt_bool (inject_Z (Z.of_nat k * chunk_duration)) limit) eqn:Hk.
  - discriminate.
  - intros [= <- <-]. split; [reflexivity|].
    exists 0%nat, []. rewrite app_nil_r, Nat.add_0_r.
    repeat split; [constructor | intros; lia | assumption].
  - destruct (process_chunk w audio_path len_audio
                (Z.of_nat k * chunk_duration) full_text) as [r1 tr1] eqn:E1.
    destruct (process_chunk_spec _ _ E1) as [Hw1 H1].
    rewrite offset_ordinal in H1.
    destruct r1 as [full_text1|].
    2:{ intros [= <- <-]. now split. }
    replace (Z.of_nat k * chunk_duration + chunk_duration)
      with (Z.of_nat (S k) * chunk_duration) by lia.
    destruct (chunk_loop fuel w audio_path len_audio limit
                (Z.of_nat (S k) * chunk_duration) full_text1)
      as [[r2 tr2]|] eqn:E2; [|discriminate].
    intros [= <- <-]. destruct (IH _ _ _ _ E2) as [Hw2 H2].
    split; [rewrite written_app, Hw1; exact Hw2|].
    destruct r2 as [full_text2|]; [|exact I].
    destruct H1 as (t & -> & Ht & Hs1).
    destruct H2 as (m & texts & -> & Htexts & Hs2 & Hbelow & Hstop).
    exists (S m), (t :: texts). rewrite <- app_assoc.
    split; [reflexivity|]. cbn [seq map]. split; [now constructor|].
    split; [|split].
    + rewrite saved_chunks_app, Hs1. cbn [app saved_chunks flat_map].
      now rewrite <- Hs2.
    + intros j Hj. destruct (Nat.eq_dec j k) as [->|Hne]; [assumption|].
      apply Hbelow. lia.
    + now replace (k + S m)%nat with (S k + m)%nat by lia.
  - intros [= <- <-]. split; [reflexivity|].
    exists 0%nat, []. rewrite app_nil_r, Nat.add_0_r.
    repeat split; [constructor | intros; lia | assumption].
Qed.

Lemma Qlt_bool_lt (x y : Q) : Qlt_bool x y = true -> (x < y)%Q.
Proof.
  unfold Qlt_bool. intros H. apply Qnot_le_lt. intros Hle.
  apply Qle_bool_iff in Hle. rewrite Hle in H. discriminate.
Qed.

(** The loop ends: [fuel] is enough as soon as it covers the
    milliseconds left. *)
Lemma chunk_loop_terminates (limit : Q) (fuel : nat) (offset : Z)
    (full_text : list str) :
  (Z.to_nat (Qceiling limit - offset) <= fuel)%nat ->
  chunk_loop fuel w audio_path len_audio limit offset full_text <> None.
Proof.
  revert offset full_text.
  induction fuel as [|fuel IH]; intros offset full_text Hfuel;
    cbn [chunk_loop];
    destruct (Qlt_bool (inject_Z offset) limit) eqn:Hlt; try discriminate.
  - apply Qlt_bool_lt in Hlt.
    pose proof (Qle_ceiling limit) as Hc.
    assert (inject_Z offset < inject_Z (Qceiling limit))%Q as Hz
      by (eapply Qlt_le_trans; eassumption).
    rewrite <- Zlt_Qlt in Hz. lia.
  - apply Qlt_bool_lt in Hlt.
    pose proof (Qle_ceiling limit) as Hc.
    assert (inject_Z offset < inject_Z (Qceiling limit))%Q as Hz
      by (eapply Qlt_le_trans; eassumption).
    rewrite <- Zlt_Qlt in Hz.
    destruct (process_chunk w audio_path len_audio offset full_text)
      as [[full_text'|] tr]; [|discriminate].
    specialize (IH (offset + chunk_duration) full_text').
    destruct (chunk_loop fuel w audio_path len_audio limit
                (offset + chunk_duration) full_text') as [[r tr']|].
    + discriminate.
    + exfalso. apply IH; [|reflexivity]. unfold chunk_duration. lia.
Qed.

End ChunkFacts.

(** * The run of [audio_to_text] *)

Section RunFacts.

Import Pipeline.

Variable w : world.

(** The loop from the start. *)
Lemma chunk_loop_from_start (src : path) (len_audio : Z) (limit : Q)
    (fuel : nat) (full_text : list str) (tr : list event) :
  chunk_loop fuel w src len_audio limit 0 [] = Some (Returned full_text, tr) ->
  exists n,
    all_chunks limit n /\
    Forall2 (segment_text w) (map ordinal (seq 0 n)) full_text /\
    saved_chunks tr = map (fun j => ChunkWav src (ordinal j)) (seq 0 n) /\
    written tr = [].
Proof.
  intros E.
  change 0%Z with (Z.of_nat 0 * chunk_duration)%Z in E.
  destruct (chunk_loop_spec _ _ _ _ _ _ _ E)
    as [Hw (n & texts & -> & Htexts & Hsaved & Hbelow & Hstop)].
  exists n. repeat split; try assumption.
  intros j Hj. apply Hbelow. lia.
Qed.

Lemma chunk_loop_writes_nothing (src : path) (len_audio : Z) (limit : Q)
    (fuel : nat) (r : result (list str)) (tr : list event) :
  chunk_loop fuel w src len_audio limit 0 [] = Some (r, tr) -> written tr = [].
Proof.
  intros E.
  change 0%Z with (Z.of_nat 0 * chunk_duration)%Z in E.
  now destruct (chunk_loop_spec _ _ _ _ _ _ _ E).
Qed.

(** What follows the loop: at most one file is written, the formatted
    transcript, and no chunk is touched. *)
Lemma save_transcript_cases (src : path) (full_text : list str) :
  snd (save_transcript w src full_text) = [] \/
  exists rest,
    snd (save_transcript w src full_text)
    = WroteText (OutputTxt src) (format_text (join [space] full_text)) :: rest
    /\ saved_chunks rest = [] /\ recognize_calls rest = [] /\ written rest = [].
Proof.
  unfold save_transcript.
  destruct (write_ok w (OutputTxt src)); [|now left].
  right. destruct (is_temp_wav src); [destruct (remove_ok w src)|];
    eexists; (split; [reflexivity|]); now repeat split.
Qed.

(** The two ways a run can go. *)
Lemma audio_to_text_cases (fuel : nat) (audio_path : path) (ok : bool)
    (tr : list event) :
  audio_to_text fuel w audio_path = Some (ok, tr) ->
  (undecodable w audio_path /\ ok = false /\
   (tr = [] \/ tr = [Converted audio_path]))
  \/
  exists src len_audio duration r loop_tr pre,
    DURATION w src = Some duration /\
    chunk_loop fuel w src len_audio (duration * 1000)%Q 0 []
    = Some (r, loop_tr) /\
    saved_chunks pre = [] /\ recognize_calls pre = [] /\ written pre = [] /\
    match r with
    | Raised => ok = false /\ tr = pre ++ loop_tr
    | Returned full_text =>
        ok = fst (save_transcript w src full_text) /\
        tr = pre ++ loop_tr ++ snd (save_transcript w src full_text)
    end.
Proof.
  unfold audio_to_text, convert_audio_to_wav, undecodable.
  destruct (is_wav audio_path); cbn [negb].
  - destruct (from_wav w audio_path) as [len_audio|] eqn:Hlen.
    2:{ intros [= <- <-]. left. auto. }
    destruct (DURATION w audio_path) as [duration|] eqn:Hdur.
    2:{ intros [= <- <-]. left. auto. }
    destruct (chunk_loop fuel w audio_path len_audio (duration * 1000)%Q 0 [])
      as [[r loop_tr]|] eqn:Eloop; [|discriminate].
    intros E. right.
    exists audio_path, len_audio, duration, r, loop_tr, [].
    repeat (split; [reflexivity || assumption|]).
    destruct r as [full_text|].
    + destruct (save_transcript w audio_path full_text) as [ok' post].
      now injection E as <- <-.
    + now injection E as <- <-.
  - destruct (convert_ok w audio_path) eqn:Hconv.
    2:{ intros [= <- <-]. left. auto. }
    destruct (from_wav w (TempWav audio_path)) as [len_audio|] eqn:Hlen.
    2:{ intros [= <- <-]. left. auto. }
    destruct (DURATION w (TempWav audio_path)) as [duration|] eqn:Hdur.
    2:{ intros [= <- <-]. left. auto. }
    destruct (chunk_loop fuel w (TempWav audio_path) len_audio
                (duration * 1000)%Q 0 [])
      as [[r loop_tr]|] eqn:Eloop; [|discriminate].
    intros E. right.
    exists (TempWav audio_path), len_audio, duration, r, loop_tr,
           [Converted audio_path].
    repeat (split; [reflexivity || assumption|]).
    destruct r as [full_text|].
    + destruct (save_transcript w (TempWav audio_path) full_text)
        as [ok' post].
      now injection E as <- <-.
    + now injection E as <- <-.
Qed.

(** An input that cannot be decoded ends the run at once. *)
Lemma audio_to_text_undecodable (fuel : nat) (audio_path : path) :
  undecodable w audio_path ->
  exists tr,
    audio_to_text fuel w audio_path = Some (false, tr) /\
    (tr = [] \/ tr = [Converted audio_path]).
Proof.
  unfold audio_to_text, convert_audio_to_wav, undecodable.
  destruct (is_wav audio_path); cbn [negb].
  - intros [H|H].
    + rewrite H. eauto.
    + destruct (from_wav w audio_path); rewrite ?H; eauto.
  - destruct (convert_ok w audio_path); [|eauto].
    intros [H|[H|H]]; [discriminate| |].
    + rewrite H. eauto.
    + destruct (from_wav w (TempWav audio_path)); rewrite ?H; eauto.
Qed.

(** Every run ends. *)
Lemma audio_to_text_terminates (audio_path : path) :
  exists fuel, audio_to_text fuel w audio_path <> None.
Proof.
  set (src := if is_wav audio_path then audio_path else TempWav audio_path).
  set (fuel := match DURATION w src with
               | Some duration => Z.to_nat (Qceiling (duration * 1000))
               | None => 0
               end).
  exists fuel. unfold audio_to_text, convert_audio_to_wav.
  subst fuel src.
  destruct (is_wav audio_path); cbn [negb].
  - destruct (from_wav w audio_path) as [len_audio|]; [|discriminate].
    destruct (DURATION w audio_path) as [duration|]; [|discriminate].
    pose proof (@chunk_loop_terminates w audio_path len_audio
                  (duration * 1000)%Q
                  (Z.to_nat (Qceiling (duration * 1000))) 0 []
                  ltac:(lia)) as Hloop.
    destruct (chunk_loop _ _ _ _ _ _ _) as [[[full_text|] tr]|];
      [|discriminate|contradiction].
    now destruct (save_transcript w audio_path full_text).
  - destruct (convert_ok w audio_path); [|discriminate].
    destruct (from_wav w (TempWav audio_path)) as [len_audio|];
      [|discriminate].
    destruct (DURATION w (TempWav audio_path)) as [duration|];
      [|discriminate].
    pose proof (@chunk_loop_terminates w (TempWav audio_path) len_audio
                  (duration * 1000)%Q
                  (Z.to_nat (Qceiling (duration * 1000))) 0 []
                  ltac:(lia)) as Hloop.
    destruct (chunk_loop _ _ _ _ _ _ _) as [[[full_text|] tr]|];
      [|discriminate|contradiction].
    now destruct (save_transcript w (TempWav audio_path) full_text).
Qed.

End RunFacts.

Section RunTheorems.

Import Pipeline.

Lemma digits_injective (u v : Decimal.uint) : digits u = digits v -> u = v.
Proof.
  revert v. induction u; intros [] H; cbn in H;
    try discriminate; try reflexivity;
    injection H as H; f_equal; auto.
Qed.

(** The placeholders of two segments differ. *)
Lemma placeholder_injective (j j' : nat) :
  placeholder (ordinal j) = placeholder (ordinal j') -> j = j'.
Proof.
  unfold placeholder, str_of_Z, ordinal. intros H.
  apply app_inv_head in H. apply app_inv_tail in H.
  destruct (Z.ltb_spec (Z.of_nat j + 1) 0); [lia|].
  destruct (Z.ltb_spec (Z.of_nat j' + 1) 0); [lia|].
  apply digits_injective in H.
  apply (f_equal N.of_uint) in H.
  rewrite !DecimalN.Unsigned.of_to in H. lia.
Qed.

(** C1.  A run of [audio_to_text] ends.  When its loop over the chunks
    has run through, [full_text] holds one text for each of the ordinals
    1, 2, ..., n of the chunks it has saved, in that order: the text
    recognized for that chunk, or the placeholder that names that chunk
    when its five attempts failed transiently; either way it is read off
    the attempts on that chunk alone, and the placeholders of two chunks
    differ.  What the run then writes is the formatting of these texts
    joined by single spaces. *)
Theorem transcript_assembly (w : world) (audio_path : path) :
  (exists fuel, audio_to_text fuel w audio_path <> None) /\
  (forall fuel src len_audio limit full_text tr,
     chunk_loop fuel w src len_audio limit 0 []
     = Some (Returned full_text, tr) ->
     exists n,
       all_chunks limit n /\
       saved_chunks tr = map (fun j => ChunkWav src (ordinal j)) (seq 0 n) /\
       Forall2 (segment_text w) (map ordinal (seq 0 n)) full_text) /\
  (forall j j', placeholder (ordinal j) = placeholder (ordinal j') -> j = j') /\
  (forall fuel ok tr file content,
     audio_to_text fuel w audio_path = Some (ok, tr) ->
     In (file, content) (written tr) ->
     exists src duration n full_text,
       DURATION w src = Some duration /\
       all_chunks (duration * 1000)%Q n /\
       saved_chunks tr = map (fun j => ChunkWav src (ordinal j)) (seq 0 n) /\
       Forall2 (segment_text w) (map ordinal (seq 0 n)) full_text /\
       content = format_text (join [space] full_text) /\
       written tr = [(file, content)]).
Proof.
  split; [apply audio_to_text_terminates|].
  split.
  { intros fuel src len_audio limit full_text tr E.
    destruct (@chunk_loop_from_start _ _ _ _ _ _ _ E)
      as (n & Hn & Ht & Hs & _).
    now exists n. }
  split; [exact placeholder_injective|].
  intros fuel ok tr file content E Hin.
  destruct (@audio_to_text_cases _ _ _ _ _ E)
    as [(_ & _ & [-> | ->])
       |(src & len_audio & duration & r & loop_tr & pre
         & Hdur & Eloop & Hps & Hpr & Hpw & Hr)]; try now destruct Hin.
  pose proof (@chunk_loop_writes_nothing _ _ _ _ _ _ _ Eloop) as Hlw.
  destruct r as [full_text|].
  2:{ destruct Hr as [_ ->]. rewrite written_app, Hpw, Hlw in Hin.
      destruct Hin. }
  destruct Hr as [_ ->].
  destruct (@chunk_loop_from_start _ _ _ _ _ _ _ Eloop)
    as (n & Hn & Ht & Hs & _).
  rewrite !written_app, Hpw, Hlw in Hin |- *. cbn [app] in Hin |- *.
  rewrite !saved_chunks_app, Hps, Hs. cbn [app].
  destruct (save_transcript_cases w src full_text)
    as [Hpost|(rest & Hpost & Hrs & _ & Hrw)];
    rewrite Hpost in Hin |- *; [destruct Hin|].
  cbn [written flat_map app] in Hin |- *.
  change (flat_map _ rest) with (written rest) in Hin |- *.
  change (saved_chunks (_ :: rest)) with (saved_chunks rest).
  rewrite Hrw in Hin |- *. rewrite Hrs, app_nil_r.
  destruct Hin as [[= <- <-]|[]].
  exists src, duration, n, full_text.
  split; [exact Hdur|]. split; [exact Hn|]. split; [reflexivity|].
  split; [exact Ht|]. split; reflexivity.
Qed.

Lemma transcript_assembly_witness :
  exists src duration n full_text,
    DURATION talk src = Some duration /\
    all_chunks (duration * 1000)%Q n /\
    saved_chunks (trace_of (audio_to_text 3 talk (Given (utf8 "talk.wav"))))
    = map (fun j => ChunkWav src (ordinal j)) (seq 0 n) /\
    Forall2 (segment_text talk) (map ordinal (seq 0 n)) full_text /\
    format_text (utf8 "a [Не удалось распознать часть 2] c")
    = format_text (join [space] full_text) /\
    written (trace_of (audio_to_text 3 talk (Given (utf8 "talk.wav"))))
    = [(OutputTxt (Given (utf8 "talk.wav")),
        format_text (utf8 "a [Не удалось распознать часть 2] c"))].
Proof.
  apply (proj2 (proj2 (proj2 (transcript_assembly talk
           (Given (utf8 "talk.wav"))))) 3 true).
  - vm_compute. reflexivity.
  - vm_compute. left. reflexivity.
Defined.

(** The text file is written at most once, after every chunk. *)
Lemma text_written_last (w : world) (audio_path : path) (fuel : nat)
    (ok : bool) (tr : list event) :
  audio_to_text fuel w audio_path = Some (ok, tr) ->
  written tr <> [] ->
  exists before file content after src duration n,
    tr = before ++ WroteText file content :: after /\
    DURATION w src = Some duration /\
    all_chunks (duration * 1000)%Q n /\
    saved_chunks before
    = map (fun j => ChunkWav src (ordinal j)) (seq 0 n) /\
    written before = [] /\
    saved_chunks after = [] /\ recognize_calls after = [] /\
    written after = [].
Proof.
  intros E Hw.
  destruct (@audio_to_text_cases _ _ _ _ _ E)
    as [(_ & _ & [-> | ->])
       |(src & len_audio & duration & r & loop_tr & pre
         & Hdur & Eloop & Hps & Hpr & Hpw & Hr)]; try now elim Hw.
  pose proof (@chunk_loop_writes_nothing _ _ _ _ _ _ _ Eloop) as Hlw.
  destruct r as [full_text|].
  2:{ destruct Hr as [_ ->]. rewrite written_app, Hpw, Hlw in Hw.
      now elim Hw. }
  destruct Hr as [_ ->].
  destruct (@chunk_loop_from_start _ _ _ _ _ _ _ Eloop)
    as (n & Hn & Ht & Hs & _).
  destruct (save_transcript_cases w src full_text)
    as [Hpost|(rest & Hpost & Hrs & Hrr & Hrw)]; rewrite Hpost in *.
  { rewrite !written_app, Hpw, Hlw in Hw. now elim Hw. }
  exists (pre ++ loop_tr), (OutputTxt src),
    (format_text (join [space] full_text)), rest, src, duration, n.
  split; [now rewrite <- app_assoc|].
  split; [exact Hdur|]. split; [exact Hn|].
  split; [now rewrite saved_chunks_app, Hps, Hs|].
  split; [now rewrite written_app, Hpw, Hlw|].
  now repeat split.
Qed.

(** C5.  When the input cannot be decoded (the conversion to WAV fails,
    or the WAV file cannot be loaded or opened) the run returns [False]
    without saving a chunk, calling the recognizer or writing the text
    file.  In any run the text file is written at most once, and when it
    is, every chunk of the audio has been saved before and none is
    touched after. *)
Theorem undecodable_input_aborts (w : world) (audio_path : path) :
  (undecodable w audio_path ->
   forall fuel, exists tr,
     audio_to_text fuel w audio_path = Some (false, tr) /\
     saved_chunks tr = [] /\ recognize_calls tr = [] /\ written tr = []) /\
  (forall fuel ok tr,
     audio_to_text fuel w audio_path = Some (ok, tr) ->
     written tr <> [] ->
     exists before file content after src duration n,
       tr = before ++ WroteText file content :: after /\
       DURATION w src = Some duration /\
       all_chunks (duration * 1000)%Q n /\
       saved_chunks before
       = map (fun j => ChunkWav src (ordinal j)) (seq 0 n) /\
       written before = [] /\
       saved_chunks after = [] /\ recognize_calls after = [] /\
       written after = []).
Proof.
  split.
  - intros H fuel.
    destruct (@audio_to_text_undecodable w fuel audio_path H)
      as (tr & E & [-> | ->]); eexists; (split; [exact E|]); now repeat split.
  - intros fuel ok tr. apply text_written_last.
Qed.

Lemma undecodable_input_aborts_witness :
  exists tr,
    audio_to_text 0 noise (Given (utf8 "talk.mp3")) = Some (false, tr) /\
    saved_chunks tr = [] /\ recognize_calls tr = [] /\ written tr = [].
Proof.
  apply (proj1 (undecodable_input_aborts noise (Given (utf8 "talk.mp3")))).
  right. left. reflexivity.
Defined.

Lemma Qlt_bool_false (x y : Q) : Qlt_bool x y = false -> (y <= x)%Q.
Proof.
  unfold Qlt_bool. intros H. apply Qle_bool_iff.
  now destruct (Qle_bool y x).
Qed.


End RunTheorems.

(** * The scenarios of the specification *)

Section Scenarios.

Import Segmenter Pipeline.

(** 75 s of audio in segments of 30 s: three segments of 30 s, 30 s and
    15 s. *)
Example split_75_by_30 :
  windows (snd (split_audio_for_whisper (healthy 75000)
                  (Given (utf8 "talk.wav")) 30))
  = [(0, 30000); (30000, 60000); (60000, 75000)]%Z.
Proof. reflexivity. Qed.

(** The same audio through [audio_to_text]: three chunks, the second of
    which is never understood. *)
Example talk_transcript :
  audio_to_text 3 talk (Given (utf8 "talk.wav"))
  = Some (true, trace_of (audio_to_text 3 talk (Given (utf8 "talk.wav"))))
  /\
  written (trace_of (audio_to_text 3 talk (Given (utf8 "talk.wav"))))
  = [(OutputTxt (Given (utf8 "talk.wav")),
      format_text (utf8 "a [Не удалось распознать часть 2] c"))].
Proof. split; vm_compute; reflexivity. Qed.

(** The total shown by the progress bar counts one chunk more than the
    loop makes when the duration is a whole number of chunks. *)
Example total_chunks_of_a_minute :
  total_chunks 60 = 3%Z /\ all_chunks (60 * 1000)%Q 2.
Proof.
  split; [reflexivity|]. split; [|reflexivity].
  intros j Hj. destruct j as [|[|j]]; [reflexivity | reflexivity | lia].
Qed.

Example utf8_cyrillic : utf8 "Я z" = [1071; 32; 122]%N.
Proof. reflexivity. Qed.

Example collapse_whitespace :
  collapse (utf8 "  ab   c ") = utf8 "ab c".
Proof. reflexivity. Qed.

End Scenarios.

Unset Implicit Arguments.

(** * More about the formatter *)

Section FormatterMore.

Lemma split_all_space (text : str) :
  Forall (fun c => isspace c = true) text -> split text = [].
Proof.
  induction 1 as [|c text Hc Htext IH]; [reflexivity|].
  now rewrite split_cons, Hc.
Qed.

(** X1.  A text without a word (empty, or whitespace only) is formatted
    as the header followed by the statistics with every count at zero;
    the body is empty. *)
Theorem format_blank_text (text : str) :
  Forall (fun c => isspace c = true) text ->
  format_text text
  = utf8 "ТРАНСКРИПЦИЯ АУДИО" ++ [newline]
    ++ utf8 "Количество строк: 0" ++ [newline]
    ++ utf8 "Количество слов: 0" ++ [newline]
    ++ utf8 "Количество символов: 0" ++ [newline]
    ++ utf8 "Количество параграфов: 0" ++ [newline]
  /\
  format_whisper_result text
  = utf8 "ТРАНСКРИПЦИЯ АУДИО (WHISPER)" ++ blank_line
    ++ blank_line ++ utf8 "Статистика:" ++ [newline]
    ++ utf8 "Количество слов: 0" ++ [newline]
    ++ utf8 "Количество символов: 0" ++ [newline]
  /\
  format_vosk_result text
  = utf8 "ТРАНСКРИПЦИЯ АУДИО (VOSK)" ++ blank_line
    ++ blank_line ++ utf8 "Статистика:" ++ [newline]
    ++ utf8 "Количество слов: 0" ++ [newline]
    ++ utf8 "Количество символов: 0" ++ [newline].
Proof.
  intros H. apply split_all_space in H.
  unfold format_text, format_whisper_result, format_vosk_result,
    format_local, collapse.
  rewrite H. repeat split.
Qed.

Lemma format_blank_text_witness :
  format_text (utf8 "  ") = format_text [].
Proof.
  transitivity (utf8 "ТРАНСКРИПЦИЯ АУДИО" ++ [newline]
    ++ utf8 "Количество строк: 0" ++ [newline]
    ++ utf8 "Количество слов: 0" ++ [newline]
    ++ utf8 "Количество символов: 0" ++ [newline]
    ++ utf8 "Количество параграфов: 0" ++ [newline]).
  - refine (proj1 (format_blank_text (utf8 "  ") _)).
    repeat constructor.
  - reflexivity.
Defined.


Lemma length_join_words (ws : list str) :
  length (join [space] ws) = list_sum (map (@length N) ws) + (length ws - 1).
Proof.
  induction ws as [|w ws IH]; [reflexivity|].
  destruct ws as [|w' ws]; [cbn; lia|].
  rewrite join_cons2, !length_app, IH. unfold list_sum.
  cbn [map fold_right length]. lia.
Qed.

Lemma join_cons_char (sep : str) (c : N) (w : str) (ws : list str) :
  join sep ((c :: w) :: ws) = c :: join sep (w :: ws).
Proof. now destruct ws. Qed.

Lemma collapse_shorter (text : str) :
  length (collapse text) <= length text /\
  (at_boundary text -> text <> [] -> length (collapse text) + 1 <= length text).
Proof.
  unfold collapse.
  induction text as [|c text [IH1 IH2]]; [split; [reflexivity | congruence]|].
  rewrite split_cons. destruct (isspace c) eqn:Hc.
  - cbn [length]. split; intros; lia.
  - split; [|cbn [at_boundary]; congruence].
    destruct text as [|d text]; [reflexivity|].
    destruct (isspace d) eqn:Hd.
    + specialize (IH2 Hd ltac:(discriminate)).
      destruct (split (d :: text)) as [|w ws]; [cbn; lia|].
      rewrite join_cons2, !length_app. cbn [length] in *. lia.
    + destruct (split (d :: text)) as [|w ws]; [cbn; lia|].
      rewrite join_cons_char. cbn [length] in *. lia.
Qed.

(** X2.  The character count of the statistics is the number of
    characters of the words plus one for each gap between two words; it
    is never more than the number of characters of the text handed in. *)
Theorem character_count (text : str) :
  let count :=
    list_sum (map (@length N) (split text)) + (length (split text) - 1) in
  count <= length text /\
  (exists before after,
     format_text text
     = before ++ utf8 "Количество символов: " ++ str_of_nat count ++ after) /\
  (forall header, exists before after,
     format_local header text
     = before ++ utf8 "Количество символов: " ++ str_of_nat count ++ after).
Proof.
  intros count.
  assert (Hcount : length (collapse text) = count).
  { unfold collapse. apply length_join_words. }
  split; [rewrite <- Hcount; apply collapse_shorter|].
  split; [|intros header].
  - unfold format_text. cbv zeta. rewrite Hcount.
    match goal with
    | |- exists before after, (?f ++ _) ++ ?rest = _ =>
        exists f, ([newline] ++ rest)
    end.
    now rewrite <- !app_assoc.
  - unfold format_local. cbv zeta. rewrite Hcount.
    match goal with
    | |- exists before after, ?f ++ _ = _ => exists f, [newline]
    end.
    now rewrite <- !app_assoc.
Qed.

End FormatterMore.

Section FormatterCounts.

(** The lines of the body are the rendered lines of the layout. *)
Lemma body_lines_pack (max_line_length paragraph_lines : nat)
    (words : list str) :
  1 <= paragraph_lines -> Forall word_ok words ->
  body_lines (pack max_line_length paragraph_lines words)
  = map render_line (concat (layout max_line_length paragraph_lines words))
  /\ length (pack max_line_length paragraph_lines words)
     = length (layout max_line_length paragraph_lines words).
Proof.
  intros Hcap Hwords. rewrite pack_layout, length_map. split; [|reflexivity].
  destruct (@layout_correct max_line_length paragraph_lines Hcap words)
    as [Hw Hlines Hfull Hlast].
  apply body_lines_layout.
  - eapply Forall_impl; [|exact Hlast]. intros [|l p] H; cbn in H; [lia|].
    discriminate.
  - rewrite <- Hw in Hwords. now rewrite !Forall_concat in Hwords.
Qed.

Lemma length_concat_full {A} (cap : nat) (ls : list (list A)) :
  Forall (fun p => length p = cap) ls ->
  length (concat ls) = cap * length ls.
Proof.
  induction 1 as [|l ls Hl Hls IH]; [cbn; lia|].
  cbn [concat length]. rewrite length_app, IH, Hl. lia.
Qed.

Lemma length_concat_nonempty {A} (ls : list (list A)) :
  Forall (fun l => l <> []) ls -> length ls <= length (concat ls).
Proof.
  induction 1 as [|l ls Hl Hls IH]; [reflexivity|].
  cbn [concat length]. rewrite length_app.
  destruct l; [congruence|]. cbn [length]. lia.
Qed.

Lemma paragraphs_of_lines {A} (cap : nat) (pars : list (list A)) :
  1 <= cap ->
  Forall (fun p => length p = cap) (removelast pars) ->
  Forall (fun p => 1 <= length p <= cap) pars ->
  length pars = (length (concat pars) + cap - 1) / cap.
Proof.
  intros Hcap Hfull Hall.
  destruct pars as [|p0 pars0] eqn:E.
  - cbn. symmetry. apply Nat.div_small. lia.
  - rewrite <- E in *. assert (Hne : pars <> []) by (subst; discriminate).
    destruct (exists_last Hne) as (init & l & ->).
    rewrite removelast_last in Hfull.
    apply Forall_app in Hall. destruct Hall as [_ Hl].
    inversion Hl as [|? ? Hlen _]; subst.
    rewrite concat_app, !length_app, (length_concat_full cap init Hfull).
    cbn [concat length]. rewrite app_nil_r.
    apply Nat.div_unique with (r := length l - 1); lia.
Qed.

(** The counts of a layout. *)
Lemma layout_counts (max_line_length paragraph_lines : nat)
    (words : list str) :
  1 <= paragraph_lines -> Forall word_ok words ->
  let ps := pack max_line_length paragraph_lines words in
  length ps = (length (body_lines ps) + paragraph_lines - 1) / paragraph_lines
  /\ length (body_lines ps) <= length words
  /\ (length (body_lines ps) = 0 <-> words = []).
Proof.
  intros Hcap Hwords ps. subst ps.
  destruct (body_lines_pack max_line_length paragraph_lines words Hcap Hwords)
    as [-> ->].
  destruct (@layout_correct max_line_length paragraph_lines Hcap words)
    as [Hw Hlines Hfull Hlast].
  set (pars := layout max_line_length paragraph_lines words) in *.
  rewrite length_map.
  assert (Hne : Forall (fun l : list str => l <> []) (concat pars)).
  { apply Forall_concat. eapply Forall_impl; [|exact Hlines].
    intros p. apply Forall_impl. now intros l [H _]. }
  pose proof (length_concat_nonempty _ Hne) as Hle. rewrite Hw in Hle.
  split; [now apply paragraphs_of_lines|]. split; [exact Hle|].
  split.
  - intros H0. rewrite <- Hw.
    destruct (concat pars); [reflexivity | discriminate].
  - intros Hnil. rewrite Hnil in Hle. cbn [length] in Hle. lia.
Qed.

(** X3.  The number of paragraphs is the number of body lines divided by
    the cap of lines per paragraph, rounded up (the cap is 5 in main.py
    and 4 in the local backends); there are never more body lines than
    words, and there is no line exactly when there is no word.  In
    [format_text] the number of lines is the line count the statistics
    show. *)
Theorem paragraph_count (text : str) :
  length (text_paragraphs text) = (count_lines (text_paragraphs text) + 4) / 5
  /\ count_lines (text_paragraphs text) <= length (split text)
  /\ (count_lines (text_paragraphs text) = 0 <-> split text = [])
  /\ length (local_paragraphs text)
     = (length (body_lines (local_paragraphs text)) + 3) / 4
  /\ length (body_lines (local_paragraphs text)) <= length (split text)
  /\ (length (body_lines (local_paragraphs text)) = 0 <-> split text = []).
Proof.
  rewrite count_lines_body, text_paragraphs_eq, local_paragraphs_eq.
  destruct (layout_counts 120 5 (split text) ltac:(lia) (split_words_ok text))
    as (H1 & H2 & H3).
  destruct (layout_counts 80 4 (split text) ltac:(lia) (split_words_ok text))
    as (H4 & H5 & H6).
  cbv zeta in *.
  replace (length (body_lines (pack 120 5 (split text))) + 5 - 1)
    with (length (body_lines (pack 120 5 (split text))) + 4) in H1 by lia.
  replace (length (body_lines (pack 80 4 (split text))) + 4 - 1)
    with (length (body_lines (pack 80 4 (split text))) + 3) in H4 by lia.
  repeat split; try assumption; try apply H3; try apply H6.
Qed.

End FormatterCounts.

Section FormatterRoundTrip.

Lemma split_nonspace_nonempty (d : N) (s : str) :
  isspace d = false -> split (d :: s) <> [].
Proof.
  intros Hd. rewrite split_cons, Hd.
  destruct s as [|e s]; [discriminate|].
  destruct (isspace e); [discriminate|].
  destruct (split (e :: s)); discriminate.
Qed.

(** A whitespace character ends the word before it. *)
Lemma split_app_space (a b : str) (c : N) :
  isspace c = true -> split (a ++ c :: b) = split a ++ split b.
Proof.
  intros Hc. induction a as [|x a IH].
  - cbn [app]. now rewrite split_cons, Hc.
  - change ((x :: a) ++ c :: b) with (x :: (a ++ c :: b)).
    rewrite (split_cons x (a ++ c :: b)), (split_cons x a).
    destruct (isspace x); [exact IH|].
    destruct a as [|d a].
    + cbn [app] in *. now rewrite Hc, IH.
    + change ((d :: a) ++ c :: b) with (d :: (a ++ c :: b)) in *.
      cbv beta iota.
      destruct (isspace d) eqn:Hd; [now rewrite IH|].
      rewrite IH.
      pose proof (split_nonspace_nonempty d a Hd) as Hne.
      destruct (split (d :: a)); [congruence | reflexivity].
Qed.

Lemma split_leading_space (sep b : str) :
  Forall (fun c => isspace c = true) sep -> split (sep ++ b) = split b.
Proof.
  induction 1 as [|c sep Hc Hsep IH]; [reflexivity|].
  cbn [app]. now rewrite split_cons, Hc.
Qed.

(** Splitting what was joined by whitespace. *)
Lemma split_join_space (sep : str) (parts : list str) :
  sep <> [] -> Forall (fun c => isspace c = true) sep ->
  split (join sep parts) = concat (map split parts).
Proof.
  intros Hne Hsep. induction parts as [|x parts IH]; [reflexivity|].
  destruct parts as [|y parts].
  - cbn. now rewrite app_nil_r.
  - rewrite join_cons2. destruct sep as [|c sep]; [congruence|].
    inversion Hsep as [|? ? Hc Hsep']; subst.
    cbn [app]. rewrite split_app_space by assumption.
    rewrite split_leading_space by assumption.
    rewrite IH. reflexivity.
Qed.

Lemma body_words (max_line_length paragraph_lines : nat) (words : list str) :
  1 <= paragraph_lines -> Forall word_ok words ->
  split (join blank_line (pack max_line_length paragraph_lines words)) = words.
Proof.
  intros Hcap Hwords.
  rewrite split_join_space; [|discriminate|repeat constructor].
  rewrite pack_layout, map_map.
  destruct (@layout_correct max_line_length paragraph_lines Hcap words)
    as [Hw Hlines Hfull Hlast].
  set (pars := layout max_line_length paragraph_lines words) in *.
  assert (Hok : Forall (Forall (Forall word_ok)) pars).
  { rewrite <- Hw in Hwords. now rewrite !Forall_concat in Hwords. }
  rewrite <- Hw.
  clear - Hok. induction Hok as [|p pars Hp Hpars IH]; [reflexivity|].
  cbn [map concat]. rewrite IH, concat_app. f_equal.
  unfold render_paragraph.
  rewrite split_join_space; [|discriminate|repeat constructor].
  rewrite map_map. clear - Hp.
  induction Hp as [|l' p' Hl Hp IH]; [reflexivity|].
  cbn [map concat]. now rewrite IH, split_render_line.
Qed.

(** X4.  The body of a document read back word by word gives the words
    of the text in order: collapsing the whitespace of the body gives the
    collapsed text, so the re-flow changes whitespace and nothing else. *)
Theorem body_round_trip (text : str) :
  split (join blank_line (text_paragraphs text)) = split text /\
  collapse (join blank_line (text_paragraphs text)) = collapse text /\
  split (join blank_line (local_paragraphs text)) = split text /\
  collapse (join blank_line (local_paragraphs text)) = collapse text.
Proof.
  unfold collapse. rewrite text_paragraphs_eq, local_paragraphs_eq.
  rewrite !body_words by (lia || apply split_words_ok).
  repeat split.
Qed.

End FormatterRoundTrip.

Section GreedyFacts.

Import Greedy.

Variable max_line_length : nat.
Variable paragraph_lines : nat.

Local Abbreviation gstep := (layout_step max_line_length paragraph_lines).
Local Abbreviation link := (Greedy.link max_line_length).
Local Abbreviation greedy_invariant := (Greedy.greedy_invariant max_line_length).

Lemma breaks_ok_cons (slack : nat) (x y : list str) (r : list (list str)) :
  breaks_ok max_line_length slack (x :: y :: r)
  <-> link slack x y /\ breaks_ok max_line_length 0 (y :: r).
Proof. reflexivity. Qed.

(** A word more on the last line breaks no link. *)
Lemma breaks_ok_extend (X : list (list str)) (l : list str) (w : str)
    (slack : nat) :
  l <> [] ->
  breaks_ok max_line_length slack (X ++ [l]) ->
  breaks_ok max_line_length slack (X ++ [l ++ [w]]).
Proof.
  intros Hl. revert slack. induction X as [|x X IH]; intros slack H.
  - exact I.
  - destruct X as [|y X].
    + cbn [app] in *. apply breaks_ok_cons in H. apply breaks_ok_cons.
      destruct H as [H _]. split; [|exact I].
      destruct l; [congruence | exact H].
    + change ((x :: y :: X) ++ [l]) with (x :: y :: (X ++ [l])) in H.
      change ((x :: y :: X) ++ [l ++ [w]])
        with (x :: y :: (X ++ [l ++ [w]])).
      apply breaks_ok_cons in H. apply breaks_ok_cons.
      destruct H as [H1 H2]. split; [exact H1|]. now apply (IH 0).
Qed.

(** A new line after the last one, when its word did not fit. *)
Lemma breaks_ok_new_line (X : list (list str)) (l : list str) (w : str)
    (slack : nat) :
  breaks_ok max_line_length slack (X ++ [l]) ->
  link (match X with [] => slack | _ => 0 end) l [w] ->
  breaks_ok max_line_length slack (X ++ [l] ++ [[w]]).
Proof.
  revert slack. induction X as [|x X IH]; intros slack H Hlink.
  - cbn [app]. apply breaks_ok_cons. split; [exact Hlink | exact I].
  - destruct X as [|y X].
    + cbn [app] in *. apply breaks_ok_cons in H. apply breaks_ok_cons.
      destruct H as [H1 _]. split; [exact H1|].
      apply breaks_ok_cons. split; [exact Hlink | exact I].
    + change ((x :: y :: X) ++ [l]) with (x :: y :: (X ++ [l])) in H.
      change ((x :: y :: X) ++ [l] ++ [[w]])
        with (x :: y :: (X ++ [l] ++ [[w]])).
      apply breaks_ok_cons in H. apply breaks_ok_cons.
      destruct H as [H1 H2]. split; [exact H1|]. now apply (IH 0).
Qed.

Lemma lines_so_far_eq (g : layout_state) :
  lines_so_far g
  = closed_lines g ++ (if truthy (l_line g) then [l_line g] else []).
Proof.
  unfold lines_so_far, closed_lines, flush_line.
  destruct (truthy (l_line g)); [now rewrite app_assoc | now rewrite app_nil_r].
Qed.

Lemma greedy_step (g : layout_state) (word : str) :
  greedy_invariant g -> greedy_invariant (gstep g word).
Proof.
  intros [Hb Hcur]. unfold layout_step.
  destruct (Nat.leb_spec (l_length g + length word + 1) max_line_length)
    as [Hfit|Hwide].
  - (* the word joins the current line *)
    unfold greedy_invariant.
    rewrite lines_so_far_eq in Hb |- *. unfold closed_lines in *.
    cbn [l_line l_length l_paragraphs l_paragraph].
    destruct Hcur as [(Hl & Hz & Hc)|(Hl & Hlen & Hc)].
    + rewrite Hl, Hc, Hz. cbn [app truthy]. split; [exact I|].
      right. split; [discriminate|]. cbn [render_line join].
      split; [lia|]. intros H. now elim H.
    + assert (Ht : truthy (l_line g) = true) by now apply truthy_true.
      assert (Ht' : truthy (l_line g ++ [word]) = true)
        by (apply truthy_true; now destruct (l_line g)).
      rewrite Ht in Hb. rewrite Ht'. split.
      * now apply breaks_ok_extend.
      * right. split; [now destruct (l_line g)|].
        unfold render_line in *. rewrite length_join_snoc by assumption.
        split; [lia|]. intros H. specialize (Hc H). lia.
  - (* the word opens a new line *)
    assert (Hlines : forall g',
      l_line g' = [word] -> l_length g' = length word ->
      closed_lines g' = lines_so_far g ->
      greedy_invariant g').
    { intros g' Hl' Hn' Hc'. unfold greedy_invariant.
      rewrite (lines_so_far_eq g'), Hl', Hn', Hc'. cbn [truthy].
      split.
      - rewrite lines_so_far_eq in Hb |- *.
        destruct Hcur as [(Hl & Hz & Hc)|(Hl & Hlen & Hc)].
        + rewrite Hl, Hc. exact I.
        + assert (Ht : truthy (l_line g) = true) by now apply truthy_true.
          rewrite Ht in Hb |- *. rewrite <- app_assoc.
          apply breaks_ok_new_line; [exact Hb|].
          unfold link.
          destruct (closed_lines g) as [|x X] eqn:Ec.
          * lia.
          * specialize (Hc ltac:(discriminate)). lia.
      - right. split; [discriminate|]. cbn [render_line join].
        split; [lia | reflexivity]. }
    destruct (paragraph_lines <=? length (flush_line g)).
    + apply Hlines; [reflexivity | reflexivity|].
      unfold closed_lines, lines_so_far.
      cbn [l_paragraphs l_paragraph].
      rewrite concat_app. cbn [concat]. now rewrite !app_nil_r.
    + apply Hlines; reflexivity.
Qed.

Lemma greedy_fold (words : list str) (g : layout_state) :
  greedy_invariant g -> greedy_invariant (fold_left gstep words g).
Proof.
  revert g. induction words as [|w words IH]; intros g H; [exact H|].
  cbn [fold_left]. apply IH. now apply greedy_step.
Qed.

(** The finished layout breaks its lines only where it has to. *)
Lemma layout_greedy (words : list str) :
  breaks_ok max_line_length 1
            (concat (layout max_line_length paragraph_lines words)).
Proof.
  unfold layout.
  assert (H0 : greedy_invariant (mkLayout [] 0 [] [])).
  { split; [exact I|]. left. now repeat split. }
  pose proof (greedy_fold words _ H0) as [Hb _].
  set (g := fold_left _ _ _) in *.
  unfold lines_so_far in Hb. unfold layout_finish.
  destruct (flush_line g) as [|l fl] eqn:E; cbn [truthy].
  - now rewrite app_nil_r in Hb.
  - rewrite concat_app. cbn [concat]. now rewrite app_nil_r.
Qed.

Lemma breaks_ok_nth (lines : list (list str)) (slack i : nat)
    (a b : list str) (w : str) :
  breaks_ok max_line_length slack lines ->
  nth_error lines i = Some a ->
  nth_error lines (S i) = Some (w :: b) ->
  max_line_length
  < length (render_line a) + 1 + length w + (if i =? 0 then slack else 0).
Proof.
  revert lines slack. induction i as [|i IH]; intros lines slack H Ha Hb.
  - destruct lines as [|x [|y r]]; try discriminate.
    cbn in Ha, Hb. injection Ha as ->. injection Hb as ->.
    apply breaks_ok_cons in H. destruct H as [H _]. exact H.
  - destruct lines as [|x [|y r]]; try discriminate.
    apply breaks_ok_cons in H. destruct H as [_ H].
    specialize (IH (y :: r) 0 H Ha Hb).
    cbn [Nat.eqb]. destruct (i =? 0); lia.
Qed.

End GreedyFacts.

Section GreedyTheorem.

Lemma pack_greedy (max_line_length paragraph_lines : nat) (words : list str)
    (i : nat) (l1 l2 w : str) (rest : list str) :
  1 <= paragraph_lines -> Forall word_ok words ->
  nth_error (body_lines (pack max_line_length paragraph_lines words)) i
  = Some l1 ->
  nth_error (body_lines (pack max_line_length paragraph_lines words)) (S i)
  = Some l2 ->
  split l2 = w :: rest ->
  max_line_length < length l1 + 1 + length w + (if i =? 0 then 1 else 0).
Proof.
  intros Hcap Hwords H1 H2 Hsplit.
  destruct (body_lines_pack max_line_length paragraph_lines words Hcap Hwords)
    as [Hbody _].
  rewrite Hbody in H1, H2. rewrite nth_error_map in H1, H2.
  set (L := concat (layout max_line_length paragraph_lines words)) in *.
  destruct (nth_error L i) as [a|] eqn:Ea; [|discriminate].
  destruct (nth_error L (S i)) as [b|] eqn:Eb; [|discriminate].
  injection H1 as <-. injection H2 as <-.
  assert (Hb : Forall word_ok b).
  { destruct (@layout_correct max_line_length paragraph_lines Hcap words)
      as [Hw _ _ _].
    rewrite <- Hw in Hwords. rewrite Forall_concat in Hwords.
    rewrite Forall_forall in Hwords. apply Hwords.
    eapply nth_error_In. exact Eb. }
  rewrite split_render_line in Hsplit by assumption. subst b.
  exact (@breaks_ok_nth max_line_length L 1 i a rest w
           (layout_greedy max_line_length paragraph_lines words) Ea Eb).
Qed.

(** X5.  The packing is greedy: where a body line is followed by another,
    the first word of the second did not fit on the first (the first line
    with a space and that word would be wider than the maximum).  The
    first line of the document is the exception by one character: it is
    closed as soon as the line with the word would be as wide as the
    maximum. *)
Theorem greedy_line_breaks (text : str) (i : nat) (l1 l2 w : str)
    (rest : list str) :
  split l2 = w :: rest ->
  (nth_error (body_lines (text_paragraphs text)) i = Some l1 ->
   nth_error (body_lines (text_paragraphs text)) (S i) = Some l2 ->
   120 < length l1 + 1 + length w + (if i =? 0 then 1 else 0)) /\
  (nth_error (body_lines (local_paragraphs text)) i = Some l1 ->
   nth_error (body_lines (local_paragraphs text)) (S i) = Some l2 ->
   80 < length l1 + 1 + length w + (if i =? 0 then 1 else 0)).
Proof.
  intros Hsplit. rewrite text_paragraphs_eq, local_paragraphs_eq.
  split; intros H1 H2.
  - eapply pack_greedy; try eassumption; [lia | apply split_words_ok].
  - eapply pack_greedy; try eassumption; [lia | apply split_words_ok].
Qed.

Lemma greedy_line_breaks_witness :
  80 < length (repeat 97%N 50) + 1 + length (repeat 98%N 50) + 1.
Proof.
  refine (proj2 (greedy_line_breaks
            (repeat 97%N 50 ++ [space] ++ repeat 98%N 50) 0
            (repeat 97%N 50) (repeat 98%N 50) (repeat 98%N 50) [] _) _ _);
    vm_compute; reflexivity.
Defined.

(** The first line gives a character away: two words that make exactly
    80 characters with their space are put on two lines at the top of a
    document, and on one line further down. *)
Example first_line_one_short :
  let a := repeat 97%N 39 in
  let b := repeat 98%N 40 in
  let z := repeat 122%N 80 in
  body_lines (local_paragraphs (a ++ [space] ++ b)) = [a; b] /\
  body_lines (local_paragraphs (z ++ [space] ++ a ++ [space] ++ b))
  = [z; a ++ [space] ++ b].
Proof. vm_compute. split; reflexivity. Qed.

End GreedyTheorem.

(** * More about the segmenter of the local backends *)

Section SegmenterMore.

Import Segmenter SegmenterWorlds.
Open Scope Z_scope.

(** The windows of a split in which nothing fails. *)
Lemma split_audio_windows (b : backend) (w : io) (audio_path : path)
    (segment_length_sec len_audio : Z) :
  0 < segment_length_sec ->
  segment_length_sec * 1000 < len_audio ->
  from_file w audio_path = Some len_audio ->
  makedirs w b = true ->
  (forall q a c, export w q a c = true) ->
  let size := segment_length_sec * 1000 in
  let n := Z.to_nat (len_audio / size) in
  exists tr,
    split_audio b w audio_path segment_length_sec
    = (map (segment_file b audio_path) (seq 0 (S n)), tr) /\
    exported_files tr = map (segment_file b audio_path) (seq 0 (S n)) /\
    windows tr
    = map (fun i => (Z.of_nat i * size, (Z.of_nat i + 1) * size)) (seq 0 n)
      ++ [(len_audio - len_audio mod size, len_audio)].
Proof.
  intros HL Hlong Hload Hdir Hexp size n.
  assert (Hq : 1 <= len_audio / size).
  { apply Z.div_le_lower_bound; unfold size; lia. }
  rewrite (@split_audio_long b w audio_path segment_length_sec len_audio
             Hload HL Hlong Hdir Hexp).
  fold size. replace (Z.to_nat (len_audio / size + 1)) with (S n)
    by (unfold n; lia).
  eexists. split; [reflexivity|].
  split; [unfold exported_files; now rewrite map_map|].
  unfold windows. rewrite map_map, seq_S, map_app. cbn [Nat.add map].
  destruct (@windows_tile segment_length_sec len_audio 0%nat HL ltac:(lia)
              ltac:(fold size; fold n; unfold n; lia)) as [_ Hlast].
  fold size in Hlast. fold n in Hlast.
  f_equal.
  - apply map_ext_in. intros i Hi. apply in_seq in Hi.
    unfold exported.
    destruct (@windows_tile segment_length_sec len_audio i HL ltac:(lia)
                ltac:(fold size; fold n; lia)) as [Hi' _].
    fold size in Hi'. now rewrite Hi'.
  - unfold exported. now rewrite Hlast.
Qed.

(** X6.  When nothing fails on an audio longer than a segment, the
    splitter returns the segment files of the ordinals 1, 2, ... in
    order, [floor(len / size) + 1] of them ([size] being the length of a
    segment in milliseconds); each but the last is cut at [size]
    milliseconds from where the one before it ends, starting at 0, and
    the last holds the [len mod size] milliseconds that are left. *)
Theorem split_segments_tile (b : backend) (w : io) (audio_path : path)
    (segment_length_sec len_audio : Z) :
  0 < segment_length_sec ->
  segment_length_sec * 1000 < len_audio ->
  from_file w audio_path = Some len_audio ->
  makedirs w b = true ->
  (forall q a c, export w q a c = true) ->
  let size := segment_length_sec * 1000 in
  let n := Z.to_nat (len_audio / size) in
  exists tr,
    split_audio b w audio_path segment_length_sec
    = (map (fun i => SegmentWav b audio_path (Z.of_nat i + 1)) (seq 0 (S n)),
       tr) /\
    exported_files tr
    = map (fun i => SegmentWav b audio_path (Z.of_nat i + 1)) (seq 0 (S n)) /\
    windows tr
    = map (fun i => (Z.of_nat i * size, Z.of_nat i * size + size)) (seq 0 n)
      ++ [(len_audio - len_audio mod size, len_audio)].
Proof.
  intros HL Hlong Hload Hdir Hexp size n.
  destruct (split_audio_windows b w audio_path segment_length_sec len_audio
              HL Hlong Hload Hdir Hexp) as (tr & E & Hf & Hw).
  fold size in Hw. fold n in Hw, E, Hf.
  exists tr. split; [exact E|]. split; [exact Hf|].
  rewrite Hw. f_equal. apply map_ext. intros i. f_equal. lia.
Qed.

Lemma split_segments_tile_witness :
  exists tr,
    split_audio_for_whisper (healthy 75000) (Given (utf8 "talk.wav")) 30
    = (map (fun i => SegmentWav Whisper (Given (utf8 "talk.wav"))
                       (Z.of_nat i + 1)) (seq 0 3), tr) /\
    exported_files tr
    = map (fun i => SegmentWav Whisper (Given (utf8 "talk.wav"))
                      (Z.of_nat i + 1)) (seq 0 3) /\
    windows tr
    = map (fun i => (Z.of_nat i * 30000, Z.of_nat i * 30000 + 30000))
          (seq 0 2)
      ++ [(60000, 75000)].
Proof.
  refine (split_segments_tile Whisper (healthy 75000)
            (Given (utf8 "talk.wav")) 30 75000 _ _ _ _ _);
    try reflexivity; lia.
Defined.

(** X7.  When the length of the audio is not a whole number of segments
    (and nothing fails), the number of segments is the length divided by
    the segment length, rounded up, and no segment is empty. *)
Theorem split_count_rounds_up (b : backend) (w : io) (audio_path : path)
    (segment_length_sec len_audio : Z) :
  0 < segment_length_sec ->
  segment_length_sec * 1000 < len_audio ->
  len_audio mod (segment_length_sec * 1000) <> 0 ->
  from_file w audio_path = Some len_audio ->
  makedirs w b = true ->
  (forall q a c, export w q a c = true) ->
  exists segments tr,
    split_audio b w audio_path segment_length_sec = (segments, tr) /\
    (Z.of_nat (length segments) - 1) * (segment_length_sec * 1000) < len_audio
      <= Z.of_nat (length segments) * (segment_length_sec * 1000) /\
    Forall (fun win => fst win < snd win) (windows tr).
Proof.
  intros HL Hlong Hmod Hload Hdir Hexp.
  destruct (split_audio_windows b w audio_path segment_length_sec len_audio
              HL Hlong Hload Hdir Hexp) as (tr & E & _ & Hw).
  set (size := segment_length_sec * 1000) in *.
  set (n := Z.to_nat (len_audio / size)) in *.
  pose proof (Z.div_mod len_audio size ltac:(unfold size; lia)) as Hdm.
  pose proof (Z.mod_pos_bound len_audio size ltac:(unfold size; lia)) as Hb.
  assert (Hq : 0 <= len_audio / size)
    by (apply Z.div_pos; unfold size; lia).
  do 2 eexists. split; [exact E|]. split.
  - rewrite length_map, length_seq.
    replace (Z.of_nat (S n)) with (len_audio / size + 1) by (unfold n; lia).
    nia.
  - rewrite Hw. apply Forall_app. split.
    + apply Forall_map, Forall_forall. intros i _. cbn [fst snd].
      unfold size. lia.
    + constructor; [|constructor]. cbn [fst snd]. lia.
Qed.

Lemma split_count_rounds_up_witness :
  exists segments tr,
    split_audio_for_vosk (healthy 700000) (Given (utf8 "talk.wav")) 300
    = (segments, tr) /\
    (Z.of_nat (length segments) - 1) * (300 * 1000) < 700000
      <= Z.of_nat (length segments) * (300 * 1000) /\
    Forall (fun win => fst win < snd win) (windows tr).
Proof.
  refine (split_count_rounds_up Vosk (healthy 700000)
            (Given (utf8 "talk.wav")) 300 700000 _ _ _ _ _ _);
    try reflexivity; try lia.
  vm_compute. discriminate.
Defined.

(** The loop up to the first export that fails. *)
Lemma export_loop_first_failure (b : backend) (w : io) (audio_path : path)
    (segment_length_sec len_audio : Z) (done : list nat) (i : nat)
    (rest : list nat) (segments : list path) :
  (forall j, In j done ->
     export w (segment_file b audio_path j)
            (fst (window segment_length_sec len_audio j))
            (snd (window segment_length_sec len_audio j)) = true) ->
  export w (segment_file b audio_path i)
         (fst (window segment_length_sec len_audio i))
         (snd (window segment_length_sec len_audio i)) = false ->
  export_loop b w audio_path segment_length_sec len_audio
              (done ++ i :: rest) segments
  = (Raised, map (exported b audio_path segment_length_sec len_audio) done).
Proof.
  revert segments. induction done as [|j done IH]; intros segments Hok Hfail.
  - cbn [app export_loop map].
    unfold segment_file, window in Hfail. cbn [fst snd] in Hfail.
    now rewrite Hfail.
  - cbn [app export_loop map].
    pose proof (Hok j (or_introl eq_refl)) as Hj.
    unfold segment_file, window in Hj. cbn [fst snd] in Hj. rewrite Hj.
    rewrite IH by (auto; intros k Hk; apply Hok; now right).
    reflexivity.
Qed.

(** X8.  When the export of a segment fails after [i] segments have been
    written, the splitter gives back the path it was given, as if the
    audio had not been split, and the [i] segment files stay where they
    are. *)
Theorem failed_split_leaves_segments (b : backend) (w : io)
    (audio_path : path) (segment_length_sec len_audio : Z) (i : nat) :
  0 < segment_length_sec ->
  segment_length_sec * 1000 < len_audio ->
  from_file w audio_path = Some len_audio ->
  makedirs w b = true ->
  (i <= Z.to_nat (len_audio / (segment_length_sec * 1000)))%nat ->
  (forall j, (j < i)%nat ->
     export w (segment_file b audio_path j)
            (fst (window segment_length_sec len_audio j))
            (snd (window segment_length_sec len_audio j)) = true) ->
  export w (segment_file b audio_path i)
         (fst (window segment_length_sec len_audio i))
         (snd (window segment_length_sec len_audio i)) = false ->
  exists tr,
    split_audio b w audio_path segment_length_sec = ([audio_path], tr) /\
    exported_files tr
    = map (fun j => SegmentWav b audio_path (Z.of_nat j + 1)) (seq 0 i).
Proof.
  intros HL Hlong Hload Hdir Hi Hok Hfail.
  unfold split_audio.
  rewrite (@split_body_long b w audio_path segment_length_sec len_audio
             Hload HL Hlong Hdir).
  assert (Hq : 0 <= len_audio / (segment_length_sec * 1000))
    by (apply Z.div_pos; lia).
  set (m := Z.to_nat (len_audio / (segment_length_sec * 1000) + 1)).
  assert (Hseq : seq 0 m = seq 0 i ++ i :: seq (S i) (m - S i)).
  { replace m with (i + S (m - S i))%nat at 1 by (unfold m; lia).
    rewrite seq_app. reflexivity. }
  rewrite Hseq.
  rewrite export_loop_first_failure;
    [|intros j Hj; apply Hok; apply in_seq in Hj; lia|exact Hfail].
  eexists. split; [reflexivity|].
  unfold exported_files. rewrite map_map. apply map_ext. reflexivity.
Qed.

Lemma failed_split_leaves_segments_witness :
  exists tr,
    split_audio_for_whisper (failing_at 75000 3) (Given (utf8 "talk.wav")) 30
    = ([Given (utf8 "talk.wav")], tr) /\
    exported_files tr
    = map (fun j => SegmentWav Whisper (Given (utf8 "talk.wav"))
                      (Z.of_nat j + 1)) (seq 0 2).
Proof.
  refine (failed_split_leaves_segments Whisper (failing_at 75000 3)
            (Given (utf8 "talk.wav")) 30 75000 2 _ _ _ _ _ _ _);
    try reflexivity; try lia.
  intros j Hj. destruct j as [|[|j]]; [reflexivity | reflexivity | lia].
Defined.

End SegmenterMore.

(** * More about the run of [audio_to_text] *)

Section RunMore.

Import Pipeline PipelineMore.

Lemma retry_loop_events (w : world) (c : Z) (range : list nat)
    (r : retried) (tr : list event) :
  retry_loop w c range = (r, tr) ->
  Forall (fun e => loop_event e = true) tr.
Proof.
  revert r tr. induction range as [|a range IH]; intros r tr.
  - cbn. intros [= <- <-]. constructor.
  - cbn [retry_loop].
    assert (Hb : Forall (fun e => loop_event e = true) (backoff a)).
    { unfold backoff. destruct (a <? max_retries - 1); repeat constructor. }
    destruct (recognize_google w c a).
    + intros [= <- <-]. repeat constructor.
    + destruct (retry_loop w c range) as [r' tr'] eqn:E.
      intros [= <- <-]. constructor; [reflexivity|].
      apply Forall_app. split; [exact Hb | now apply (IH r')].
    + destruct (retry_loop w c range) as [r' tr'] eqn:E.
      intros [= <- <-]. constructor; [reflexivity|].
      apply Forall_app. split; [exact Hb | now apply (IH r')].
    + intros [= <- <-]. repeat constructor.
Qed.

Lemma process_chunk_events (w : world) (src : path) (len_audio offset : Z)
    (full_text : list str) (r : result (list str)) (tr : list event) :
  process_chunk w src len_audio offset full_text = (r, tr) ->
  Forall (fun e => loop_event e = true) tr.
Proof.
  unfold process_chunk, save_audio_chunk.
  destruct (save_ok w _); [|intros [= <- <-]; constructor].
  destruct (record_ok w _); [|intros [= <- <-]; repeat constructor].
  destruct (retry_loop w _ (seq 0 max_retries)) as [rr tr'] eqn:E.
  pose proof (retry_loop_events _ _ _ _ _ E) as H.
  destruct rr; intros [= <- <-]; (constructor; [reflexivity | exact H]).
Qed.

Lemma chunk_loop_events (w : world) (src : path) (len_audio : Z) (limit : Q)
    (fuel : nat) (offset : Z) (full_text : list str)
    (r : result (list str)) (tr : list event) :
  chunk_loop fuel w src len_audio limit offset full_text = Some (r, tr) ->
  Forall (fun e => loop_event e = true) tr.
Proof.
  revert offset full_text r tr.
  induction fuel as [|fuel IH]; intros offset full_text r tr;
    cbn [chunk_loop]; destruct (Qlt_bool (inject_Z offset) limit);
    try discriminate; try (intros [= <- <-]; constructor).
  destruct (process_chunk w src len_audio offset full_text)
    as [r1 tr1] eqn:E1.
  pose proof (process_chunk_events _ _ _ _ _ _ _ E1) as H1.
  destruct r1 as [full_text1|]; [|intros [= <- <-]; exact H1].
  destruct (chunk_loop fuel w src len_audio limit
              (offset + chunk_duration) full_text1)
    as [[r2 tr2]|] eqn:E2; [|discriminate].
  intros [= <- <-]. apply Forall_app. split; [exact H1|].
  constructor; [reflexivity|]. now apply (IH _ _ _ _ E2).
Qed.

Lemma loop_events_keep_files (tr : list event) :
  Forall (fun e => loop_event e = true) tr ->
  removed tr = [] /\ converted tr = [] /\ written tr = [].
Proof.
  induction 1 as [|e tr He Htr (IH1 & IH2 & IH3)]; [now repeat split|].
  destruct e; try discriminate; cbn; auto.
Qed.

(** A run, with the file it works on. *)
Lemma audio_to_text_source (w : world) (fuel : nat) (audio_path : path)
    (ok : bool) (tr : list event) :
  audio_to_text fuel w audio_path = Some (ok, tr) ->
  (undecodable w audio_path /\ ok = false /\
   (tr = [] \/ tr = [Converted audio_path]))
  \/
  exists len_audio duration r loop_tr,
    DURATION w (source_of audio_path) = Some duration /\
    chunk_loop fuel w (source_of audio_path) len_audio
               (duration * 1000)%Q 0 [] = Some (r, loop_tr) /\
    match r with
    | Raised =>
        ok = false /\
        tr = (if is_wav audio_path then [] else [Converted audio_path])
             ++ loop_tr
    | Returned full_text =>
        ok = fst (save_transcript w (source_of audio_path) full_text) /\
        tr = (if is_wav audio_path then [] else [Converted audio_path])
             ++ loop_tr
             ++ snd (save_transcript w (source_of audio_path) full_text)
    end.
Proof.
  unfold audio_to_text, convert_audio_to_wav, undecodable, source_of.
  destruct (is_wav audio_path); cbn [negb].
  - destruct (from_wav w audio_path) as [len_audio|] eqn:Hlen.
    2:{ intros [= <- <-]. left. auto. }
    destruct (DURATION w audio_path) as [duration|] eqn:Hdur.
    2:{ intros [= <- <-]. left. auto. }
    destruct (chunk_loop fuel w audio_path len_audio (duration * 1000)%Q 0 [])
      as [[r loop_tr]|] eqn:Eloop; [|discriminate].
    intros E. right. exists len_audio, duration, r, loop_tr.
    split; [reflexivity|]. split; [exact Eloop|].
    destruct r as [full_text|].
    + destruct (save_transcript w audio_path full_text) as [ok' post].
      now injection E as <- <-.
    + now injection E as <- <-.
  - destruct (convert_ok w audio_path) eqn:Hconv.
    2:{ intros [= <- <-]. left. auto. }
    destruct (from_wav w (TempWav audio_path)) as [len_audio|] eqn:Hlen.
    2:{ intros [= <- <-]. left. auto. }
    destruct (DURATION w (TempWav audio_path)) as [duration|] eqn:Hdur.
    2:{ intros [= <- <-]. left. auto. }
    destruct (chunk_loop fuel w (TempWav audio_path) len_audio
                (duration * 1000)%Q 0 [])
      as [[r loop_tr]|] eqn:Eloop; [|discriminate].
    intros E. right. exists len_audio, duration, r, loop_tr.
    split; [reflexivity|]. split; [exact Eloop|].
    destruct r as [full_text|].
    + destruct (save_transcript w (TempWav audio_path) full_text)
        as [ok' post].
      now injection E as <- <-.
    + now injection E as <- <-.
Qed.

Lemma removed_app (a b : list event) : removed (a ++ b) = removed a ++ removed b.
Proof. apply flat_map_app. Qed.

Lemma removed_prefix (audio_path : path) :
  removed (if is_wav audio_path then [] else [Converted audio_path]) = [] /\
  written (if is_wav audio_path then [] else [Converted audio_path]) = [] /\
  saved_chunks (if is_wav audio_path then [] else [Converted audio_path]) = [].
Proof. destruct (is_wav audio_path); now repeat split. Qed.

(** What a run removes and writes, by its result. *)
Lemma run_files (w : world) (fuel : nat) (audio_path : path) (ok : bool)
    (tr : list event) :
  audio_to_text fuel w audio_path = Some (ok, tr) ->
  let src := source_of audio_path in
  (ok = true ->
   removed tr = (if is_temp_wav src then [src] else []) /\
   exists full_text,
     written tr = [(OutputTxt src, format_text (join [space] full_text))]) /\
  (ok = false ->
   removed tr = [] /\
   (written tr <> [] ->
    is_temp_wav src = true /\ remove_ok w src = false)).
Proof.
  intros E src.
  destruct (audio_to_text_source _ _ _ _ _ E)
    as [(_ & -> & [-> | ->])
       |(len_audio & duration & r & loop_tr & Hdur & Eloop & Hr)].
  - split; [discriminate|]. intros _. split; [reflexivity|]. now intros H.
  - split; [discriminate|]. intros _. split; [reflexivity|]. now intros H.
  - fold src in Eloop, Hr.
    destruct (loop_events_keep_files _ (chunk_loop_events _ _ _ _ _ _ _ _ _ Eloop))
      as (Hlr & _ & Hlw).
    destruct (removed_prefix audio_path) as (Hpr & Hpw & _).
    destruct r as [full_text|].
    + destruct Hr as [-> ->].
      rewrite !removed_app, !written_app, Hpr, Hpw, Hlr, Hlw. cbn [app].
      unfold save_transcript.
      destruct (write_ok w (OutputTxt src)); cbn [fst snd].
      * destruct (is_temp_wav src); [destruct (remove_ok w src)|];
          cbn [fst snd]; (split; [intros Hok|intros Hok]);
          try discriminate Hok.
        -- split; [reflexivity|]. now eexists.
        -- split; [reflexivity|]. now intros _.
        -- split; [reflexivity|]. now eexists.
      * split; [discriminate|]. intros _. split; [reflexivity|].
        now intros H.
    + destruct Hr as [-> ->].
      rewrite !removed_app, !written_app, Hpr, Hpw, Hlr, Hlw.
      split; [discriminate|]. intros _. split; [reflexivity|]. now intros H.
Qed.

End RunMore.

Section RunFiles.

Import Pipeline PipelineMore.

Lemma process_chunk_names (w : world) (src : path) (len_audio offset : Z)
    (full_text : list str) (r : result (list str)) (tr : list event) :
  process_chunk w src len_audio offset full_text = (r, tr) ->
  Forall (fun q => exists c, q = ChunkWav src c) (saved_chunks tr).
Proof.
  unfold process_chunk, save_audio_chunk.
  destruct (save_ok w _); [|intros [= <- <-]; constructor].
  destruct (record_ok w _); [|intros [= <- <-]; repeat econstructor].
  destruct (retry_loop w _ (seq 0 max_retries)) as [rr tr'] eqn:Er.
  destruct (retry_loop_trace _ _ _ Er) as (_ & _ & _ & Hs & _).
  assert (H : forall q a b,
            Forall (fun q => exists c, q = ChunkWav src c)
                   (saved_chunks (SavedChunk (ChunkWav src q) a b :: tr'))).
  { intros q a b.
    change (saved_chunks (SavedChunk (ChunkWav src q) a b :: tr'))
      with (ChunkWav src q :: saved_chunks tr').
    rewrite Hs. repeat econstructor. }
  destruct rr; intros [= <- <-]; apply H.
Qed.

Lemma chunk_loop_names (w : world) (src : path) (len_audio : Z) (limit : Q)
    (fuel : nat) (offset : Z) (full_text : list str)
    (r : result (list str)) (tr : list event) :
  chunk_loop fuel w src len_audio limit offset full_text = Some (r, tr) ->
  Forall (fun q => exists c, q = ChunkWav src c) (saved_chunks tr).
Proof.
  revert offset full_text r tr.
  induction fuel as [|fuel IH]; intros offset full_text r tr;
    cbn [chunk_loop]; destruct (Qlt_bool (inject_Z offset) limit);
    try discriminate; try (intros [= <- <-]; constructor).
  destruct (process_chunk w src len_audio offset full_text)
    as [r1 tr1] eqn:E1.
  pose proof (process_chunk_names _ _ _ _ _ _ _ E1) as H1.
  destruct r1 as [full_text1|]; [|intros [= <- <-]; exact H1].
  destruct (chunk_loop fuel w src len_audio limit
              (offset + chunk_duration) full_text1)
    as [[r2 tr2]|] eqn:E2; [|discriminate].
  intros [= <- <-]. rewrite saved_chunks_app.
  apply Forall_app. split; [exact H1|].
  change (saved_chunks (Sleep 100 :: tr2)) with (saved_chunks tr2).
  now apply (IH _ _ _ _ E2).
Qed.

(** The chunk files of a run are named after the file it works on. *)
Lemma run_chunk_names (w : world) (fuel : nat) (audio_path : path)
    (ok : bool) (tr : list event) :
  audio_to_text fuel w audio_path = Some (ok, tr) ->
  Forall (fun q => exists c, q = ChunkWav (source_of audio_path) c)
         (saved_chunks tr).
Proof.
  intros E.
  destruct (audio_to_text_source _ _ _ _ _ E)
    as [(_ & _ & [-> | ->])
       |(len_audio & duration & r & loop_tr & Hdur & Eloop & Hr)];
    try constructor.
  pose proof (chunk_loop_names _ _ _ _ _ _ _ _ _ Eloop) as Hloop.
  destruct (removed_prefix audio_path) as (_ & _ & Hps).
  destruct r as [full_text|]; destruct Hr as [_ ->];
    rewrite !saved_chunks_app, Hps; cbn [app]; [|exact Hloop].
  apply Forall_app. split; [exact Hloop|].
  destruct (save_transcript_cases w (source_of audio_path) full_text)
    as [-> | (rest & -> & Hrs & _)]; [constructor|].
  change (saved_chunks (WroteText (OutputTxt (source_of audio_path))
            (format_text (join [space] full_text)) :: rest))
    with (saved_chunks rest).
  rewrite Hrs. constructor.
Qed.

Lemma not_own_chunk (p : path) (c : Z) : p <> ChunkWav p c.
Proof.
  induction p; intros H; try discriminate.
  injection H as H1 H2. subst. now apply IHp.
Qed.

(** X9.  A run removes one file at most: the WAV file it worked on, when
    the name of that file ends in [_temp.wav] and the run returns [True].
    A run that returns [False] removes nothing, so the temporary WAV file
    of a converted input stays behind; the chunk files are never
    removed. *)
Theorem removal_policy (w : world) (fuel : nat) (audio_path : path)
    (ok : bool) (tr : list event) :
  audio_to_text fuel w audio_path = Some (ok, tr) ->
  removed tr
  = (if ok && is_temp_wav (source_of audio_path)
     then [source_of audio_path] else []) /\
  (is_wav audio_path = false ->
   removed tr = if ok then [TempWav audio_path] else []) /\
  Forall (fun f => ~ In f (saved_chunks tr)) (removed tr).
Proof.
  intros E. destruct (run_files _ _ _ _ _ E) as [Htrue Hfalse].
  assert (Hr : removed tr
               = (if ok && is_temp_wav (source_of audio_path)
                  then [source_of audio_path] else [])).
  { destruct ok; cbn [andb].
    - now destruct (Htrue eq_refl).
    - now destruct (Hfalse eq_refl). }
  split; [exact Hr|]. split.
  - intros Hwav. rewrite Hr. unfold source_of. rewrite Hwav.
    now destruct ok.
  - rewrite Hr. destruct (ok && is_temp_wav (source_of audio_path));
      [|constructor].
    constructor; [|constructor]. intros Hin.
    pose proof (run_chunk_names _ _ _ _ _ E) as Hnames.
    rewrite Forall_forall in Hnames. destruct (Hnames _ Hin) as (c & Hc).
    exact (not_own_chunk _ _ Hc).
Qed.

Lemma removal_policy_witness :
  removed (trace_of (audio_to_text 1 sticky (Given (utf8 "hi.mp3")))) = [].
Proof.
  refine (proj1 (proj2 (removal_policy sticky 1 (Given (utf8 "hi.mp3")) false
            (trace_of (audio_to_text 1 sticky (Given (utf8 "hi.mp3")))) _)) _);
    reflexivity.
Defined.

End RunFiles.

Section RunNames.

Import Pipeline PipelineMore.

Lemma startswith_app (s p q : str) :
  startswith s (p ++ q) = true -> startswith s p = true.
Proof.
  revert s. induction p as [|c p IH]; intros s H; [now destruct s|].
  destruct s as [|d s]; [discriminate|].
  cbn [app startswith] in *. apply andb_prop in H. destruct H as [H1 H2].
  rewrite H1. cbn [andb]. now apply IH.
Qed.

Lemma startswith_lower (s p : str) :
  lower p = p -> startswith s p = true -> startswith (lower s) p = true.
Proof.
  revert s. induction p as [|c p IH]; intros s Hp H; [now destruct s|].
  destruct s as [|d s]; [discriminate|].
  cbn [startswith] in H. apply andb_prop in H. destruct H as [H1 H2].
  apply N.eqb_eq in H1. subst d.
  cbn [lower map] in Hp |- *. injection Hp as Hc Hp. fold (lower p) in Hp.
  fold (lower s). cbn [startswith]. rewrite Hc, N.eqb_refl. cbn [andb].
  now apply IH.
Qed.

(** A name that ends in [_temp.wav] is the name of a WAV file. *)
Lemma temp_name_is_wav (name : str) :
  is_temp_wav (Given name) = true -> is_wav (Given name) = true.
Proof.
  cbn [is_temp_wav is_wav]. unfold endswith, lower.
  rewrite <- map_rev. fold (lower (rev name)).
  intros H. apply startswith_lower; [reflexivity|].
  apply startswith_app with (q := rev (utf8 "_temp")). exact H.
Qed.

Lemma converted_app (a b : list event) :
  converted (a ++ b) = converted a ++ converted b.
Proof. apply flat_map_app. Qed.

Lemma save_transcript_converts_nothing (w : world) (src : path)
    (full_text : list str) :
  converted (snd (save_transcript w src full_text)) = [].
Proof.
  unfold save_transcript.
  destruct (write_ok w _); [|reflexivity].
  destruct (is_temp_wav _); [destruct (remove_ok w _)|]; reflexivity.
Qed.

(** X10.  The run takes a file for its own temporary file by its name: an
    input whose name ends in [_temp.wav] is not converted, and when the
    run returns [True] that input file is the file it removes. *)
Theorem input_named_temp_is_removed (w : world) (fuel : nat) (name : str)
    (tr : list event) :
  endswith name (utf8 "_temp.wav") = true ->
  audio_to_text fuel w (Given name) = Some (true, tr) ->
  removed tr = [Given name] /\ converted tr = [] /\
  exists full_text,
    written tr
    = [(OutputTxt (Given name), format_text (join [space] full_text))].
Proof.
  intros Hname E.
  assert (Htemp : is_temp_wav (Given name) = true) by exact Hname.
  pose proof (temp_name_is_wav name Htemp) as Hwav.
  destruct (run_files _ _ _ _ _ E) as [Htrue _].
  destruct (Htrue eq_refl) as [Hr Hw].
  unfold source_of in Hr, Hw. rewrite Hwav in Hr, Hw. rewrite Htemp in Hr.
  split; [exact Hr|]. split; [|exact Hw].
  destruct (audio_to_text_source _ _ _ _ _ E)
    as [(_ & H & _)
       |(len_audio & duration & r & loop_tr & Hdur & Eloop & Hr')];
    [discriminate|].
  destruct (loop_events_keep_files _ (chunk_loop_events _ _ _ _ _ _ _ _ _ Eloop))
    as (_ & Hlc & _).
  rewrite Hwav in Hr'.
  destruct r as [full_text|]; [|destruct Hr' as [Hf _]; discriminate Hf].
  destruct Hr' as [_ ->].
  rewrite !converted_app, Hlc. apply save_transcript_converts_nothing.
Qed.

Lemma input_named_temp_is_removed_witness :
  removed (trace_of (audio_to_text 1 greeting (Given (utf8 "hi_temp.wav"))))
  = [Given (utf8 "hi_temp.wav")].
Proof.
  refine (proj1 (input_named_temp_is_removed greeting 1 (utf8 "hi_temp.wav")
            (trace_of (audio_to_text 1 greeting (Given (utf8 "hi_temp.wav"))))
            _ _)); reflexivity.
Defined.

(** X11.  The result of a run and its text file: a run that returns
    [True] has written the text file, one file, named after the WAV file
    it worked on; for an input that is not a WAV file that is the
    temporary conversion, so that the text file and the chunk files carry
    the suffix [_temp] of the conversion in their names.  A run that
    returns [False] has written a text file only if removing the
    temporary WAV file was what failed. *)
Theorem result_and_transcript (w : world) (fuel : nat) (audio_path : path)
    (ok : bool) (tr : list event) :
  audio_to_text fuel w audio_path = Some (ok, tr) ->
  (ok = true ->
   exists full_text,
     written tr
     = [(OutputTxt (source_of audio_path),
         format_text (join [space] full_text))]) /\
  (ok = false -> written tr <> [] ->
   is_temp_wav (source_of audio_path) = true /\
   remove_ok w (source_of audio_path) = false) /\
  (is_wav audio_path = false ->
   source_of audio_path = TempWav audio_path /\
   Forall (fun q => exists c, q = ChunkWav (TempWav audio_path) c)
          (saved_chunks tr)) /\
  (is_wav audio_path = true ->
   source_of audio_path = audio_path /\
   Forall (fun q => exists c, q = ChunkWav audio_path c) (saved_chunks tr)).
Proof.
  intros E. destruct (run_files _ _ _ _ _ E) as [Htrue Hfalse].
  pose proof (run_chunk_names _ _ _ _ _ E) as Hnames.
  split; [intros H; now destruct (Htrue H)|].
  split; [intros H; now destruct (Hfalse H)|].
  unfold source_of in *.
  split; intros Hwav; rewrite Hwav in *; now split.
Qed.

Lemma result_and_transcript_witness :
  is_temp_wav (source_of (Given (utf8 "hi.mp3"))) = true /\
  remove_ok sticky (source_of (Given (utf8 "hi.mp3"))) = false.
Proof.
  refine (proj1 (proj2 (result_and_transcript sticky 1 (Given (utf8 "hi.mp3"))
            false (trace_of (audio_to_text 1 sticky (Given (utf8 "hi.mp3"))))
            _)) _ _).
  - reflexivity.
  - reflexivity.
  - vm_compute. discriminate.
Defined.

End RunNames.

Section RunAbort.

Import Pipeline PipelineMore.
Open Scope Z_scope.

Lemma backoff_calls (a : nat) :
  recognize_calls (backoff a) = [] /\ saved_chunks (backoff a) = [].
Proof. unfold backoff. now destruct (a <? max_retries - 1)%nat. Qed.

(** An unexpected error ends the retry loop. *)
Lemma retry_loop_fatal (w : world) (c : Z) (range : list nat) (r : retried)
    (tr : list event) (a : nat) :
  retry_loop w c range = (r, tr) ->
  In (c, a) (recognize_calls tr) ->
  recognize_google w c a = OtherError ->
  r = Propagated.
Proof.
  revert r tr. induction range as [|a0 range IH]; intros r tr.
  - cbn. intros [= <- <-] [].
  - cbn [retry_loop].
    assert (Hstep : forall r' tr',
      retry_loop w c range = (r', tr') ->
      transient (recognize_google w c a0) = true ->
      In (c, a) (recognize_calls (Recognize c a0 :: backoff a0 ++ tr')) ->
      recognize_google w c a = OtherError -> r' = Propagated).
    { intros r' tr' E Ht Hin Herr.
      change (recognize_calls (Recognize c a0 :: backoff a0 ++ tr'))
        with ((c, a0) :: recognize_calls (backoff a0 ++ tr')) in Hin.
      rewrite recognize_calls_app, (proj1 (backoff_calls a0)) in Hin.
      destruct Hin as [[= <-]|Hin].
      - rewrite Herr in Ht. discriminate.
      - now apply (IH r' tr'). }
    destruct (recognize_google w c a0) eqn:Ha0.
    + intros [= <- <-] [[= <-]|[]] Herr. congruence.
    + destruct (retry_loop w c range) as [r' tr'] eqn:E.
      intros [= <- <-]. now apply Hstep.
    + destruct (retry_loop w c range) as [r' tr'] eqn:E.
      intros [= <- <-]. now apply Hstep.
    + now intros [= <- <-].
Qed.

(** The calls of one pass are calls for the chunk of that pass. *)
Lemma process_chunk_calls (w : world) (src : path) (len_audio offset : Z)
    (full_text : list str) (r : result (list str)) (tr : list event) :
  process_chunk w src len_audio offset full_text = (r, tr) ->
  Forall (fun call => fst call = offset / chunk_duration + 1)
         (recognize_calls tr) /\
  (forall a, In (offset / chunk_duration + 1, a) (recognize_calls tr) ->
             recognize_google w (offset / chunk_duration + 1) a = OtherError ->
             r = Raised).
Proof.
  unfold process_chunk, save_audio_chunk.
  set (c := offset / chunk_duration + 1).
  destruct (save_ok w _); [|intros [= <- <-]; split; [constructor|now intros a []]].
  destruct (record_ok w _);
    [|intros [= <- <-]; split; [constructor|now intros a []]].
  destruct (retry_loop w c (seq 0 max_retries)) as [rr tr'] eqn:Er.
  destruct (retry_loop_trace _ _ _ Er) as (_ & Hc & _).
  pose proof (fun a => @retry_loop_fatal w c _ rr tr' a Er) as Hf.
  destruct rr; intros [= <- <-];
    (split; [exact Hc|]); intros a Hin Herr;
    specialize (Hf a Hin Herr); congruence.
Qed.

Lemma chunk_loop_calls (w : world) (src : path) (len_audio : Z) (limit : Q)
    (fuel : nat) (offset : Z) (full_text : list str)
    (r : result (list str)) (tr : list event) :
  chunk_loop fuel w src len_audio limit offset full_text = Some (r, tr) ->
  Forall (fun call => offset / chunk_duration + 1 <= fst call)
         (recognize_calls tr) /\
  (forall c a, In (c, a) (recognize_calls tr) ->
               recognize_google w c a = OtherError ->
               r = Raised /\
               Forall (fun call => fst call <= c) (recognize_calls tr)).
Proof.
  revert offset full_text r tr.
  induction fuel as [|fuel IH]; intros offset full_text r tr;
    cbn [chunk_loop]; destruct (Qlt_bool (inject_Z offset) limit);
    try discriminate;
    try (intros [= <- <-]; split; [constructor|now intros c a []]).
  destruct (process_chunk w src len_audio offset full_text)
    as [r1 tr1] eqn:E1.
  destruct (process_chunk_calls _ _ _ _ _ _ _ E1) as [Hc1 Hf1].
  assert (Hlow1 : Forall (fun call => offset / chunk_duration + 1 <= fst call)
                         (recognize_calls tr1)).
  { eapply Forall_impl; [|exact Hc1]. intros call Hcall; cbv beta in *; lia. }
  destruct r1 as [full_text1|].
  2:{ intros [= <- <-]. split; [exact Hlow1|].
      intros c a Hin Herr. split; [reflexivity|].
      pose proof (proj1 (Forall_forall _ _) Hc1 _ Hin) as Hc.
      cbn [fst] in Hc. subst c.
      eapply Forall_impl; [|exact Hc1]. intros call Hcall; cbv beta in *; lia. }
  destruct (chunk_loop fuel w src len_audio limit
              (offset + chunk_duration) full_text1)
    as [[r2 tr2]|] eqn:E2; [|discriminate].
  intros [= <- <-]. destruct (IH _ _ _ _ E2) as [Hlow2 Hf2].
  assert (Hdiv : (offset + chunk_duration) / chunk_duration
                 = offset / chunk_duration + 1).
  { unfold chunk_duration.
    replace (offset + 30 * 1000) with (offset + 1 * (30 * 1000)) by lia.
    rewrite Z.div_add by lia. reflexivity. }
  rewrite Hdiv in Hlow2.
  rewrite recognize_calls_app.
  change (recognize_calls (Sleep 100 :: tr2)) with (recognize_calls tr2).
  split.
  - apply Forall_app. split; [exact Hlow1|].
    eapply Forall_impl; [|exact Hlow2]. intros call Hcall; cbv beta in *; lia.
  - intros c a Hin Herr. apply in_app_or in Hin. destruct Hin as [Hin|Hin].
    + pose proof (proj1 (Forall_forall _ _) Hc1 _ Hin) as Hc.
      cbn [fst] in Hc. subst c.
      specialize (Hf1 a Hin Herr). discriminate.
    + destruct (Hf2 c a Hin Herr) as [-> Hle]. split; [reflexivity|].
      apply Forall_app. split; [|exact Hle].
      pose proof (proj1 (Forall_forall _ _) Hlow2 _ Hin) as Hc.
      cbn [fst] in Hc.
      eapply Forall_impl; [|exact Hc1]. intros call Hcall; cbv beta in *; lia.
Qed.

Lemma save_transcript_calls (w : world) (src : path) (full_text : list str) :
  recognize_calls (snd (save_transcript w src full_text)) = [].
Proof.
  unfold save_transcript.
  destruct (write_ok w _); [|reflexivity].
  destruct (is_temp_wav _); [destruct (remove_ok w _)|]; reflexivity.
Qed.

(** X12.  An error of the recognizer other than the two the retry loop
    catches ends the run: the run returns [False], writes no text file
    and removes nothing, and no chunk after the one that failed is
    attempted. *)
Theorem unexpected_error_aborts (w : world) (fuel : nat) (audio_path : path)
    (ok : bool) (tr : list event) (c : Z) (a : nat) :
  audio_to_text fuel w audio_path = Some (ok, tr) ->
  In (c, a) (recognize_calls tr) ->
  recognize_google w c a = OtherError ->
  ok = false /\ written tr = [] /\ removed tr = [] /\
  Forall (fun call => fst call <= c) (recognize_calls tr).
Proof.
  intros E Hin Herr.
  destruct (audio_to_text_source _ _ _ _ _ E)
    as [(_ & _ & [-> | ->])
       |(len_audio & duration & r & loop_tr & Hdur & Eloop & Hr)];
    try now destruct Hin.
  destruct (chunk_loop_calls _ _ _ _ _ _ _ _ _ Eloop) as [_ Hf].
  destruct (loop_events_keep_files _ (chunk_loop_events _ _ _ _ _ _ _ _ _ Eloop))
    as (Hlr & _ & Hlw).
  assert (Hpre : recognize_calls
                   (if is_wav audio_path then [] else [Converted audio_path])
                 = []) by now destruct (is_wav audio_path).
  destruct (removed_prefix audio_path) as (Hpr & Hpw & _).
  assert (Hin' : In (c, a) (recognize_calls loop_tr)).
  { destruct r as [full_text|]; destruct Hr as [_ ->];
      rewrite !recognize_calls_app, Hpre in Hin; cbn [app] in Hin;
      [|exact Hin].
    rewrite save_transcript_calls, app_nil_r in Hin. exact Hin. }
  destruct (Hf c a Hin' Herr) as [-> Hle].
  destruct Hr as [-> ->].
  rewrite written_app, removed_app, recognize_calls_app, Hpre, Hpr, Hpw.
  now repeat split.
Qed.

Lemma unexpected_error_aborts_witness :
  audio_to_text 2 breakdown (Given (utf8 "talk.wav"))
  = Some (false,
          trace_of (audio_to_text 2 breakdown (Given (utf8 "talk.wav")))) /\
  written (trace_of (audio_to_text 2 breakdown (Given (utf8 "talk.wav"))))
  = [].
Proof.
  assert (E : audio_to_text 2 breakdown (Given (utf8 "talk.wav"))
              = Some (false, trace_of (audio_to_text 2 breakdown
                                         (Given (utf8 "talk.wav")))))
    by reflexivity.
  split; [exact E|].
  refine (proj1 (proj2 (unexpected_error_aborts breakdown 2
            (Given (utf8 "talk.wav")) false _ 2 1%nat E _ _))).
  - vm_compute. auto.
  - reflexivity.
Defined.

End RunAbort.

Section RunEffort.

Import Pipeline PipelineMore.
Open Scope Z_scope.

Lemma sleeps_app (a b : list event) : sleeps (a ++ b) = sleeps a ++ sleeps b.
Proof. apply flat_map_app. Qed.

Lemma total_sleep_app (a b : list event) :
  total_sleep (a ++ b) = total_sleep a + total_sleep b.
Proof.
  unfold total_sleep. rewrite sleeps_app.
  induction (sleeps a) as [|x l IH]; cbn [app fold_right]; lia.
Qed.

(** The backoffs of one segment: four at most, of five seconds each. *)
Lemma retry_loop_sleep (w : world) (c : Z) (range : list nat) (r : retried)
    (tr : list event) :
  retry_loop w c range = (r, tr) ->
  0 <= total_sleep tr
    <= 5000 * Z.of_nat
         (length (filter (fun a => a <? max_retries - 1)%nat range)).
Proof.
  revert r tr. induction range as [|a range IH]; intros r tr.
  - cbn. intros [= <- <-]. cbn. lia.
  - cbn [retry_loop filter].
    assert (Hstep : forall r' tr',
      retry_loop w c range = (r', tr') ->
      0 <= total_sleep (Recognize c a :: backoff a ++ tr')
        <= 5000 * Z.of_nat
             (length (if (a <? max_retries - 1)%nat
                      then a :: filter (fun a => a <? max_retries - 1)%nat range
                      else filter (fun a => a <? max_retries - 1)%nat range))).
    { intros r' tr' E. specialize (IH _ _ E).
      change (total_sleep (Recognize c a :: backoff a ++ tr'))
        with (total_sleep (backoff a ++ tr')).
      rewrite total_sleep_app. unfold backoff.
      destruct (a <? max_retries - 1)%nat; cbn [length];
        [change (total_sleep [Sleep 5000]) with 5000
        |change (total_sleep []) with 0]; lia. }
    destruct (recognize_google w c a).
    + intros [= <- <-]. change (total_sleep [Recognize c a]) with 0.
      destruct (a <? max_retries - 1)%nat; cbn [length]; lia.
    + destruct (retry_loop w c range) as [r' tr'] eqn:E.
      intros [= <- <-]. now apply (Hstep r').
    + destruct (retry_loop w c range) as [r' tr'] eqn:E.
      intros [= <- <-]. now apply (Hstep r').
    + intros [= <- <-]. change (total_sleep [Recognize c a]) with 0.
      destruct (a <? max_retries - 1)%nat; cbn [length]; lia.
Qed.

Lemma process_chunk_effort (w : world) (src : path) (len_audio offset : Z)
    (full_text : list str) (r : result (list str)) (tr : list event) :
  process_chunk w src len_audio offset full_text = (r, tr) ->
  (length (recognize_calls tr) <= 5 * length (saved_chunks tr))%nat /\
  0 <= total_sleep tr <= 20000 * Z.of_nat (length (saved_chunks tr)) /\
  (length (saved_chunks tr) <= 1)%nat /\
  (forall full_text', r = Returned full_text' ->
                      length (saved_chunks tr) = 1%nat).
Proof.
  unfold process_chunk, save_audio_chunk.
  destruct (save_ok w _).
  2:{ intros [= <- <-]. cbn. repeat split; try lia. discriminate. }
  destruct (record_ok w _).
  2:{ intros [= <- <-]. cbn. repeat split; try lia; try discriminate. }
  destruct (retry_loop w _ (seq 0 max_retries)) as [rr tr'] eqn:Er.
  destruct (retry_loop_trace _ _ _ Er) as (Hc & _ & _ & Hs & _).
  pose proof (retry_loop_sleep _ _ _ _ _ Er) as Hsl.
  change (length (filter (fun a => a <? max_retries - 1)%nat
                         (seq 0 max_retries))) with 4%nat in Hsl.
  change (length (seq 0 max_retries)) with 5%nat in Hc.
  assert (H : forall q a b,
    (length (recognize_calls (SavedChunk q a b :: tr'))
     <= 5 * length (saved_chunks (SavedChunk q a b :: tr')))%nat /\
    0 <= total_sleep (SavedChunk q a b :: tr')
      <= 20000 * Z.of_nat (length (saved_chunks (SavedChunk q a b :: tr'))) /\
    (length (saved_chunks (SavedChunk q a b :: tr')) <= 1)%nat /\
    length (saved_chunks (SavedChunk q a b :: tr')) = 1%nat).
  { intros q a b.
    change (recognize_calls (SavedChunk q a b :: tr'))
      with (recognize_calls tr').
    change (saved_chunks (SavedChunk q a b :: tr'))
      with (q :: saved_chunks tr').
    change (total_sleep (SavedChunk q a b :: tr')) with (total_sleep tr').
    rewrite Hs. cbn [length]. repeat split; lia. }
  destruct rr; intros [= <- <-];
    match goal with
    | |- context [SavedChunk ?q ?a ?b :: tr'] =>
        destruct (H q a b) as (H1 & H2 & H3 & H4)
    end; repeat split; auto; try lia.
Qed.

Lemma chunk_loop_effort (w : world) (src : path) (len_audio : Z) (limit : Q)
    (fuel : nat) (offset : Z) (full_text : list str)
    (r : result (list str)) (tr : list event) :
  chunk_loop fuel w src len_audio limit offset full_text = Some (r, tr) ->
  (length (recognize_calls tr) <= 5 * length (saved_chunks tr))%nat /\
  0 <= total_sleep tr <= 20100 * Z.of_nat (length (saved_chunks tr)).
Proof.
  revert offset full_text r tr.
  induction fuel as [|fuel IH]; intros offset full_text r tr;
    cbn [chunk_loop]; destruct (Qlt_bool (inject_Z offset) limit);
    try discriminate;
    try (intros [= <- <-]; cbn; split; lia).
  destruct (process_chunk w src len_audio offset full_text)
    as [r1 tr1] eqn:E1.
  destruct (process_chunk_effort _ _ _ _ _ _ _ E1) as (Hc1 & Hs1 & Hle1 & H1).
  destruct r1 as [full_text1|].
  2:{ intros [= <- <-]. split; [exact Hc1 | lia]. }
  specialize (H1 _ eq_refl).
  destruct (chunk_loop fuel w src len_audio limit
              (offset + chunk_duration) full_text1)
    as [[r2 tr2]|] eqn:E2; [|discriminate].
  intros [= <- <-]. destruct (IH _ _ _ _ E2) as [Hc2 Hs2].
  rewrite recognize_calls_app, saved_chunks_app, total_sleep_app, !length_app.
  change (recognize_calls (Sleep 100 :: tr2)) with (recognize_calls tr2).
  change (saved_chunks (Sleep 100 :: tr2)) with (saved_chunks tr2).
  change (total_sleep (Sleep 100 :: tr2)) with (100 + total_sleep tr2).
  split; lia.
Qed.

(** X13.  The effort of a run is bounded by the number of chunks it has
    saved: at most five calls of the recognizer for each chunk, and at
    most 20.1 seconds of sleeping for each chunk (four backoffs of five
    seconds and the tenth of a second after the chunk). *)
Theorem run_effort (w : world) (fuel : nat) (audio_path : path) (ok : bool)
    (tr : list event) :
  audio_to_text fuel w audio_path = Some (ok, tr) ->
  (length (recognize_calls tr) <= 5 * length (saved_chunks tr))%nat /\
  0 <= total_sleep tr <= 20100 * Z.of_nat (length (saved_chunks tr)).
Proof.
  intros E.
  destruct (audio_to_text_source _ _ _ _ _ E)
    as [(_ & _ & [-> | ->])
       |(len_audio & duration & r & loop_tr & Hdur & Eloop & Hr)];
    try (cbn; split; lia).
  destruct (chunk_loop_effort _ _ _ _ _ _ _ _ _ Eloop) as [Hc Hs].
  assert (Hpre : forall rest,
    recognize_calls
      ((if is_wav audio_path then [] else [Converted audio_path]) ++ rest)
    = recognize_calls rest /\
    saved_chunks
      ((if is_wav audio_path then [] else [Converted audio_path]) ++ rest)
    = saved_chunks rest /\
    total_sleep
      ((if is_wav audio_path then [] else [Converted audio_path]) ++ rest)
    = total_sleep rest).
  { intros rest. now destruct (is_wav audio_path). }
  assert (Hpost : forall full_text,
    recognize_calls (snd (save_transcript w (source_of audio_path) full_text))
    = [] /\
    saved_chunks (snd (save_transcript w (source_of audio_path) full_text))
    = [] /\
    total_sleep (snd (save_transcript w (source_of audio_path) full_text))
    = 0).
  { intros full_text. unfold save_transcript.
    destruct (write_ok w _); [|now repeat split].
    destruct (is_temp_wav _); [destruct (remove_ok w _)|]; now repeat split. }
  destruct r as [full_text|]; destruct Hr as [_ ->];
    destruct (Hpre loop_tr) as (P1 & P2 & P3).
  - destruct (Hpre (loop_tr ++ snd (save_transcript w (source_of audio_path)
                                      full_text))) as (Q1 & Q2 & Q3).
    destruct (Hpost full_text) as (R1 & R2 & R3).
    rewrite Q1, Q2, Q3.
    rewrite recognize_calls_app, saved_chunks_app, total_sleep_app.
    rewrite R1, R2, R3, !app_nil_r. split; lia.
  - rewrite P1, P2, P3. split; lia.
Qed.

Lemma total_chunks_value (a : Z) (d : positive) :
  total_chunks (a # d) = a / (30 * Z.pos d) + 1.
Proof.
  unfold total_chunks, Qfloor, Qdiv, Qmult, Qinv. cbn [Qnum Qden].
  rewrite Pos2Z.inj_mul. f_equal. f_equal; lia.
Qed.

Lemma all_chunks_value (a : Z) (d : positive) (n : nat) :
  all_chunks ((a # d) * 1000)%Q n ->
  (forall j, (j < n)%nat -> 30 * Z.of_nat j * Z.pos d < a) /\
  a <= 30 * Z.of_nat n * Z.pos d.
Proof.
  intros [Hbelow Hstop]. split.
  - intros j Hj. specialize (Hbelow j Hj). apply Qlt_bool_lt in Hbelow.
    unfold Qlt, Qmult, inject_Z, chunk_duration in Hbelow.
    cbn [Qnum Qden] in Hbelow. rewrite Pos2Z.inj_mul in Hbelow. lia.
  - apply Qlt_bool_false in Hstop.
    unfold Qle, Qmult, inject_Z, chunk_duration in Hstop.
    cbn [Qnum Qden] in Hstop. rewrite Pos2Z.inj_mul in Hstop. lia.
Qed.

(** X14.  The total the progress bar is given, [int(duration // 30) + 1],
    is the number of chunks the loop makes, or one more; it is one more
    exactly when the duration is a whole number of chunks of 30 seconds
    (zero included), so that the bar then never reaches its total. *)
Theorem progress_total (duration : Q) (n : nat) :
  (0 <= duration)%Q ->
  all_chunks (duration * 1000)%Q n ->
  (total_chunks duration = Z.of_nat n \/
   total_chunks duration = Z.of_nat n + 1) /\
  (total_chunks duration = Z.of_nat n + 1
   <-> (duration == inject_Z (30 * Z.of_nat n))%Q).
Proof.
  destruct duration as [a d]. intros Hpos Hall.
  rewrite total_chunks_value.
  destruct (all_chunks_value a d n Hall) as [Hbelow Hstop].
  unfold Qle in Hpos. cbn [Qnum Qden] in Hpos.
  unfold Qeq, inject_Z. cbn [Qnum Qden].
  pose proof (Z.div_mod a (30 * Z.pos d) ltac:(lia)) as Hdm.
  pose proof (Z.mod_pos_bound a (30 * Z.pos d) ltac:(lia)) as Hmod.
  set (q := a / (30 * Z.pos d)) in *. set (m := a mod (30 * Z.pos d)) in *.
  assert (Hq : 0 <= q) by (apply Z.div_pos; lia).
  destruct n as [|n].
  - assert (a = 0) by lia. assert (q = 0) by nia.
    split; [right; lia|]. split; intros; lia.
  - specialize (Hbelow n ltac:(lia)).
    assert (Hlo : Z.of_nat n <= q) by nia.
    assert (Hhi : q <= Z.of_nat (S n)) by nia.
    split; [lia|]. split; intros H; nia.
Qed.

Lemma progress_total_witness :
  total_chunks 60 = Z.of_nat 2 + 1.
Proof.
  refine (proj2 (proj2 (progress_total 60 2 _ _)) _).
  - unfold Qle. cbn. lia.
  - split; [|reflexivity].
    intros j Hj. destruct j as [|[|j]]; [reflexivity | reflexivity | lia].
  - reflexivity.
Defined.

End RunEffort.

Section RunEffortWitness.

Import Pipeline PipelineMore.

Lemma run_effort_witness :
  (length (recognize_calls
             (trace_of (audio_to_text 3 talk (Given (utf8 "talk.wav")))))
   <= 5 * length (saved_chunks
                    (trace_of (audio_to_text 3 talk (Given (utf8 "talk.wav"))))))
  /\
  (0 <= total_sleep (trace_of (audio_to_text 3 talk (Given (utf8 "talk.wav"))))
     <= 20100 * Z.of_nat
          (length (saved_chunks
                     (trace_of (audio_to_text 3 talk
                                  (Given (utf8 "talk.wav")))))))%Z.
Proof.
  refine (run_effort talk 3 (Given (utf8 "talk.wav")) true _ _).
  vm_compute. reflexivity.
Defined.

End RunEffortWitness.

(** * Short audio *)

Section ShortAudio.

Import Pipeline PipelineMore.





End ShortAudio.

(** * The local backends *)

Section LocalFacts.

Import Local.

Lemma wrote_app (a b : list event) : wrote (a ++ b) = wrote a ++ wrote b.
Proof. apply flat_map_app. Qed.

Lemma local_removed_app (a b : list event) :
  removed (a ++ b) = removed a ++ removed b.
Proof. apply flat_map_app. Qed.

Lemma transcribed_app (a b : list event) :
  transcribed (a ++ b) = transcribed a ++ transcribed b.
Proof. apply flat_map_app. Qed.

Lemma split_events (tr : list Segmenter.event) :
  wrote (map Split tr) = [] /\ removed (map Split tr) = [] /\
  transcribed (map Split tr) = [].
Proof. induction tr as [|e tr IH]; [now repeat split | exact IH]. Qed.

Lemma transcribed_events (ps : list path) :
  wrote (map Transcribed ps) = [] /\ removed (map Transcribed ps) = [] /\
  transcribed (map Transcribed ps) = ps.
Proof.
  induction ps as [|p ps (IH1 & IH2 & IH3)]; [now repeat split|].
  cbn [map]. repeat split; [exact IH1 | exact IH2|].
  change (transcribed (Transcribed p :: map Transcribed ps))
    with (p :: transcribed (map Transcribed ps)).
  now rewrite IH3.
Qed.

(** What the end of the two functions does to the files. *)
Lemma save_result_files (b : backend) (w : world)
    (audio_path prepared_audio : path) (full_text : str)
    (r : attempt str) (tr : list event) :
  save_result b w audio_path prepared_audio full_text = (r, tr) ->
  transcribed tr = [] /\
  (removed tr = [] \/
   (removed tr = [prepared_audio] /\
    eqb_path prepared_audio audio_path = false)) /\
  match r with
  | Done text =>
      text = full_text /\ wrote tr = [(RawText b audio_path, full_text)] /\
      (eqb_path prepared_audio audio_path = false ->
       removed tr = [prepared_audio])
  | Failed _ => wrote tr = []
  end.
Proof.
  unfold save_result.
  destruct (eqb_path prepared_audio audio_path) eqn:Heq; cbn [negb].
  - destruct (write w (RawText b audio_path)); intros [= <- <-];
      repeat split; auto; discriminate.
  - destruct (remove w prepared_audio).
    + destruct (write w (RawText b audio_path)); intros [= <- <-];
        repeat split; auto.
    + intros [= <- <-]. repeat split; auto.
Qed.

End LocalFacts.

Section WhisperFacts.

Import Local Whisper.

Variable w : world.

(** The loop over the segments when every segment is transcribed. *)
Lemma whisper_segments_done (t : path -> str) (segments : list path)
    (full_text : str) :
  (forall s, In s segments -> transcribe w s = Done (t s)) ->
  transcribe_segments w segments full_text
  = (Next (full_text ++ flat_map (fun s => t s ++ [space]) segments),
     map Transcribed segments).
Proof.
  revert full_text. induction segments as [|s segments IH];
    intros full_text H.
  - cbn. now rewrite app_nil_r.
  - cbn [transcribe_segments flat_map map].
    rewrite (H s (or_introl eq_refl)).
    rewrite IH by (intros s' Hs'; apply H; now right).
    now rewrite <- !app_assoc.
Qed.

(** The loop up to the first segment that cannot be transcribed. *)
Lemma whisper_segments_failed (t : path -> str) (done : list path)
    (s : path) (rest : list path) (message full_text : str) :
  (forall s', In s' done -> transcribe w s' = Done (t s')) ->
  transcribe w s = Failed message ->
  transcribe_segments w (done ++ s :: rest) full_text
  = (Raise message, map Transcribed done).
Proof.
  revert full_text. induction done as [|d done IH]; intros full_text H Hs.
  - cbn [app transcribe_segments map]. now rewrite Hs.
  - cbn [app transcribe_segments map].
    rewrite (H d (or_introl eq_refl)).
    rewrite IH by (auto; intros s' Hs'; apply H; now right).
    reflexivity.
Qed.

Lemma whisper_segments_files (segments : list path) (full_text : str)
    (r : flow) (tr : list event) :
  transcribe_segments w segments full_text = (r, tr) ->
  wrote tr = [] /\ removed tr = [].
Proof.
  revert full_text r tr. induction segments as [|s segments IH];
    intros full_text r tr.
  - cbn. now intros [= <- <-].
  - cbn [transcribe_segments]. destruct (transcribe w s).
    + destruct (transcribe_segments w segments _) as [r' tr'] eqn:E.
      intros [= <- <-]. exact (IH _ _ _ E).
    + now intros [= <- <-].
Qed.

Lemma whisper_recognize_files (prepared_audio : path) (use_segments : bool)
    (r : flow) (tr : list event) :
  recognize w prepared_audio use_segments = (r, tr) ->
  wrote tr = [] /\ removed tr = [] /\ (forall v, r <> Return v).
Proof.
  assert (Hwhole : forall r tr,
    transcribe_whole w prepared_audio = (r, tr) ->
    wrote tr = [] /\ removed tr = [] /\ (forall v, r <> Return v)).
  { unfold transcribe_whole. intros r0 tr0.
    destruct (transcribe w prepared_audio); intros [= <- <-];
      repeat split; discriminate. }
  assert (Hsegs : forall segments r tr,
    transcribe_segments w segments [] = (r, tr) -> forall v, r <> Return v).
  { intros segments. generalize (@nil N).
    induction segments as [|s segments IH]; intros full_text r0 tr0.
    - cbn. intros [= <- <-]. discriminate.
    - cbn [transcribe_segments]. destruct (transcribe w s).
      + destruct (transcribe_segments w segments _) as [r' tr'] eqn:E.
        intros [= <- <-]. exact (IH _ _ _ E).
      + intros [= <- <-]. discriminate. }
  unfold recognize. destruct use_segments; [|apply Hwhole].
  destruct (Segmenter.split_audio_for_whisper _ _ _) as [segments split_tr].
  destruct (split_events split_tr) as (Hs1 & Hs2 & _).
  destruct (1 <? length segments).
  - destruct (transcribe_segments w segments []) as [r' tr'] eqn:E.
    intros [= <- <-]. destruct (whisper_segments_files _ _ _ _ E) as [H1 H2].
    rewrite wrote_app, local_removed_app, Hs1, Hs2, H1, H2.
    repeat split. exact (Hsegs _ _ _ E).
  - destruct (transcribe_whole w prepared_audio) as [r' tr'] eqn:E.
    intros [= <- <-]. destruct (Hwhole _ _ eq_refl) as (H1 & H2 & H3).
    rewrite wrote_app, local_removed_app, Hs1, Hs2, H1, H2. now repeat split.
Qed.

End WhisperFacts.

Section WhisperTheorems.

Import Local Whisper LocalWorlds.

Lemma split_flat_map_space (t : path -> str) (l : list path) :
  split (flat_map (fun s => t s ++ [space]) l)
  = concat (map (fun s => split (t s)) l).
Proof.
  induction l as [|s l IH]; [reflexivity|].
  cbn [flat_map map concat]. rewrite <- app_assoc. cbn [app].
  rewrite split_app_space by reflexivity. now rewrite IH.
Qed.

Lemma format_local_collapse (header a b : str) :
  collapse a = collapse b -> format_local header a = format_local header b.
Proof. intros H. unfold format_local. now rewrite H. Qed.

(** X15.  When an audio is cut into several segments and every segment is
    transcribed, [transcribe_with_whisper] returns, and writes to its
    text file, the texts of the segments in order, each followed by a
    space; the segments are transcribed in order.  After the formatter
    that is the text of the segments joined by single spaces. *)
Theorem whisper_segment_texts (w : world) (audio_path prepared_audio : path)
    (segments : list path) (split_tr : list Segmenter.event)
    (t : path -> str) :
  dependencies_ok w = true ->
  prepare w audio_path = Some prepared_audio ->
  load_model w = Done tt ->
  Segmenter.split_audio_for_whisper (audio w) prepared_audio 600
  = (segments, split_tr) ->
  1 < length segments ->
  (forall s, In s segments -> transcribe w s = Done (t s)) ->
  remove w prepared_audio = Done tt ->
  write w (RawText Whisper audio_path) = Done tt ->
  let text := flat_map (fun s => t s ++ [space]) segments in
  exists tr,
    transcribe_with_whisper w audio_path true = (text, tr) /\
    transcribed tr = segments /\
    wrote tr = [(RawText Whisper audio_path, text)] /\
    collapse text = collapse (join [space] (map t segments)) /\
    format_whisper_result text
    = format_whisper_result (join [space] (map t segments)).
Proof.
  intros Hdep Hprep Hload Hsplit Hlen Ht Hrm Hwr text.
  assert (Hcollapse : collapse text = collapse (join [space] (map t segments))).
  { unfold collapse, text. rewrite split_flat_map_space.
    rewrite split_join_space by first [discriminate | repeat constructor].
    now rewrite map_map. }
  unfold transcribe_with_whisper, recognize.
  rewrite Hdep, Hprep, Hload. cbn [negb].
  unfold Segmenter.whisper_segment_length_sec. rewrite Hsplit.
  apply Nat.ltb_lt in Hlen. rewrite Hlen.
  rewrite (whisper_segments_done w t segments [] Ht). cbn [app].
  fold text.
  destruct (split_events split_tr) as (Hs1 & Hs2 & Hs3).
  destruct (transcribed_events segments) as (Ht1 & Ht2 & Ht3).
  destruct (save_result Whisper w audio_path prepared_audio text)
    as [r tr'] eqn:Esave.
  destruct (save_result_files _ _ _ _ _ _ _ Esave) as (Hst & _ & Hr).
  assert (Hdone : exists text', r = Done text').
  { revert Esave. unfold save_result. rewrite Hrm, Hwr.
    destruct (negb _); intros [= <- _]; eauto. }
  destruct Hdone as (text' & ->). destruct Hr as (-> & Hw & _).
  eexists. split; [reflexivity|].
  rewrite !transcribed_app, !wrote_app, Hs1, Hs3, Ht1, Ht3, Hst, Hw.
  rewrite app_nil_r. repeat split; [exact Hcollapse|].
  now apply format_local_collapse.
Qed.

Lemma whisper_segment_texts_witness :
  fst (transcribe_with_whisper lecture (Given (utf8 "talk.mp3")) true)
  = utf8 "a b c ".
Proof.
  destruct (whisper_segment_texts lecture (Given (utf8 "talk.mp3"))
              (TempWav (Given (utf8 "talk.mp3")))
              (fst (Segmenter.split_audio_for_whisper (audio lecture)
                      (TempWav (Given (utf8 "talk.mp3"))) 600))
              (snd (Segmenter.split_audio_for_whisper (audio lecture)
                      (TempWav (Given (utf8 "talk.mp3"))) 600))
              (fun p => match transcribe lecture p with
                        | Done x => x
                        | Failed _ => []
                        end)
              eq_refl eq_refl eq_refl eq_refl)
    as (tr & E & _).
  - vm_compute. lia.
  - intros s Hs. vm_compute in Hs.
    destruct Hs as [<-|[<-|[<-|[]]]]; reflexivity.
  - reflexivity.
  - reflexivity.
  - rewrite E. reflexivity.
Defined.

(** X16.  When a segment cannot be transcribed, [transcribe_with_whisper]
    returns the message of the error after the words
    "Ошибка распознавания: " in place of a text; the texts of the
    segments transcribed before are dropped, the text file is not
    written, and the prepared audio is not removed. *)
Theorem whisper_failed_segment (w : world) (audio_path prepared_audio : path)
    (done : list path) (s : path) (rest : list path)
    (split_tr : list Segmenter.event) (t : path -> str) (message : str) :
  dependencies_ok w = true ->
  prepare w audio_path = Some prepared_audio ->
  load_model w = Done tt ->
  Segmenter.split_audio_for_whisper (audio w) prepared_audio 600
  = (done ++ s :: rest, split_tr) ->
  1 < length (done ++ s :: rest) ->
  (forall s', In s' done -> transcribe w s' = Done (t s')) ->
  transcribe w s = Failed message ->
  exists tr,
    transcribe_with_whisper w audio_path true
    = (utf8 "Ошибка распознавания: " ++ message, tr) /\
    transcribed tr = done /\ wrote tr = [] /\ removed tr = [].
Proof.
  intros Hdep Hprep Hload Hsplit Hlen Ht Hs.
  unfold transcribe_with_whisper, recognize.
  rewrite Hdep, Hprep, Hload. cbn [negb].
  unfold Segmenter.whisper_segment_length_sec. rewrite Hsplit.
  apply Nat.ltb_lt in Hlen. rewrite Hlen.
  rewrite (whisper_segments_failed w t done s rest message [] Ht Hs).
  eexists. split; [reflexivity|].
  destruct (split_events split_tr) as (Hs1 & Hs2 & Hs3).
  destruct (transcribed_events done) as (Ht1 & Ht2 & Ht3).
  rewrite transcribed_app, wrote_app, local_removed_app.
  rewrite Hs1, Hs2, Hs3, Ht1, Ht2, Ht3. now repeat split.
Qed.

Lemma whisper_failed_segment_witness :
  fst (transcribe_with_whisper stutter (Given (utf8 "talk.mp3")) true)
  = utf8 "Ошибка распознавания: out of memory".
Proof.
  destruct (whisper_failed_segment stutter (Given (utf8 "talk.mp3"))
              (TempWav (Given (utf8 "talk.mp3")))
              [SegmentWav Whisper (TempWav (Given (utf8 "talk.mp3"))) 1]
              (SegmentWav Whisper (TempWav (Given (utf8 "talk.mp3"))) 2)
              [SegmentWav Whisper (TempWav (Given (utf8 "talk.mp3"))) 3]
              (snd (Segmenter.split_audio_for_whisper (audio stutter)
                      (TempWav (Given (utf8 "talk.mp3"))) 600))
              (fun _ => utf8 "a") (utf8 "out of memory")
              eq_refl eq_refl eq_refl eq_refl)
    as (tr & E & _).
  - cbn. lia.
  - intros s' [<-|[]]. reflexivity.
  - reflexivity.
  - rewrite E. reflexivity.
Defined.

End WhisperTheorems.

Section VoskFacts.

Import Local Vosk LocalSpec.

Variable w : world.

(** The loop over the blocks of a file adds the text of every utterance
    that ended, each followed by a space, and then the final text. *)
Lemma read_wave_blocks (wv : wave) (text : str) :
  read_wave wv text = text ++ flat_map block_text (blocks wv) ++ final wv.
Proof.
  unfold read_wave. rewrite app_assoc. f_equal.
  revert text. induction (blocks wv) as [|b bs IH]; intros text.
  - cbn. now rewrite app_nil_r.
  - cbn [fold_left flat_map]. rewrite IH. destruct b as [part|].
    + cbn [block_text]. now rewrite <- !app_assoc.
    + reflexivity.
Qed.

(** The loop over the segments when every segment can be opened. *)
Lemma vosk_segments_done (wv : path -> wave) (segments : list path)
    (full_text : str) :
  (forall s, In s segments -> open_wave w s = Done (wv s)) ->
  transcribe_segments w segments full_text
  = (Next (full_text ++ flat_map (heard wv) segments),
     map Transcribed (filter (fun s => format_ok (wv s)) segments)).
Proof.
  revert full_text. induction segments as [|s segments IH];
    intros full_text H.
  - cbn. now rewrite app_nil_r.
  - cbn [transcribe_segments flat_map filter].
    rewrite (H s (or_introl eq_refl)).
    assert (Hrest : forall s', In s' segments -> open_wave w s' = Done (wv s'))
      by (intros s' Hs'; apply H; now right).
    change (heard wv s)
      with (if format_ok (wv s) then read_wave (wv s) [] ++ [space] else []).
    destruct (format_ok (wv s)); cbn [negb map app].
    + rewrite (IH _ Hrest). now rewrite <- !app_assoc.
    + now rewrite (IH _ Hrest).
Qed.

Lemma vosk_segments_files (segments : list path) (full_text : str)
    (r : flow) (tr : list event) :
  transcribe_segments w segments full_text = (r, tr) ->
  wrote tr = [] /\ removed tr = [].
Proof.
  revert full_text r tr. induction segments as [|s segments IH];
    intros full_text r tr.
  - cbn. now intros [= <- <-].
  - cbn [transcribe_segments]. destruct (open_wave w s) as [wf|].
    + destruct (negb (format_ok wf)); [apply IH|].
      destruct (transcribe_segments w segments _) as [r' tr'] eqn:E.
      intros [= <- <-]. exact (IH _ _ _ E).
    + now intros [= <- <-].
Qed.

Lemma vosk_recognize_files (prepared_audio : path) (use_segments : bool)
    (r : flow) (tr : list event) :
  recognize w prepared_audio use_segments = (r, tr) ->
  wrote tr = [] /\ removed tr = [].
Proof.
  assert (Hwhole : forall r tr,
    transcribe_whole w prepared_audio = (r, tr) ->
    wrote tr = [] /\ removed tr = []).
  { unfold transcribe_whole. intros r0 tr0.
    destruct (open_wave w prepared_audio) as [wf|];
      [destruct (negb (format_ok wf))|]; intros [= <- <-]; now split. }
  unfold recognize. destruct use_segments; [|apply Hwhole].
  destruct (Segmenter.split_audio_for_vosk _ _ _) as [segments split_tr].
  destruct (split_events split_tr) as (Hs1 & Hs2 & _).
  destruct (1 <? length segments).
  - destruct (transcribe_segments w segments []) as [r' tr'] eqn:E.
    intros [= <- <-]. destruct (vosk_segments_files _ _ _ _ E) as [H1 H2].
    rewrite wrote_app, local_removed_app, Hs1, Hs2, H1, H2. now split.
  - destruct (transcribe_whole w prepared_audio) as [r' tr'] eqn:E.
    intros [= <- <-]. destruct (Hwhole _ _ eq_refl) as (H1 & H2).
    rewrite wrote_app, local_removed_app, Hs1, Hs2, H1, H2. now split.
Qed.

End VoskFacts.

Section LocalFiles.

Import Local LocalSpec.

(** After the recognition, which writes and removes nothing, the end of
    the function keeps the file discipline. *)
Lemma finish_files_ok (b : backend) (w : world) (audio_path prepared : path)
    (r : flow) (tr : list event) :
  prepare w audio_path = Some prepared ->
  wrote tr = [] -> removed tr = [] ->
  forall text tr',
    match r with
    | Raise m => (recognition_error m, tr)
    | Return value => (value, tr)
    | Next full_text =>
        match save_result b w audio_path prepared full_text with
        | (Failed m, tr1) => (recognition_error m, tr ++ tr1)
        | (Done text1, tr1) => (text1, tr ++ tr1)
        end
    end = (text, tr') ->
    files_ok b w audio_path text tr'.
Proof.
  intros Hprep Hw Hr text tr'. unfold files_ok.
  destruct r as [full_text|m|value].
  - destruct (save_result b w audio_path prepared full_text)
      as [res tr1] eqn:Esave.
    destruct (save_result_files _ _ _ _ _ _ _ Esave) as (_ & Hrm & Hres).
    assert (Hremoved :
      removed (tr ++ tr1) = [] \/
      exists q, prepare w audio_path = Some q /\
                eqb_path q audio_path = false /\ removed (tr ++ tr1) = [q]).
    { rewrite local_removed_app, Hr. cbn [app].
      destruct Hrm as [->|[-> Hne]]; [now left|right; eauto]. }
    destruct res as [text1|m].
    + destruct Hres as (-> & Hwrote & Hrem). intros [= <- <-].
      rewrite wrote_app, Hw, Hwrote. cbn [app].
      split; [now right|]. split; [exact Hremoved|].
      intros _ q Hq Hne. rewrite Hprep in Hq. injection Hq as <-.
      rewrite local_removed_app, Hr. cbn [app]. now apply Hrem.
    + intros [= <- <-]. rewrite wrote_app, Hw, Hres. cbn [app].
      split; [now left|]. split; [exact Hremoved|]. now intros [].
  - intros [= <- <-]. rewrite Hw, Hr.
    split; [now left|]. split; [now left|]. now intros [].
  - intros [= <- <-]. rewrite Hw, Hr.
    split; [now left|]. split; [now left|]. now intros [].
Qed.

Lemma nothing_done_ok (b : backend) (w : world) (audio_path : path)
    (text : str) : files_ok b w audio_path text [].
Proof.
  unfold files_ok. cbn. split; [now left|]. split; [now left|]. now intros [].
Qed.

End LocalFiles.

Section LocalTheorems.

Import Local LocalSpec LocalWorlds.

(** X17.  When an audio is cut into several segments and every segment
    can be opened, [transcribe_with_vosk] passes over the segments whose
    format is refused without a word: it returns and writes the texts of
    the other segments in order, each followed by a space, and never an
    error message; when the format of every segment is refused, it
    returns and writes the empty text. *)
Theorem vosk_skips_refused_segments (w : world)
    (audio_path prepared_audio : path) (segments : list path)
    (split_tr : list Segmenter.event) (wv : path -> wave) :
  dependencies_ok w = true ->
  model_exists w = true ->
  prepare w audio_path = Some prepared_audio ->
  load_model w = Done tt ->
  Segmenter.split_audio_for_vosk (audio w) prepared_audio 300
  = (segments, split_tr) ->
  1 < length segments ->
  (forall s, In s segments -> open_wave w s = Done (wv s)) ->
  remove w prepared_audio = Done tt ->
  write w (RawText Vosk audio_path) = Done tt ->
  let good := filter (fun s => format_ok (wv s)) segments in
  let text := flat_map (fun s => Vosk.read_wave (wv s) [] ++ [space]) good in
  exists tr,
    Vosk.transcribe_with_vosk w audio_path true = (text, tr) /\
    transcribed tr = good /\
    wrote tr = [(RawText Vosk audio_path, text)] /\
    ((forall s, In s segments -> format_ok (wv s) = false) -> text = []).
Proof.
  intros Hdep Hmodel Hprep Hload Hsplit Hlen Hopen Hrm Hwr good text.
  assert (Htext : flat_map (heard wv) segments = text).
  { unfold text, good. clear. induction segments as [|s l IH]; [reflexivity|].
    cbn [flat_map filter]. unfold heard at 1.
    destruct (format_ok (wv s)); cbn [flat_map app]; now rewrite IH. }
  unfold Vosk.transcribe_with_vosk, Vosk.recognize.
  rewrite Hdep, Hmodel, Hprep, Hload. cbn [negb andb].
  unfold Segmenter.vosk_segment_length_sec. rewrite Hsplit.
  apply Nat.ltb_lt in Hlen. rewrite Hlen.
  rewrite (vosk_segments_done w wv segments [] Hopen). cbn [app].
  rewrite Htext. fold good.
  destruct (split_events split_tr) as (Hs1 & Hs2 & Hs3).
  destruct (transcribed_events good) as (Ht1 & Ht2 & Ht3).
  destruct (save_result Vosk w audio_path prepared_audio text)
    as [r tr'] eqn:Esave.
  destruct (save_result_files _ _ _ _ _ _ _ Esave) as (Hst & _ & Hr).
  assert (Hdone : exists text', r = Done text').
  { revert Esave. unfold save_result. rewrite Hrm, Hwr.
    destruct (negb _); intros [= <- _]; eauto. }
  destruct Hdone as (text' & ->). destruct Hr as (-> & Hw & _).
  eexists. split; [reflexivity|].
  rewrite !transcribed_app, !wrote_app, Hs1, Hs3, Ht1, Ht3, Hst, Hw.
  rewrite app_nil_r. repeat split.
  intros Hbad. unfold text, good.
  replace (filter (fun s => format_ok (wv s)) segments) with (@nil path);
    [reflexivity|].
  symmetry. clear - Hbad. induction segments as [|s l IH]; [reflexivity|].
  cbn [filter]. rewrite (Hbad s (or_introl eq_refl)).
  apply IH. intros s' Hs'. apply Hbad. now right.
Qed.

Lemma vosk_skips_refused_segments_witness :
  fst (Vosk.transcribe_with_vosk lecture (Given (utf8 "talk.mp3")) true)
  = utf8 "a b c a b c a b c a b c a b c ".
Proof.
  destruct (vosk_skips_refused_segments lecture (Given (utf8 "talk.mp3"))
              (TempWav (Given (utf8 "talk.mp3")))
              (fst (Segmenter.split_audio_for_vosk (audio lecture)
                      (TempWav (Given (utf8 "talk.mp3"))) 300))
              (snd (Segmenter.split_audio_for_vosk (audio lecture)
                      (TempWav (Given (utf8 "talk.mp3"))) 300))
              (fun p => match open_wave lecture p with
                        | Done x => x
                        | Failed _ => mkWave false [] []
                        end)
              eq_refl eq_refl eq_refl eq_refl eq_refl)
    as (tr & E & _).
  - vm_compute. lia.
  - intros s Hs. vm_compute in Hs.
    repeat (destruct Hs as [<-|Hs]; [reflexivity|]). destruct Hs.
  - reflexivity.
  - reflexivity.
  - rewrite E. reflexivity.
Defined.

(** X18.  When the audio is handled as one piece (it has at most one
    segment, or segments are switched off) and the format of the
    prepared file is refused, [transcribe_with_vosk] returns
    "Ошибка: Некорректный формат аудио" at once: no text file is
    written and the prepared audio is not removed. *)
Theorem vosk_refused_format (w : world) (audio_path prepared_audio : path)
    (use_segments : bool) (wf : wave) :
  dependencies_ok w = true ->
  model_exists w = true \/ download_ok w = true ->
  prepare w audio_path = Some prepared_audio ->
  load_model w = Done tt ->
  use_segments = false \/
  length (fst (Segmenter.split_audio_for_vosk (audio w) prepared_audio 300))
  <= 1 ->
  open_wave w prepared_audio = Done wf ->
  format_ok wf = false ->
  exists tr,
    Vosk.transcribe_with_vosk w audio_path use_segments
    = (utf8 "Ошибка: Некорректный формат аудио", tr) /\
    transcribed tr = [] /\ wrote tr = [] /\ removed tr = [].
Proof.
  intros Hdep Hmodel Hprep Hload Hone Hopen Hbad.
  unfold Vosk.transcribe_with_vosk.
  rewrite Hdep, Hprep, Hload. cbn [negb].
  assert (Hm : negb (model_exists w) && negb (download_ok w) = false).
  { destruct Hmodel as [-> | ->]; [reflexivity|].
    now destruct (model_exists w). }
  rewrite Hm.
  assert (Hwhole : Vosk.transcribe_whole w prepared_audio
                   = (Return (utf8 "Ошибка: Некорректный формат аудио"), [])).
  { unfold Vosk.transcribe_whole. now rewrite Hopen, Hbad. }
  unfold Vosk.recognize.
  destruct use_segments.
  - destruct Hone as [Hone|Hone]; [discriminate|].
    unfold Segmenter.vosk_segment_length_sec.
    destruct (Segmenter.split_audio_for_vosk (audio w) prepared_audio 300)
      as [segments split_tr].
    cbn [fst] in Hone.
    assert (Hlt : (1 <? length segments) = false) by (apply Nat.ltb_ge; lia).
    rewrite Hlt, Hwhole.
    eexists. split; [reflexivity|].
    destruct (split_events split_tr) as (Hs1 & Hs2 & Hs3).
    rewrite app_nil_r. now repeat split.
  - rewrite Hwhole. eexists. split; [reflexivity|]. now repeat split.
Qed.

Lemma vosk_refused_format_witness :
  fst (Vosk.transcribe_with_vosk stereo (Given (utf8 "note.mp3")) true)
  = utf8 "Ошибка: Некорректный формат аудио".
Proof.
  destruct (vosk_refused_format stereo (Given (utf8 "note.mp3"))
              (TempWav (Given (utf8 "note.mp3"))) true
              (mkWave false [] (utf8 "a"))
              eq_refl (or_introl eq_refl) eq_refl eq_refl)
    as (tr & E & _).
  - right. vm_compute. lia.
  - reflexivity.
  - reflexivity.
  - rewrite E. reflexivity.
Defined.

(** X19.  Whatever the libraries and the file system answer, both
    [transcribe_with_whisper] and [transcribe_with_vosk] write their
    text file at most once, with exactly the text they return; the only
    file they may remove is the prepared audio, when it is not the input
    itself; and when the text file is written, that prepared audio has
    been removed.  The input and the segment files are never removed. *)
Theorem local_backend_files (w : world) (audio_path : path)
    (use_segments : bool) :
  files_ok Whisper w audio_path
    (fst (Whisper.transcribe_with_whisper w audio_path use_segments))
    (snd (Whisper.transcribe_with_whisper w audio_path use_segments)) /\
  files_ok Vosk w audio_path
    (fst (Vosk.transcribe_with_vosk w audio_path use_segments))
    (snd (Vosk.transcribe_with_vosk w audio_path use_segments)).
Proof.
  split.
  - unfold Whisper.transcribe_with_whisper.
    destruct (negb (dependencies_ok w)); [apply nothing_done_ok|].
    destruct (prepare w audio_path) as [prepared|] eqn:Hprep;
      [|apply nothing_done_ok].
    destruct (load_model w); [|apply nothing_done_ok].
    destruct (Whisper.recognize w prepared use_segments) as [r tr] eqn:E.
    destruct (whisper_recognize_files _ _ _ _ _ E) as (Hw & Hr & _).
    apply (finish_files_ok Whisper w audio_path prepared r tr Hprep Hw Hr).
    now rewrite <- surjective_pairing.
  - unfold Vosk.transcribe_with_vosk.
    destruct (negb (dependencies_ok w)); [apply nothing_done_ok|].
    destruct (negb (model_exists w) && negb (download_ok w));
      [apply nothing_done_ok|].
    destruct (prepare w audio_path) as [prepared|] eqn:Hprep;
      [|apply nothing_done_ok].
    destruct (load_model w); [|apply nothing_done_ok].
    destruct (Vosk.recognize w prepared use_segments) as [r tr] eqn:E.
    destruct (vosk_recognize_files _ _ _ _ _ E) as (Hw & Hr).
    apply (finish_files_ok Vosk w audio_path prepared r tr Hprep Hw Hr).
    now rewrite <- surjective_pairing.
Qed.

End LocalTheorems.

Section ManagerTheorems.

Import Local LocalWorlds.

(** The three ways out of a wrapper. *)
Lemma wrap_cases (b : backend) (w : world) (import_error : option str)
    (audio_path : path) (missing failure : str)
    (backend_result : str * list event) (format : str -> str) :
  let run :=
    Manager.wrap b w import_error audio_path missing failure backend_result
                 format in
  (Manager.went_through b w import_error audio_path /\
   run = ((true, fst backend_result),
          snd backend_result
          ++ [Wrote (FormattedText b audio_path)
                    (format (fst backend_result))]))
  \/
  (~ Manager.went_through b w import_error audio_path /\
   fst (fst run) = false /\
   (run = ((false, missing), []) \/
    (exists m, import_error = Some m /\ run = ((false, failure ++ m), [])) \/
    (exists m, write w (FormattedText b audio_path) = Failed m /\
               run = ((false, failure ++ m), snd backend_result)))).
Proof.
  unfold Manager.wrap, Manager.call_backend, Manager.went_through.
  destruct (module_found w b); cbn [negb].
  2:{ right. split; [intros (H & _); discriminate|]. split; auto. }
  destruct import_error as [m|].
  { right. split; [intros (_ & H & _); discriminate|].
    split; [reflexivity|]. right. left. eauto. }
  destruct (write w (FormattedText b audio_path)) as [[]|m].
  - left. now repeat split.
  - right. split; [intros (_ & _ & H); discriminate|].
    split; [reflexivity|]. right. right. eauto.
Qed.

Lemma wrap_true (b : backend) (w : world) (import_error : option str)
    (audio_path : path) (missing failure : str)
    (backend_result : str * list event) (format : str -> str) :
  let run :=
    Manager.wrap b w import_error audio_path missing failure backend_result
                 format in
  (fst (fst run) = true <-> Manager.went_through b w import_error audio_path)
  /\
  (fst (fst run) = true ->
   snd (fst run) = fst backend_result /\
   wrote (snd run)
   = wrote (snd backend_result)
     ++ [(FormattedText b audio_path, format (fst backend_result))]).
Proof.
  intros run.
  destruct (wrap_cases b w import_error audio_path missing failure
              backend_result format) as [(Hgo & E)|(Hno & Hf & _)];
    fold run in E || fold run in Hf.
  - rewrite E. cbn [fst snd]. split; [tauto|]. intros _.
    split; [reflexivity|]. now rewrite wrote_app.
  - rewrite Hf. split; [split; [discriminate | tauto] | discriminate].
Qed.

(** X20.  The wrappers of transcribe_manager.py answer [True] exactly
    when the module of the backend is loaded, the dependency check of
    the backend lets no exception through, and the formatted file is
    written; what the backend returned plays no part.  A [True] answer
    hands on the backend's text, and the formatted file holds the
    formatter's output for it.  So a backend that is not installed, or
    whose model cannot be loaded, is answered with [True], the error
    message as the text, and the only file written is the formatted file
    made from that message.  An exception let through by the dependency
    check gives [False] and no file. *)
Theorem manager_success_flag (w : world) (import_error : option str)
    (audio_path : path) :
  let whisper := Whisper.transcribe_with_whisper w audio_path true in
  let vosk := Vosk.transcribe_with_vosk w audio_path true in
  let by_whisper := Manager.transcribe_with_whisper w import_error audio_path in
  let by_vosk := Manager.transcribe_with_vosk w import_error audio_path in
  (fst (fst by_whisper) = true
   <-> Manager.went_through Whisper w import_error audio_path) /\
  (fst (fst by_vosk) = true
   <-> Manager.went_through Vosk w import_error audio_path) /\
  (fst (fst by_whisper) = true ->
   snd (fst by_whisper) = fst whisper /\
   wrote (snd by_whisper)
   = wrote (snd whisper)
     ++ [(FormattedText Whisper audio_path,
          format_whisper_result (fst whisper))]) /\
  (fst (fst by_vosk) = true ->
   snd (fst by_vosk) = fst vosk /\
   wrote (snd by_vosk)
   = wrote (snd vosk)
     ++ [(FormattedText Vosk audio_path, format_vosk_result (fst vosk))]) /\
  (Manager.went_through Whisper w import_error audio_path ->
   (dependencies_ok w = false ->
    by_whisper
    = ((true, utf8 "Ошибка: Whisper не установлен"),
       [Wrote (FormattedText Whisper audio_path)
              (format_whisper_result (utf8 "Ошибка: Whisper не установлен"))]))
   /\
   (forall prepared_audio m,
      dependencies_ok w = true ->
      prepare w audio_path = Some prepared_audio ->
      load_model w = Failed m ->
      by_whisper
      = ((true, utf8 "Ошибка распознавания: " ++ m),
         [Wrote (FormattedText Whisper audio_path)
                (format_whisper_result
                   (utf8 "Ошибка распознавания: " ++ m))]))) /\
  (Manager.went_through Vosk w import_error audio_path ->
   (dependencies_ok w = false ->
    by_vosk
    = ((true, utf8 "Ошибка: Vosk не установлен или модель не найдена"),
       [Wrote (FormattedText Vosk audio_path)
              (format_vosk_result
                 (utf8 "Ошибка: Vosk не установлен или модель не найдена"))]))
   /\
   (dependencies_ok w = true ->
    model_exists w = false -> download_ok w = false ->
    by_vosk
    = ((true, utf8 "Ошибка: Не удалось найти или скачать модель Vosk"),
       [Wrote (FormattedText Vosk audio_path)
              (format_vosk_result
                 (utf8 "Ошибка: Не удалось найти или скачать модель Vosk"))])))
  /\
  (forall m,
     import_error = Some m ->
     (module_found w Whisper = true ->
      by_whisper = ((false, utf8 "Ошибка Whisper: " ++ m), [])) /\
     (module_found w Vosk = true ->
      by_vosk = ((false, utf8 "Ошибка Vosk: " ++ m), []))).
Proof.
  intros whisper vosk by_whisper by_vosk.
  pose proof (wrap_true Whisper w import_error audio_path
                (utf8 "Ошибка: Модуль Whisper не найден")
                (utf8 "Ошибка Whisper: ") whisper format_whisper_result)
    as [Hw1 Hw2].
  pose proof (wrap_true Vosk w import_error audio_path
                (utf8 "Ошибка: Модуль Vosk не найден")
                (utf8 "Ошибка Vosk: ") vosk format_vosk_result)
    as [Hv1 Hv2].
  split; [exact Hw1|]. split; [exact Hv1|].
  split; [exact Hw2|]. split; [exact Hv2|].
  split; [|split].
  - intros Hgo.
    destruct (wrap_cases Whisper w import_error audio_path
                (utf8 "Ошибка: Модуль Whisper не найден")
                (utf8 "Ошибка Whisper: ") whisper format_whisper_result)
      as [(_ & E)|(Hno & _)]; [|now elim Hno].
    change (by_whisper
            = ((true, fst whisper),
               snd whisper
               ++ [Wrote (FormattedText Whisper audio_path)
                         (format_whisper_result (fst whisper))])) in E.
    rewrite E.
    split.
    + intros Hdep. unfold whisper, Whisper.transcribe_with_whisper.
      now rewrite Hdep.
    + intros prepared_audio m Hdep Hprep Hload.
      unfold whisper, Whisper.transcribe_with_whisper.
      now rewrite Hdep, Hprep, Hload.
  - intros Hgo.
    destruct (wrap_cases Vosk w import_error audio_path
                (utf8 "Ошибка: Модуль Vosk не найден")
                (utf8 "Ошибка Vosk: ") vosk format_vosk_result)
      as [(_ & E)|(Hno & _)]; [|now elim Hno].
    change (by_vosk
            = ((true, fst vosk),
               snd vosk
               ++ [Wrote (FormattedText Vosk audio_path)
                         (format_vosk_result (fst vosk))])) in E.
    rewrite E.
    split.
    + intros Hdep. unfold vosk, Vosk.transcribe_with_vosk.
      now rewrite Hdep.
    + intros Hdep Hmodel Hdown. unfold vosk, Vosk.transcribe_with_vosk.
      now rewrite Hdep, Hmodel, Hdown.
  - intros m ->. unfold by_whisper, by_vosk,
      Manager.transcribe_with_whisper, Manager.transcribe_with_vosk,
      Manager.wrap, Manager.call_backend.
    split; intros ->; reflexivity.
Qed.

Lemma manager_success_flag_witness :
  Manager.transcribe_with_whisper bare None (Given (utf8 "talk.mp3"))
  = ((true, utf8 "Ошибка: Whisper не установлен"),
     [Wrote (FormattedText Whisper (Given (utf8 "talk.mp3")))
            (format_whisper_result (utf8 "Ошибка: Whisper не установлен"))])
  /\
  Manager.transcribe_with_whisper lecture (Some (utf8 "DLL load failed"))
                                  (Given (utf8 "talk.mp3"))
  = ((false, utf8 "Ошибка Whisper: DLL load failed"), []).
Proof.
  destruct (manager_success_flag bare None (Given (utf8 "talk.mp3")))
    as (_ & _ & _ & _ & Hbare & _).
  destruct (manager_success_flag lecture (Some (utf8 "DLL load failed"))
              (Given (utf8 "talk.mp3")))
    as (_ & _ & _ & _ & _ & _ & Hraise).
  split.
  - apply Hbare; [|reflexivity]. repeat split.
  - apply (Hraise _ eq_refl). reflexivity.
Defined.

End ManagerTheorems.

Section YoutubeTheorems.

Import Youtube.

Lemma replace_all (chars : str) (new : N) (filename : str) :
  existsb (N.eqb new) chars = false ->
  fold_left (fun filename char => replace char new filename) chars filename
  = map (fun c => if existsb (N.eqb c) chars then new else c) filename.
Proof.
  revert filename. induction chars as [|x chars IH]; intros filename Hnew.
  - cbn. now rewrite map_id.
  - cbn [existsb] in Hnew. apply Bool.orb_false_iff in Hnew as [Hx Hnew].
    cbn [fold_left]. rewrite (IH _ Hnew). unfold replace. rewrite map_map.
    apply map_ext. intros c. cbn [existsb].
    destruct (N.eqb c x); cbn [orb]; [now rewrite Hnew | reflexivity].
Qed.

(** X21.  [sanitize_filename] puts an underscore in the place of each of
    the nine characters of [invalid_chars] (< > : / \ | ? the double
    quote and the asterisk) and leaves every other character
    where it is: the length is kept, the result holds none of the nine
    characters, cleaning a clean name changes nothing, and a name is
    kept as it is exactly when it holds none of them. *)
Theorem sanitize_filename_spec (filename : str) :
  sanitize_filename filename
  = map (fun c => if invalid c then underscore else c) filename /\
  length (sanitize_filename filename) = length filename /\
  Forall (fun c => invalid c = false) (sanitize_filename filename) /\
  sanitize_filename (sanitize_filename filename) = sanitize_filename filename /\
  (sanitize_filename filename = filename <->
   Forall (fun c => invalid c = false) filename).
Proof.
  assert (Hmap : forall s,
    sanitize_filename s = map (fun c => if invalid c then underscore else c) s).
  { intros s. unfold sanitize_filename. now rewrite replace_all. }
  assert (Hclean : forall s,
    Forall (fun c => invalid c = false) s -> sanitize_filename s = s).
  { intros s Hs. rewrite Hmap. induction Hs as [|c s Hc Hs IH]; [reflexivity|].
    cbn [map]. now rewrite Hc, IH. }
  assert (Hres : Forall (fun c => invalid c = false) (sanitize_filename filename)).
  { rewrite Hmap. apply Forall_map, Forall_forall. intros c _.
    destruct (invalid c) eqn:Hc; [reflexivity | exact Hc]. }
  split; [apply Hmap|]. split; [rewrite Hmap; apply length_map|].
  split; [exact Hres|]. split; [now apply Hclean|].
  split; [|apply Hclean].
  intros Heq. rewrite <- Heq. exact Hres.
Qed.

End YoutubeTheorems.
